(** * Vega/src/Debug/Instrumentor.h: the trace sink and the scoped timer

    A shallow embedding of [Instrumentor] (the process-wide trace sink) and
    [InstrumentationTimer] (the scoped timer), with the parts of the C++
    standard library they rely on: string streams and their numeric
    inserters, [std::ofstream], [std::chrono] tick arithmetic and
    [std::mutex]. *)

From Stdlib Require Import ZArith NArith Ascii String List Bool Lia.
From Stdlib Require Import Floats.SpecFloat.
From stdpp Require Import base strings gmap pretty.

Local Open Scope string_scope.
Local Open Scope list_scope.

(** ** Scalar types *)

(** [std::chrono] tick counts are signed 64-bit integers. *)
Definition int64_min : Z := (- 2 ^ 63)%Z.
Definition int64_max : Z := (2 ^ 63 - 1)%Z.
Definition in_int64 (z : Z) : Prop := (int64_min <= z <= int64_max)%Z.

(** [double]: IEEE 754 binary64, as specified by [SpecFloat] with a 53 bit
    mantissa and infinities at exponent 1024. *)
Abbreviation double := spec_float.

Definition double_of_int64 (z : Z) : double := binary_normalize 53 1024 z 0 false.
Definition double_div (x y : double) : double := SFdiv 53 1024 x y.

Definition is_finite (x : double) : bool :=
  match x with
  | S754_zero _ | S754_finite _ _ _ => true
  | S754_infinity _ | S754_nan => false
  end.

(** [std::thread::id]: an opaque identity that wraps the native handle.  The
    default-constructed id, [std::thread::id()], is the id of no thread and
    wraps the handle 0; [std::this_thread::get_id()] never returns it. *)
Inductive thread_id := Thread_id (native : N).

(** The id of a thread of execution. *)
Definition of_executing_thread (t : thread_id) : bool :=
  let 'Thread_id h := t in negb (h =? 0)%N.

(** What [operator<<] prints for a [std::thread::id] (libstdc++): a fixed
    text for the id of no thread, the handle as an unsigned decimal number
    otherwise. *)
Definition thread_id_text (t : thread_id) : string :=
  let 'Thread_id h := t in
  if (h =? 0)%N then "thread::id of a non-executing thread" else pretty h.

(** ** Characters *)

Definition char_code (c : ascii) : N := N_of_ascii c.

Definition is_digit (c : ascii) : bool :=
  ((48 <=? char_code c) && (char_code c <=? 57))%N.

Fixpoint all_digits (s : string) : bool :=
  match s with
  | EmptyString => true
  | String c r => is_digit c && all_digits r
  end.

(** The double quote character (code 34) of the C++ string literals. *)
Definition dquote : ascii := "034"%char.
Definition DQ : string := String dquote EmptyString.

(** ** [std::replace] on a [std::string] *)

Fixpoint replace (old_value new_value : ascii) (s : string) : string :=
  match s with
  | EmptyString => EmptyString
  | String c r =>
      String (if Ascii.eqb c old_value then new_value else c)
             (replace old_value new_value r)
  end.

(** ** Number formatting of the stream inserters *)

(** Nearest integer to [num / den], ties to the even one ([0 <= num],
    [0 < den]): the rounding the C library applies when it prints. *)
Definition round_half_even (num den : Z) : Z :=
  let q := (num / den)%Z in
  let r := (num mod den)%Z in
  match (2 * r ?= den)%Z with
  | Lt => q
  | Gt => (q + 1)%Z
  | Eq => if Z.even q then q else (q + 1)%Z
  end.

(** [m * 2^e * 10^prec], rounded to an integer. *)
Definition scaled_magnitude (prec : nat) (m : positive) (e : Z) : N :=
  let num := (Z.pos m * 10 ^ Z.of_nat prec)%Z in
  Z.to_N (if (0 <=? e)%Z then (num * 2 ^ e)%Z else round_half_even num (2 ^ (- e))%Z).

(** The last [prec] decimal digits of [n], zero padded, in front of [acc]. *)
Fixpoint fraction_digits (prec : nat) (n : N) (acc : string) : string :=
  match prec with
  | O => acc
  | S p => fraction_digits p (n / 10)%N (String (pretty_N_char (n mod 10)%N) acc)
  end.

Definition fixed_digits (prec : nat) (n : N) : string :=
  pretty (n / 10 ^ N.of_nat prec)%N
  +:+ match prec with
      | O => EmptyString
      | S _ => String "." (fraction_digits prec n EmptyString)
      end.

Definition sign_text (s : bool) : string := if s then "-" else EmptyString.

(** A [double] under [std::fixed] with precision [prec] (the conversion
    [%.<prec>f] of the C library). *)
Definition format_fixed (prec : nat) (x : double) : string :=
  match x with
  | S754_nan => "nan"
  | S754_infinity s => sign_text s +:+ "inf"
  | S754_zero s => sign_text s +:+ fixed_digits prec 0
  | S754_finite s m e => sign_text s +:+ fixed_digits prec (scaled_magnitude prec m e)
  end.

(** ** [std::stringstream]

    The text written so far and the precision of the stream.  The only
    floating-point insertion of this file happens under [std::fixed], so the
    float field of the stream is not a separate flag: [fixed] is the
    manipulator that leaves the stream in the notation [format_fixed]
    implements. *)
Record stringstream := { ss_str : string; ss_precision : nat }.

Definition stringstream_new : stringstream := {| ss_str := EmptyString; ss_precision := 6 |}.

Definition setprecision (n : nat) (ss : stringstream) : stringstream :=
  {| ss_str := ss_str ss; ss_precision := n |}.

Definition fixed (ss : stringstream) : stringstream := ss.

Definition ss_write (text : string) (ss : stringstream) : stringstream :=
  {| ss_str := ss_str ss +:+ text; ss_precision := ss_precision ss |}.

(** [operator<<] is overloaded on the type of the inserted value. *)
Class Inserter (A : Type) := insert_text : stringstream -> A -> string.

#[global] Instance insert_string : Inserter string := fun _ s => s.
#[global] Instance insert_char : Inserter ascii := fun _ c => String c EmptyString.
(** Integers ignore the precision and the float field. *)
#[global] Instance insert_int64 : Inserter Z := fun _ z => pretty z.
#[global] Instance insert_double : Inserter double :=
  fun ss x => format_fixed (ss_precision ss) x.
#[global] Instance insert_thread_id : Inserter thread_id :=
  fun _ t => thread_id_text t.

Definition put {A} `{Inserter A} (ss : stringstream) (x : A) : stringstream :=
  ss_write (insert_text ss x) ss.

Notation "ss << x" := (put ss x) (at level 69, left associativity).

(** ** Records *)

Record ProfileResult := {
  Name : string;
  Start : double;          (* FloatingPointMicroseconds *)
  ElapsedTime : Z;         (* std::chrono::microseconds *)
  ThreadID : thread_id
}.

Record InstrumentationSession := { session_Name : string }.

(** Lines 73-87 of [WriteProfile]: the record is serialised into a local
    string stream before the lock is taken. *)
Definition WriteProfile_json (result : ProfileResult) : string :=
  let name := replace dquote "'" (Name result) in
  let json := stringstream_new in
  let json := fixed (setprecision 3 json) in
  let json := json << ",{" in
  let json := json << DQ +:+ "cat" +:+ DQ +:+ ":" +:+ DQ +:+ "function" +:+ DQ +:+ "," in
  let json := json << DQ +:+ "dur" +:+ DQ +:+ ":" << ElapsedTime result << ","%char in
  let json := json << DQ +:+ "name" +:+ DQ +:+ ":" +:+ DQ << name << DQ +:+ "," in
  let json := json << DQ +:+ "ph" +:+ DQ +:+ ":" +:+ DQ +:+ "X" +:+ DQ +:+ "," in
  let json := json << DQ +:+ "pid" +:+ DQ +:+ ":0," in
  let json := json << DQ +:+ "tid" +:+ DQ +:+ ":" << ThreadID result << "," in
  let json := json << DQ +:+ "ts" +:+ DQ +:+ ":" << Start result in
  let json := json << "}" in
  ss_str json.

Arguments WriteProfile_json : simpl never.

(** ** The process state

    The two data members of [Instrumentor] that the operations read and
    write, and the environment they act on: the file system, the log and,
    as a history that no operation reads, the span records handed to
    [WriteProfile].  The third member, [m_Mutex], belongs to the threads
    model of [Module Concurrent]. *)

(** [std::ofstream]: the file it is open on, the text inserted and not yet
    flushed, and whether [failbit] or [badbit] is set. *)
Record ofstream := {
  os_path : option string;
  os_buffer : string;
  os_fail : bool
}.

Definition ofstream_new : ofstream :=
  {| os_path := None; os_buffer := EmptyString; os_fail := false |}.

Inductive log_level := Warning | Error.

(** What the process does to its environment, in the order it happens. *)
Inductive event :=
| Log (level : log_level) (message : string)
| Opened (path : string)
| OpenFailed (path : string)
| Written (path : string) (text : string)
| Closed (path : string).

Record State := {
  m_CurrentSession : option InstrumentationSession;
  m_OutputStream : ofstream;
  files : gmap string string;       (* path, as given to open, to content *)
  can_open : string -> bool;        (* can the path be opened for writing? *)
  trace : list event;
  received : list ProfileResult     (* every argument of WriteProfile so far *)
}.

Definition set_session (v : option InstrumentationSession) (s : State) : State :=
  {| m_CurrentSession := v; m_OutputStream := m_OutputStream s; files := files s;
     can_open := can_open s; trace := trace s; received := received s |}.

Definition set_stream (v : ofstream) (s : State) : State :=
  {| m_CurrentSession := m_CurrentSession s; m_OutputStream := v; files := files s;
     can_open := can_open s; trace := trace s; received := received s |}.

Definition set_files (v : gmap string string) (s : State) : State :=
  {| m_CurrentSession := m_CurrentSession s; m_OutputStream := m_OutputStream s;
     files := v; can_open := can_open s; trace := trace s; received := received s |}.

Definition add_event (e : event) (s : State) : State :=
  {| m_CurrentSession := m_CurrentSession s; m_OutputStream := m_OutputStream s;
     files := files s; can_open := can_open s; trace := trace s ++ [e];
     received := received s |}.

Definition add_received (r : ProfileResult) (s : State) : State :=
  {| m_CurrentSession := m_CurrentSession s; m_OutputStream := m_OutputStream s;
     files := files s; can_open := can_open s; trace := trace s;
     received := received s ++ [r] |}.

(** The content of a file; a path that names no file reads as empty. *)
Definition content (s : State) (path : string) : string :=
  default EmptyString (files s !! path).

(** The state of a fresh process: [Instrumentor()] nulls the session pointer
    and default-constructs the stream. *)
Definition Instrumentor_new (fs : gmap string string) (openable : string -> bool) : State :=
  {| m_CurrentSession := None; m_OutputStream := ofstream_new; files := fs;
     can_open := openable; trace := []; received := [] |}.

(** ** The state monad of the operations *)

Definition M (A : Type) : Type := State -> A * State.

#[global] Instance M_ret : MRet M := fun A a s => (a, s).
#[global] Instance M_bind : MBind M :=
  fun A B k m s => let (a, s') := m s in k a s'.

Definition exec {A} (m : M A) (s : State) : State := snd (m s).
Definition modify (f : State -> State) : M unit := fun s => (tt, f s).
Definition gets {A} (f : State -> A) : M A := fun s => (f s, s).

(** ** [std::ofstream] operations *)

(** Hand the buffered text to the file.  The write reaches the file: a
    device that refuses it (and the [badbit] that follows) is not part of
    this model of the stream. *)
Definition sync_buffer (path : string) (s : State) : State :=
  let os := m_OutputStream s in
  match os_buffer os with
  | EmptyString => s
  | text =>
      add_event (Written path text)
        (set_files (<[path := content s path +:+ text]> (files s))
           (set_stream {| os_path := os_path os; os_buffer := EmptyString;
                          os_fail := os_fail os |} s))
  end.

(** [open(filepath)] with the default mode [ios::out]: truncates or creates
    the file and clears the error state; fails, setting [failbit], when the
    stream is already open or the file cannot be opened. *)
Definition stream_open (filepath : string) : M unit :=
  modify (fun s =>
    let os := m_OutputStream s in
    match os_path os with
    | Some _ =>
        set_stream {| os_path := os_path os; os_buffer := os_buffer os; os_fail := true |} s
    | None =>
        if can_open s filepath then
          add_event (Opened filepath)
            (set_files (<[filepath := EmptyString]> (files s))
               (set_stream {| os_path := Some filepath; os_buffer := EmptyString;
                              os_fail := false |} s))
        else
          add_event (OpenFailed filepath)
            (set_stream {| os_path := None; os_buffer := os_buffer os; os_fail := true |} s)
    end).

Definition stream_is_open : M bool :=
  gets (fun s => bool_decide (is_Some (os_path (m_OutputStream s)))).

(** [operator<<]: nothing happens on a stream in an error state; inserting
    into a stream that is not open fails. *)
Definition stream_put (text : string) : M unit :=
  modify (fun s =>
    let os := m_OutputStream s in
    if os_fail os then s
    else match os_path os with
         | Some _ =>
             set_stream {| os_path := os_path os; os_buffer := os_buffer os +:+ text;
                           os_fail := false |} s
         | None =>
             set_stream {| os_path := None; os_buffer := os_buffer os; os_fail := true |} s
         end).

Definition stream_flush : M unit :=
  modify (fun s =>
    let os := m_OutputStream s in
    if os_fail os then s
    else match os_path os with
         | Some path => sync_buffer path s
         | None => s
         end).

(** [close()]: writes what is pending and closes the file; fails when the
    stream is not open. *)
Definition stream_close : M unit :=
  modify (fun s =>
    let os := m_OutputStream s in
    match os_path os with
    | Some path =>
        let s1 := sync_buffer path s in
        add_event (Closed path)
          (set_stream {| os_path := None; os_buffer := EmptyString;
                         os_fail := os_fail (m_OutputStream s1) |} s1)
    | None =>
        set_stream {| os_path := None; os_buffer := os_buffer os; os_fail := true |} s
    end).

(** ** The logging collaborator *)

(** Modelled from the spec: the macros [LOGW] and [LOGE] of
    Debug/ConsoleLog.h, a header that is not part of the sources; the spec
    asks for the capability to log a warning or an error message with
    formatted arguments.  The arguments are concatenated into the message. *)
Definition LOGW (args : list string) : M unit :=
  modify (add_event (Log Warning (String.concat EmptyString args))).

Definition LOGE (args : list string) : M unit :=
  modify (add_event (Log Error (String.concat EmptyString args))).

(** ** [class Instrumentor] *)

Definition HEADER : string :=
  "{" +:+ DQ +:+ "otherData" +:+ DQ +:+ ": {}," +:+ DQ +:+ "traceEvents" +:+ DQ +:+ ":[{}".

Definition FOOTER : string := "]}".

Definition WriteHeader : M unit :=
  stream_put HEADER;; stream_flush.

Definition WriteFooter : M unit :=
  stream_put FOOTER;; stream_flush.

(** The caller owns the lock on [m_Mutex]. *)
Definition InternalEndSession : M unit :=
  cur ← gets m_CurrentSession;
  match cur with
  | Some _ =>
      WriteFooter;;
      stream_close;;
      modify (set_session None)
  | None => mret tt
  end.

Definition BeginSession (name filepath : string) : M unit :=
  cur ← gets m_CurrentSession;
  match cur with
  | Some session =>
      LOGW ["Instrumentor::BeginSession('"; name; "') when session '";
            session_Name session; "' already open."];;
      InternalEndSession
  | None => mret tt
  end;;
  stream_open filepath;;
  opened ← stream_is_open;
  if (opened : bool) then
    modify (set_session (Some {| session_Name := name |}));;
    WriteHeader
  else
    LOGE ["Instrumentor could not open results file '"; filepath; "'."].

Definition default_filepath : string := "results.json".

Definition EndSession : M unit := InternalEndSession.

(** Lines 89-93 of [WriteProfile]: what happens under the lock. *)
Definition WriteProfile_locked (json : string) : M unit :=
  cur ← gets m_CurrentSession;
  match cur with
  | Some _ => stream_put json;; stream_flush
  | None => mret tt
  end.

Definition WriteProfile (result : ProfileResult) : M unit :=
  modify (add_received result);;
  let json := WriteProfile_json result in
  WriteProfile_locked json.

(** ** [class InstrumentationTimer] *)

(** [steady_clock] counts nanoseconds; a time point is its tick count since
    the epoch of the clock. *)
Definition ticks_per_microsecond : Z := 1000.

(** [time_point_cast<microseconds>]: integer division, which truncates
    towards zero. *)
Definition time_point_cast_microseconds (tp : Z) : Z :=
  (tp ÷ ticks_per_microsecond)%Z.

(** The conversion to [duration<double, std::micro>]: the tick count as a
    [double], divided by the ticks of a microsecond. *)
Definition FloatingPointMicroseconds (ticks : Z) : double :=
  double_div (double_of_int64 ticks) (double_of_int64 ticks_per_microsecond).

Record InstrumentationTimer := {
  m_Name : string;
  m_StartTimepoint : Z;
  m_Stopped : bool
}.

(** The constructor; [now] is the reading of [steady_clock::now()]. *)
Definition InstrumentationTimer_new (name : string) (now : Z) : InstrumentationTimer :=
  {| m_Name := name; m_StartTimepoint := now; m_Stopped := false |}.

(** [Stop()], given the reading of the clock and the calling thread. *)
Definition Stop (now : Z) (this_thread : thread_id) (t : InstrumentationTimer)
  : M InstrumentationTimer :=
  let endTimepoint := now in
  let highResStart := FloatingPointMicroseconds (m_StartTimepoint t) in
  let elapsedTime :=
    (time_point_cast_microseconds endTimepoint
     - time_point_cast_microseconds (m_StartTimepoint t))%Z in
  WriteProfile {| Name := m_Name t; Start := highResStart;
                  ElapsedTime := elapsedTime; ThreadID := this_thread |};;
  mret {| m_Name := m_Name t; m_StartTimepoint := m_StartTimepoint t;
          m_Stopped := true |}.

(** The destructor. *)
Definition InstrumentationTimer_delete (now : Z) (this_thread : thread_id)
    (t : InstrumentationTimer) : M unit :=
  if negb (m_Stopped t) then Stop now this_thread t;; mret tt else mret tt.

(** A timer's life: construction at [start], explicit calls of [Stop()] at
    the given clock readings, destruction at [finish]. *)
Fixpoint Stop_each (nows : list Z) (this_thread : thread_id) (t : InstrumentationTimer)
  : M InstrumentationTimer :=
  match nows with
  | [] => mret t
  | now :: rest => t' ← Stop now this_thread t; Stop_each rest this_thread t'
  end.

Definition timer_life (name : string) (start : Z) (stops : list Z) (finish : Z)
    (this_thread : thread_id) : M unit :=
  t ← Stop_each stops this_thread (InstrumentationTimer_new name start);
  InstrumentationTimer_delete finish this_thread t.

(** ** Sequences of calls on the sink *)

Inductive call :=
| CallBegin (name filepath : string)
| CallEnd
| CallWrite (result : ProfileResult).

Definition run_call (c : call) : M unit :=
  match c with
  | CallBegin name filepath => BeginSession name filepath
  | CallEnd => EndSession
  | CallWrite result => WriteProfile result
  end.

Fixpoint run (cs : list call) : M unit :=
  match cs with
  | [] => mret tt
  | c :: rest => run_call c;; run rest
  end.

(** ** The sessions a sequence of calls goes through

    The journal that is open after the calls [cs], as the destination path
    and the span records reported since it was opened; [cur] is the journal
    that is open before them. *)
Fixpoint session_log (openable : string -> bool) (cs : list call)
    (cur : option (string * list ProfileResult)) : option (string * list ProfileResult) :=
  match cs with
  | [] => cur
  | CallBegin _ filepath :: rest =>
      session_log openable rest (if openable filepath then Some (filepath, []) else None)
  | CallEnd :: rest => session_log openable rest None
  | CallWrite result :: rest =>
      session_log openable rest
        (match cur with
         | Some (filepath, rs) => Some (filepath, (rs ++ [result])%list)
         | None => None
         end)
  end.

(** The records of a journal, as they are laid out in its file. *)
Fixpoint records_text (rs : list ProfileResult) : string :=
  match rs with
  | [] => EmptyString
  | r :: rest => WriteProfile_json r +:+ records_text rest
  end.

(** The session pointer and the stream agree, and nothing is left in the
    buffer: what holds between any two operations of the sink. *)
Definition consistent (s : State) : bool :=
  let os := m_OutputStream s in
  match m_CurrentSession s, os_path os, os_buffer os with
  | Some _, Some _, EmptyString => negb (os_fail os)
  | None, None, EmptyString => true
  | _, _, _ => false
  end.

Definition same_level (a b : log_level) : bool :=
  match a, b with
  | Warning, Warning | Error, Error => true
  | _, _ => false
  end.

(** The number of messages of a level among the events. *)
Fixpoint count_log (lvl : log_level) (evs : list event) : nat :=
  match evs with
  | [] => 0
  | Log l _ :: rest => (if same_level l lvl then 1 else 0) + count_log lvl rest
  | _ :: rest => count_log lvl rest
  end.

(** ** Shapes of rendered numbers *)

Definition strip_sign (s : string) : string :=
  match s with
  | String c r => if Ascii.eqb c "-" then r else s
  | EmptyString => s
  end.

(** What follows the decimal point, when only digits come before it. *)
Fixpoint after_point (s : string) : option string :=
  match s with
  | EmptyString => None
  | String c r =>
      if Ascii.eqb c "." then Some r
      else if is_digit c then after_point r
      else None
  end.

(** Fixed notation with exactly [places] digits after the decimal point: an
    optional sign, one digit or more, the point, [places] digits. *)
Definition fixed_notation (places : nat) (s : string) : bool :=
  match strip_sign s with
  | EmptyString => false
  | String c r =>
      is_digit c &&
      match after_point (String c r) with
      | Some frac => all_digits frac && Nat.eqb (String.length frac) places
      | None => false
      end
  end.

(** A decimal integer: an optional sign and one digit or more, no point. *)
Definition plain_integer (s : string) : bool :=
  match strip_sign s with
  | EmptyString => false
  | String c r => all_digits (String c r)
  end.

(** Decimal digits without a leading zero, the number zero apart. *)
Definition canonical_digits (s : string) : bool :=
  match s with
  | EmptyString => false
  | String c r =>
      all_digits (String c r)
      && (negb (Ascii.eqb c "0") || match r with EmptyString => true | _ => false end)
  end.

(** ** JSON texts (RFC 8259), over bytes

    A recogniser by recursive descent.  Each function takes the input at the
    start of the construct and returns what follows it.  A byte above 127 is
    taken as part of an encoded character. *)

Definition is_ws (c : ascii) : bool :=
  Ascii.eqb c " " || Ascii.eqb c "009" || Ascii.eqb c "010" || Ascii.eqb c "013".

Fixpoint skip_ws (s : string) : string :=
  match s with
  | EmptyString => s
  | String c r => if is_ws c then skip_ws r else s
  end.

Definition is_hex (c : ascii) : bool :=
  is_digit c
  || ((65 <=? char_code c) && (char_code c <=? 70))%N
  || ((97 <=? char_code c) && (char_code c <=? 102))%N.

Definition backslash : ascii := "092"%char.

(** The characters that may follow a backslash, [u] apart. *)
Definition is_escape (c : ascii) : bool :=
  Ascii.eqb c dquote || Ascii.eqb c backslash || Ascii.eqb c "/" || Ascii.eqb c "b"
  || Ascii.eqb c "f" || Ascii.eqb c "n" || Ascii.eqb c "r" || Ascii.eqb c "t".

(** A string after its opening quote. *)
Fixpoint json_string_rest (s : string) : option string :=
  match s with
  | EmptyString => None
  | String c r =>
      if Ascii.eqb c dquote then Some r
      else if Ascii.eqb c backslash then
        match r with
        | String e r1 =>
            if is_escape e then json_string_rest r1
            else if Ascii.eqb e "u" then
              match r1 with
              | String h1 (String h2 (String h3 (String h4 r2))) =>
                  if is_hex h1 && is_hex h2 && is_hex h3 && is_hex h4
                  then json_string_rest r2 else None
              | _ => None
              end
            else None
        | EmptyString => None
        end
      else if (char_code c <? 32)%N then None
      else json_string_rest r
  end.

Fixpoint skip_digits (s : string) : string :=
  match s with
  | EmptyString => s
  | String c r => if is_digit c then skip_digits r else s
  end.

(** One digit or more. *)
Definition json_digits (s : string) : option string :=
  match s with
  | String c r => if is_digit c then Some (skip_digits r) else None
  | EmptyString => None
  end.

(** [int]: a zero, or digits that do not start with a zero. *)
Definition json_int (s : string) : option string :=
  match s with
  | String c r =>
      if Ascii.eqb c "0" then Some r
      else if is_digit c then Some (skip_digits r)
      else None
  | EmptyString => None
  end.

(** [frac], when a point follows. *)
Definition json_frac (s : string) : option string :=
  match s with
  | String c r => if Ascii.eqb c "." then json_digits r else Some s
  | EmptyString => Some s
  end.

(** [exp], when an [e] follows. *)
Definition json_exp (s : string) : option string :=
  match s with
  | String c r =>
      if Ascii.eqb c "e" || Ascii.eqb c "E" then
        match r with
        | String g r1 =>
            if Ascii.eqb g "+" || Ascii.eqb g "-" then json_digits r1 else json_digits r
        | EmptyString => None
        end
      else Some s
  | EmptyString => Some s
  end.

Definition json_number (s : string) : option string :=
  r1 ← json_int (strip_sign s);
  r2 ← json_frac r1;
  json_exp r2.

(** [s] after the prefix [lit]. *)
Fixpoint json_literal (lit s : string) : option string :=
  match lit with
  | EmptyString => Some s
  | String c lit' =>
      match s with
      | String d r => if Ascii.eqb c d then json_literal lit' r else None
      | EmptyString => None
      end
  end.

(** A string, a literal name or a number. *)
Definition json_scalar (s : string) : option string :=
  match s with
  | EmptyString => None
  | String c r =>
      if Ascii.eqb c dquote then json_string_rest r
      else if Ascii.eqb c "t" then json_literal "rue" r
      else if Ascii.eqb c "f" then json_literal "alse" r
      else if Ascii.eqb c "n" then json_literal "ull" r
      else json_number s
  end.

(** After an opening bracket and white space: the closing bracket, or what
    [inner] accepts. *)
Definition after_open (close : ascii) (inner : string -> option string) (s : string)
  : option string :=
  match s with
  | EmptyString => None
  | String d r => if Ascii.eqb d close then Some r else inner s
  end.

(** After an element or a member: a separator and what [more] accepts, or
    the closing bracket. *)
Definition after_item (separator close : ascii) (more : string -> option string)
    (s : string) : option string :=
  match skip_ws s with
  | EmptyString => None
  | String c r =>
      if Ascii.eqb c separator then more (skip_ws r)
      else if Ascii.eqb c close then Some r
      else None
  end.

(** The name of a member and its colon; what is returned starts with the
    value. *)
Definition json_key (s : string) : option string :=
  match s with
  | EmptyString => None
  | String q r =>
      if Ascii.eqb q dquote then
        match json_string_rest r with
        | Some r1 =>
            match skip_ws r1 with
            | String c r2 => if Ascii.eqb c ":" then Some (skip_ws r2) else None
            | EmptyString => None
            end
        | None => None
        end
      else None
  end.

(** Values, the elements of an array after its bracket and the members of an
    object after its brace; [fuel] bounds the nesting and the number of
    elements. *)
Fixpoint json_value (fuel : nat) (s : string) : option string :=
  match fuel with
  | O => None
  | S n =>
      match s with
      | EmptyString => None
      | String c r =>
          if Ascii.eqb c "{" then after_open "}" (json_members n) (skip_ws r)
          else if Ascii.eqb c "[" then after_open "]" (json_elements n) (skip_ws r)
          else json_scalar s
      end
  end
with json_elements (fuel : nat) (s : string) : option string :=
  match fuel with
  | O => None
  | S n =>
      match json_value n s with
      | Some r => after_item "," "]" (json_elements n) r
      | None => None
      end
  end
with json_members (fuel : nat) (s : string) : option string :=
  match fuel with
  | O => None
  | S n =>
      match json_key s with
      | Some v =>
          match json_value n v with
          | Some r => after_item "," "}" (json_members n) r
          | None => None
          end
      | None => None
      end
  end.

(** A JSON text: one value between optional white space. *)
Definition json_accepts (fuel : nat) (s : string) : bool :=
  match json_value fuel (skip_ws s) with
  | Some r => match skip_ws r with EmptyString => true | _ => false end
  | None => false
  end.

Definition valid_json (s : string) : Prop := exists fuel, json_accepts fuel s = true.

(** Text that stands for itself between the quotes of a JSON string: no
    control character, no double quote, no backslash. *)
Fixpoint plain_text (s : string) : bool :=
  match s with
  | EmptyString => true
  | String c r =>
      negb (char_code c <? 32)%N && negb (Ascii.eqb c dquote)
      && negb (Ascii.eqb c backslash) && plain_text r
  end.

(** The characters that end a number inside a span record. *)
Definition ends_number (d : ascii) : Prop := d = ","%char \/ d = "}"%char.

(** The first character of a rendered number. *)
Definition starts_number (c : ascii) : Prop := is_digit c = true \/ c = "-"%char.

(** A span name that needs no escaping beyond the replacement of its double
    quotes: no control character and no backslash. *)
Fixpoint json_safe_name (s : string) : bool :=
  match s with
  | EmptyString => true
  | String c r =>
      negb (char_code c <? 32)%N && negb (Ascii.eqb c backslash) && json_safe_name r
  end.

Definition well_formed_span (r : ProfileResult) : bool :=
  json_safe_name (Name r) && is_finite (Start r).

(** A span record whose fields all render as JSON: well formed, and
    reported with the id of a thread of execution. *)
Definition serialisable_span (r : ProfileResult) : bool :=
  well_formed_span r && of_executing_thread (ThreadID r).

(** ** The fields of a serialised span record *)

Definition dur_field (r : ProfileResult) : string := pretty (ElapsedTime r).
Definition name_field (r : ProfileResult) : string := replace dquote "'" (Name r).
Definition tid_field (r : ProfileResult) : string := thread_id_text (ThreadID r).
Definition ts_field (r : ProfileResult) : string := format_fixed 3 (Start r).

(** The object of a span record around its four variable fields; the record
    is this object after a comma. *)
Definition span_object (dur name tid ts : string) : string :=
  "{" +:+ DQ +:+ "cat" +:+ DQ +:+ ":" +:+ DQ +:+ "function" +:+ DQ +:+ ","
  +:+ DQ +:+ "dur" +:+ DQ +:+ ":" +:+ dur +:+ ","
  +:+ DQ +:+ "name" +:+ DQ +:+ ":" +:+ DQ +:+ name +:+ DQ +:+ ","
  +:+ DQ +:+ "ph" +:+ DQ +:+ ":" +:+ DQ +:+ "X" +:+ DQ +:+ ","
  +:+ DQ +:+ "pid" +:+ DQ +:+ ":0,"
  +:+ DQ +:+ "tid" +:+ DQ +:+ ":" +:+ tid +:+ ","
  +:+ DQ +:+ "ts" +:+ DQ +:+ ":" +:+ ts +:+ "}".

(** ** The messages of [BeginSession] *)

Definition warning_message (name prior : string) : string :=
  "Instrumentor::BeginSession('" +:+ name +:+ "') when session '" +:+ prior
  +:+ "' already open.".

Definition error_message (filepath : string) : string :=
  "Instrumentor could not open results file '" +:+ filepath +:+ "'.".

(** What [BeginSession] does once no session is open: the events of its
    attempt to open [filepath]. *)
Definition opening_events (s : State) (name filepath : string) : list event :=
  if can_open s filepath
  then [Opened filepath; Written filepath HEADER]
  else [OpenFailed filepath; Log Error (error_message filepath)].

(** ** The two shapes of a consistent state *)

Definition closed_state (f : bool) (fs : gmap string string) (co : string -> bool)
    (tr : list event) (rc : list ProfileResult) : State :=
  {| m_CurrentSession := None;
     m_OutputStream := {| os_path := None; os_buffer := EmptyString; os_fail := f |};
     files := fs; can_open := co; trace := tr; received := rc |}.

Definition open_state (cur : InstrumentationSession) (p : string)
    (fs : gmap string string) (co : string -> bool)
    (tr : list event) (rc : list ProfileResult) : State :=
  {| m_CurrentSession := Some cur;
     m_OutputStream := {| os_path := Some p; os_buffer := EmptyString; os_fail := false |};
     files := fs; can_open := co; trace := tr; received := rc |}.

(** The state holds the journal [cur]: a session is open on its path and
    the file starts with the prologue and has its records so far, or no
    session is open. *)
Definition holds_journal (s : State) (cur : option (string * list ProfileResult)) : Prop :=
  match cur with
  | Some (p, rs) =>
      exists sess fs tr rc,
        s = open_state sess p fs (can_open s) tr rc
        /\ fs !! p = Some (HEADER +:+ records_text rs)
  | None => exists f fs tr rc, s = closed_state f fs (can_open s) tr rc
  end.

(** ** Threads and [m_Mutex]

    Two views of the same threads.  [Module Concurrent] takes the
    statements under a guard as one step: enough to tell who owns the
    mutex and whether the threads can go on.  [Module Statements], further
    down, takes them one at a time, so that what the guard achieves for
    them has to be proved. *)

Module Concurrent.

(** The steps of one call, as far as other threads can tell them apart. *)
Inductive instr :=
| Serialise                 (* lines 73-87 of WriteProfile, on a local stream *)
| Lock                      (* std::lock_guard lock(m_Mutex) *)
| Critical (body : M unit)  (* the statements under the guard *)
| Unlock.                   (* the guard leaves scope *)

Definition code (c : call) : list instr :=
  match c with
  | CallBegin name filepath => [Lock; Critical (BeginSession name filepath); Unlock]
  | CallEnd => [Lock; Critical InternalEndSession; Unlock]
  | CallWrite result => [Serialise; Lock; Critical (WriteProfile result); Unlock]
  end.

(** A thread: the call it is in with the number of steps of it that are
    done (one at least), and the calls it makes afterwards. *)
Record thread := {
  running : option (call * nat);
  pending : list call
}.

Record config := {
  mutex : option nat;        (* the thread that owns m_Mutex *)
  shared : State;
  threads : list thread
}.

Definition next_instr (t : thread) : option instr :=
  match running t with
  | Some (c, k) => code c !! k
  | None =>
      match pending t with
      | c :: _ => code c !! 0
      | [] => None
      end
  end.

(** The thread after its next step; a call whose last step is done is no
    longer running. *)
Definition advance (t : thread) : thread :=
  match running t with
  | Some (c, k) =>
      {| running := if Nat.ltb (S k) (List.length (code c)) then Some (c, S k) else None;
         pending := pending t |}
  | None =>
      match pending t with
      | c :: rest => {| running := Some (c, 1); pending := rest |}
      | [] => t
      end
  end.

(** The effect of a step of thread [i] on the mutex and on the shared
    state; [None] when the thread has to wait. *)
Definition effect (i : nat) (ins : instr) (m : option nat) (s : State)
  : option (option nat * State) :=
  match ins with
  | Serialise => Some (m, s)
  | Lock => match m with None => Some (Some i, s) | Some _ => None end
  | Critical body => Some (m, exec body s)
  | Unlock => Some (None, s)
  end.

Definition step (i : nat) (cfg : config) : option config :=
  t ← threads cfg !! i;
  ins ← next_instr t;
  '(m, s) ← effect i ins (mutex cfg) (shared cfg);
  Some {| mutex := m; shared := s; threads := <[i := advance t]> (threads cfg) |}.

(** The steps of a schedule, one thread index after the other. *)
Fixpoint schedule (sched : list nat) (cfg : config) : option config :=
  match sched with
  | [] => Some cfg
  | i :: rest => cfg' ← step i cfg; schedule rest cfg'
  end.

Definition start (s : State) (calls : list (list call)) : config :=
  {| mutex := None; shared := s;
     threads := map (fun cs => {| running := None; pending := cs |}) calls |}.

Definition reachable (s : State) (calls : list (list call)) (cfg : config) : Prop :=
  exists sched, schedule sched (start s calls) = Some cfg.

(** The thread is inside one of the three operations. *)
Definition executing (t : thread) : bool :=
  match running t with Some _ => true | None => false end.

(** The number of steps of a call up to and including [Lock]. *)
Definition lock_steps (c : call) : nat :=
  match c with
  | CallWrite _ => 2
  | _ => 1
  end.

(** The thread is between [Lock] and [Unlock]. *)
Definition in_critical (t : thread) : bool :=
  match running t with
  | Some (c, k) => Nat.leb (lock_steps c) k
  | None => false
  end.

(** Whoever is between [Lock] and [Unlock] owns the mutex. *)
Definition owner_in_critical (cfg : config) : Prop :=
  forall j t, threads cfg !! j = Some t -> in_critical t = true -> mutex cfg = Some j.

End Concurrent.

(** ** The discipline of the event trace *)


(** The calls of [BeginSession] on a path that cannot be opened. *)
Fixpoint failed_opens (openable : string -> bool) (cs : list call) : nat :=
  match cs with
  | [] => 0
  | CallBegin _ filepath :: rest =>
      (if openable filepath then 0 else 1) + failed_opens openable rest
  | _ :: rest => failed_opens openable rest
  end.

(** The calls of [BeginSession] made while a session is open; [is_open]
    tells whether one is open before the calls. *)
Fixpoint discarded_sessions (openable : string -> bool) (cs : list call) (is_open : bool)
  : nat :=
  match cs with
  | [] => 0
  | CallBegin _ filepath :: rest =>
      (if is_open then 1 else 0) + discarded_sessions openable rest (openable filepath)
  | CallEnd :: rest => discarded_sessions openable rest false
  | CallWrite _ :: rest => discarded_sessions openable rest is_open
  end.

(** ** Progress of the threads *)

(** A running call is past its first step and short of its last. *)
Definition in_progress (t : Concurrent.thread) : bool :=
  match Concurrent.running t with
  | Some (c, k) => Nat.leb 1 k && Nat.ltb k (List.length (Concurrent.code c))
  | None => true
  end.

(** The owner of the mutex is a thread between [Lock] and [Unlock], and
    every running call is in progress. *)
Definition mutex_held_inside (cfg : Concurrent.config) : Prop :=
  (forall i, Concurrent.mutex cfg = Some i ->
     exists t, Concurrent.threads cfg !! i = Some t /\ Concurrent.in_critical t = true)
  /\ (forall i t, Concurrent.threads cfg !! i = Some t -> in_progress t = true).

(** No thread has a step left. *)
Definition all_done (cfg : Concurrent.config) : bool :=
  forallb (fun t => match Concurrent.next_instr t with None => true | Some _ => false end)
    (Concurrent.threads cfg).

(** The steps a thread has left. *)
Fixpoint code_steps (cs : list call) : nat :=
  match cs with
  | [] => 0
  | c :: rest => List.length (Concurrent.code c) + code_steps rest
  end.

Definition remaining (t : Concurrent.thread) : nat :=
  match Concurrent.running t with
  | Some (c, k) => List.length (Concurrent.code c) - k
  | None => 0
  end + code_steps (Concurrent.pending t).

Fixpoint remaining_steps (ts : list Concurrent.thread) : nat :=
  match ts with
  | [] => 0
  | t :: rest => remaining t + remaining_steps rest
  end.

(** ** The session pointer and the stream *)

(** The session pointer is non-null exactly when the stream is open on a
    file. *)
Definition session_iff_open (s : State) : bool :=
  match m_CurrentSession s, os_path (m_OutputStream s) with
  | Some _, Some _ | None, None => true
  | _, _ => false
  end.

(** What a state has of the session pointer, of the file the stream is
    open on and of the paths that can be opened. *)
Definition has (session : option InstrumentationSession) (path : option string)
    (co : string -> bool) (s : State) : Prop :=
  m_CurrentSession s = session /\ os_path (m_OutputStream s) = path /\ can_open s = co.

(** ** The paths of the events *)

(** The path an event is about. *)
Definition event_path (e : event) : option string :=
  match e with
  | Log _ _ => None
  | Opened p | OpenFailed p | Written p _ | Closed p => Some p
  end.

(** The destinations of the calls of [BeginSession]. *)
Fixpoint begin_paths (cs : list call) : list string :=
  match cs with
  | [] => []
  | CallBegin _ filepath :: rest => filepath :: begin_paths rest
  | _ :: rest => begin_paths rest
  end.

(** Every event about a path is about a path of [allowed]. *)
Definition touches_only (allowed : string -> Prop) (evs : list event) : Prop :=
  Forall (fun e => match event_path e with Some q => allowed q | None => True end) evs.

(** ** Interleavings of the calls of the threads *)

(** The sequence [l] takes the calls of every thread in the order of the
    thread, each call once: at every position the next call of some
    thread. *)
Inductive interleaving : list (list call) -> list call -> Prop :=
| interleaving_nil (ls : list (list call)) :
    Forall (fun cs => cs = []) ls -> interleaving ls []
| interleaving_cons (ls : list (list call)) (i : nat) (c : call) (cs l : list call) :
    ls !! i = Some (c :: cs) ->
    interleaving (<[i := cs]> ls) l ->
    interleaving ls (c :: l).

(** ** The statements under the guard, one at a time *)

Module Statements.

(** What is left of a call.  Every statement that reads or writes the
    members of [Instrumentor] is a step of its own, and so is every test of
    them: between two of them any other thread may take steps.  Nothing
    but the program text keeps a thread that does not own [m_Mutex] from
    executing a statement. *)
Inductive prog :=
| Return                                      (* the call returns *)
| Local (k : prog)                            (* statements on local data *)
| Acquire (k : prog)                          (* std::lock_guard lock(m_Mutex) *)
| Release (k : prog)                          (* the guard leaves scope *)
| Do (stmt : M unit) (k : prog)               (* a statement on the members *)
| Test (cond : State -> bool) (yes no : prog).  (* an if on the members *)

(** [if (m_CurrentSession)] *)
Definition session_is_set (s : State) : bool :=
  match m_CurrentSession s with Some _ => true | None => false end.

(** [if (m_OutputStream.is_open())] *)
Definition stream_opened (s : State) : bool := fst (stream_is_open s).

(** Line 49: the warning reads the name of the session through the
    pointer. *)
Definition warn_open (name : string) : M unit :=
  cur ← gets m_CurrentSession;
  match cur with
  | Some session =>
      LOGW ["Instrumentor::BeginSession('"; name; "') when session '";
            session_Name session; "' already open."]
  | None => mret tt
  end.

(** [InternalEndSession()], lines 117-124 with [WriteFooter()] inlined,
    followed by [k]. *)
Definition InternalEndSession_prog (k : prog) : prog :=
  Test session_is_set                          (* 118 *)
    (Do (stream_put FOOTER)                    (* 111 *)
    (Do stream_flush                           (* 112 *)
    (Do stream_close                           (* 120 *)
    (Do (modify (set_session None))            (* 121, 122 *)
     k))))
    k.

(** Lines 52-62 of [BeginSession] with [WriteHeader()] inlined, up to the
    end of the guard. *)
Definition open_prog (name filepath : string) : prog :=
  Do (stream_open filepath)                                            (* 52 *)
  (Test stream_opened                                                  (* 54 *)
     (Do (modify (set_session (Some {| session_Name := name |})))      (* 56 *)
     (Do (stream_put HEADER)                                           (* 105 *)
     (Do stream_flush                                                  (* 106 *)
     (Release Return))))
     (Do (LOGE ["Instrumentor could not open results file '"; filepath; "'."])  (* 61 *)
     (Release Return))).

(** [BeginSession], lines 44-63. *)
Definition BeginSession_prog (name filepath : string) : prog :=
  Acquire                                                              (* 46 *)
    (Test session_is_set                                               (* 47 *)
       (Do (warn_open name)                                            (* 49 *)
       (InternalEndSession_prog (open_prog name filepath)))            (* 50 *)
       (open_prog name filepath)).

(** [EndSession], lines 65-69. *)
Definition EndSession_prog : prog :=
  Acquire                                                              (* 67 *)
    (InternalEndSession_prog (Release Return)).                        (* 68 *)

(** [WriteProfile], lines 71-94.  The history [received] is no data of the
    program; the call is entered in it as the first step under the
    guard. *)
Definition WriteProfile_prog (result : ProfileResult) : prog :=
  Local                                                                (* 73-87 *)
  (Acquire                                                             (* 89 *)
  (Do (modify (add_received result))
  (Test session_is_set                                                 (* 90 *)
     (Do (stream_put (WriteProfile_json result))                       (* 91 *)
     (Do stream_flush                                                  (* 92 *)
     (Release Return)))
     (Release Return)))).

Definition prog_of (c : call) : prog :=
  match c with
  | CallBegin name filepath => BeginSession_prog name filepath
  | CallEnd => EndSession_prog
  | CallWrite result => WriteProfile_prog result
  end.

(** What the statements left of a call do when no other thread takes a
    step in between. *)
Fixpoint run_prog (p : prog) (s : State) : State :=
  match p with
  | Return => s
  | Local k | Acquire k | Release k => run_prog k s
  | Do stmt k => run_prog k (exec stmt s)
  | Test cond yes no => if cond s then run_prog yes s else run_prog no s
  end.

(** A thread: the call it is in with what is left of it, and the calls it
    makes afterwards. *)
Record thread := {
  current : option (call * prog);
  pending : list call
}.

Record config := {
  mutex : option nat;        (* the thread that owns m_Mutex *)
  shared : State;
  threads : list thread
}.

(** One step of thread [i] inside a call: what is left of the call
    ([None] once it has returned), the mutex and the shared state; no
    step when the thread has to wait for the mutex. *)
Definition advance (i : nat) (p : prog) (m : option nat) (s : State)
  : option (option prog * option nat * State) :=
  match p with
  | Return => Some (None, m, s)
  | Local k => Some (Some k, m, s)
  | Acquire k => match m with None => Some (Some k, Some i, s) | Some _ => None end
  | Release k => Some (Some k, None, s)
  | Do stmt k => Some (Some k, m, exec stmt s)
  | Test cond yes no => Some (Some (if cond s then yes else no), m, s)
  end.

(** A step of thread [i]: it enters its next call, or takes a step inside
    the call it is in. *)
Definition step (i : nat) (cfg : config) : option config :=
  t ← threads cfg !! i;
  match current t with
  | Some (c, p) =>
      '(k, m, s) ← advance i p (mutex cfg) (shared cfg);
      Some {| mutex := m; shared := s;
              threads := <[i := {| current := option_map (pair c) k;
                                   pending := pending t |}]> (threads cfg) |}
  | None =>
      match pending t with
      | c :: rest =>
          Some {| mutex := mutex cfg; shared := shared cfg;
                  threads := <[i := {| current := Some (c, prog_of c);
                                       pending := rest |}]> (threads cfg) |}
      | [] => None
      end
  end.

Fixpoint schedule (sched : list nat) (cfg : config) : option config :=
  match sched with
  | [] => Some cfg
  | i :: rest => cfg' ← step i cfg; schedule rest cfg'
  end.

Definition start (s : State) (calls : list (list call)) : config :=
  {| mutex := None; shared := s;
     threads := map (fun cs => {| current := None; pending := cs |}) calls |}.

(** Every thread has returned from its last call. *)
Definition finished (cfg : config) : bool :=
  forallb (fun t => match current t, pending t with
                    | None, [] => true
                    | _, _ => false
                    end) (threads cfg).

(** The call whose guard the next step of the thread constructs. *)
Definition acquires (t : thread) : list call :=
  match current t with
  | Some (c, Acquire _) => [c]
  | _ => []
  end.

(** The calls in the order in which they took the mutex. *)
Fixpoint lock_order (sched : list nat) (cfg : config) : list call :=
  match sched with
  | [] => []
  | i :: rest =>
      match threads cfg !! i, step i cfg with
      | Some t, Some cfg' => acquires t ++ lock_order rest cfg'
      | _, _ => []
      end
  end.

(** The shared state once the owner of the mutex, if there is one, has
    finished the statements under its guard. *)
Definition committed (cfg : config) : State :=
  match mutex cfg with
  | Some j =>
      match threads cfg !! j with
      | Some {| current := Some (_, p) |} => run_prog p (shared cfg)
      | _ => shared cfg
      end
  | None => shared cfg
  end.

(** Statements under a guard, up to and including its release. *)
Fixpoint inside_ok (p : prog) : bool :=
  match p with
  | Do _ k => inside_ok k
  | Test _ yes no => inside_ok yes && inside_ok no
  | Release Return => true
  | _ => false
  end.

(** Local statements, then a guard and the statements under it. *)
Fixpoint before_ok (p : prog) : bool :=
  match p with
  | Local k => before_ok k
  | Acquire k => inside_ok k
  | _ => false
  end.

(** The calls of a thread that have not taken the mutex yet. *)
Definition todo (t : thread) : list call :=
  match current t with
  | Some (c, p) => if before_ok p then c :: pending t else pending t
  | None => pending t
  end.

(** Where a thread is in its call: before the guard, with statements left
    that amount to the whole operation; under the guard, owning the mutex;
    or about to return. *)
Definition thread_ok (m : option nat) (j : nat) (t : thread) : Prop :=
  match current t with
  | None => True
  | Some (c, p) =>
      (before_ok p = true /\ forall s, run_prog p s = exec (run_call c) s)
      \/ (inside_ok p = true /\ m = Some j)
      \/ p = Return
  end.

(** The mutex is owned by a thread under its guard, and only the owner is
    under a guard. *)
Definition guarded (cfg : config) : Prop :=
  (forall j t, threads cfg !! j = Some t -> thread_ok (mutex cfg) j t)
  /\ (forall j, mutex cfg = Some j ->
        exists t c p, threads cfg !! j = Some t /\ current t = Some (c, p)
                      /\ inside_ok p = true).

End Statements.

(** * Properties *)

(** ** Strings *)

Lemma append_nil_l (s : string) : EmptyString +:+ s = s.
Proof. reflexivity. Qed.

Lemma append_cons (c : ascii) (s t : string) : String c s +:+ t = String c (s +:+ t).
Proof. reflexivity. Qed.

Lemma append_nil_r (s : string) : s +:+ EmptyString = s.
Proof. induction s as [|c s IH]; [reflexivity|]. rewrite append_cons, IH. reflexivity. Qed.

Lemma append_assoc (s t u : string) : (s +:+ t) +:+ u = s +:+ (t +:+ u).
Proof. induction s as [|c s IH]; [reflexivity|]. rewrite !append_cons, IH. reflexivity. Qed.

(** ** The layout of a serialised record *)

Lemma put_precision {A} `{Inserter A} (ss : stringstream) (x : A) :
  ss_precision (ss << x) = ss_precision ss.
Proof. reflexivity. Qed.

Lemma put_string (ss : stringstream) (x : string) : ss_str (ss << x) = ss_str ss +:+ x.
Proof. reflexivity. Qed.

Lemma put_char (ss : stringstream) (x : ascii) :
  ss_str (ss << x) = ss_str ss +:+ String x EmptyString.
Proof. reflexivity. Qed.

Lemma put_int64 (ss : stringstream) (x : Z) : ss_str (ss << x) = ss_str ss +:+ pretty x.
Proof. reflexivity. Qed.

Lemma put_thread_id (ss : stringstream) (x : thread_id) :
  ss_str (ss << x) = ss_str ss +:+ thread_id_text x.
Proof. reflexivity. Qed.

Lemma put_double (ss : stringstream) (x : double) :
  ss_str (ss << x) = ss_str ss +:+ format_fixed (ss_precision ss) x.
Proof. reflexivity. Qed.

Lemma WriteProfile_json_layout (r : ProfileResult) :
  WriteProfile_json r
  = String "," (span_object (dur_field r) (name_field r) (tid_field r) (ts_field r)).
Proof.
  unfold WriteProfile_json. cbv zeta.
  rewrite put_string, put_double, !put_precision.
  rewrite !put_string, put_thread_id, !put_string, put_char, put_int64, !put_string.
  unfold fixed, setprecision, stringstream_new. cbn [ss_str ss_precision].
  rewrite !append_assoc. reflexivity.
Qed.

(** ** Symbolic execution of the sink *)

Lemma consistent_cases (s : State) :
  consistent s = true ->
  (exists f fs co tr rc, s = closed_state f fs co tr rc)
  \/ (exists cur p fs co tr rc, s = open_state cur p fs co tr rc).
Proof.
  destruct s as [cur [p b f] fs co tr rc]; unfold consistent; simpl.
  destruct cur as [cur|], p as [p|], b as [|c b]; try discriminate.
  - destruct f; [discriminate|]. intros _. right. exists cur, p, fs, co, tr, rc. reflexivity.
  - intros _. left. exists f, fs, co, tr, rc. reflexivity.
Qed.

Lemma consistent_open (s : State) (cur : InstrumentationSession) (p : string) :
  consistent s = true -> m_CurrentSession s = Some cur ->
  os_path (m_OutputStream s) = Some p ->
  s = open_state cur p (files s) (can_open s) (trace s) (received s).
Proof.
  intros Hc Hs Hp.
  destruct (consistent_cases s Hc) as [(f & fs & co & tr & rc & E)
                                      |(cur' & p' & fs & co & tr & rc & E)];
    subst s; simpl in Hs, Hp; [discriminate|].
  injection Hs as ->. injection Hp as ->. reflexivity.
Qed.

Lemma exec_bind {A B} (m : M A) (k : A -> M B) (s : State) :
  exec (m ≫= k) s = exec (k (fst (m s))) (snd (m s)).
Proof. unfold exec, mbind, M_bind. destruct (m s). reflexivity. Qed.

Lemma WriteProfile_closed (r : ProfileResult) (s : State) :
  m_CurrentSession s = None -> exec (WriteProfile r) s = add_received r s.
Proof.
  intros H. unfold WriteProfile. rewrite exec_bind.
  unfold WriteProfile_locked. rewrite exec_bind.
  change (fst (gets m_CurrentSession (snd (modify (add_received r) s))))
    with (m_CurrentSession s).
  rewrite H. reflexivity.
Qed.

Lemma InternalEndSession_closed (s : State) :
  m_CurrentSession s = None -> exec InternalEndSession s = s.
Proof.
  intros H. unfold InternalEndSession. rewrite exec_bind.
  change (fst (gets m_CurrentSession s)) with (m_CurrentSession s).
  rewrite H. reflexivity.
Qed.

Lemma snoc2 {A} (l : list A) (a b : A) : (l ++ [a; b] = (l ++ [a]) ++ [b])%list.
Proof. rewrite <- List.app_assoc. reflexivity. Qed.

Lemma InternalEndSession_open cur p fs co tr rc :
  exec InternalEndSession (open_state cur p fs co tr rc)
  = closed_state false (<[p := default EmptyString (fs !! p) +:+ FOOTER]> fs) co
      (tr ++ [Written p FOOTER; Closed p]) rc.
Proof.
  rewrite snoc2. reflexivity.
Qed.

Lemma WriteProfile_locked_open c t cur p fs co tr rc :
  exec (WriteProfile_locked (String c t)) (open_state cur p fs co tr rc)
  = open_state cur p (<[p := default EmptyString (fs !! p) +:+ String c t]> fs) co
      (tr ++ [Written p (String c t)]) rc.
Proof. reflexivity. Qed.

Lemma WriteProfile_open r cur p fs co tr rc :
  exec (WriteProfile r) (open_state cur p fs co tr rc)
  = open_state cur p (<[p := default EmptyString (fs !! p) +:+ WriteProfile_json r]> fs) co
      (tr ++ [Written p (WriteProfile_json r)]) (rc ++ [r]).
Proof.
  unfold WriteProfile. rewrite exec_bind.
  change (snd (modify (add_received r) (open_state cur p fs co tr rc)))
    with (open_state cur p fs co tr (rc ++ [r])).
  rewrite WriteProfile_json_layout. apply WriteProfile_locked_open.
Qed.

Lemma stream_open_ok filepath f fs co tr rc :
  co filepath = true ->
  exec (stream_open filepath) (closed_state f fs co tr rc)
  = {| m_CurrentSession := None;
       m_OutputStream := {| os_path := Some filepath; os_buffer := EmptyString;
                            os_fail := false |};
       files := <[filepath := EmptyString]> fs; can_open := co;
       trace := tr ++ [Opened filepath]; received := rc |}.
Proof.
  intros H. unfold stream_open, exec, modify, closed_state. cbn. rewrite H. reflexivity.
Qed.

Lemma stream_open_fail filepath f fs co tr rc :
  co filepath = false ->
  exec (stream_open filepath) (closed_state f fs co tr rc)
  = closed_state true fs co (tr ++ [OpenFailed filepath]) rc.
Proof.
  intros H. unfold stream_open, exec, modify, closed_state. cbn. rewrite H. reflexivity.
Qed.

(** [BeginSession] after its first statement. *)
Lemma BeginSession_closed_steps name filepath f fs co tr rc :
  exec (BeginSession name filepath) (closed_state f fs co tr rc)
  = exec (opened ← stream_is_open;
          if (opened : bool) then
            modify (set_session (Some {| session_Name := name |}));; WriteHeader
          else LOGE ["Instrumentor could not open results file '"; filepath; "'."])
      (exec (stream_open filepath) (closed_state f fs co tr rc)).
Proof. reflexivity. Qed.

Lemma BeginSession_closed_ok name filepath f fs co tr rc :
  co filepath = true ->
  exec (BeginSession name filepath) (closed_state f fs co tr rc)
  = open_state {| session_Name := name |} filepath (<[filepath := HEADER]> fs) co
      (tr ++ [Opened filepath; Written filepath HEADER]) rc.
Proof.
  intros H. rewrite BeginSession_closed_steps, stream_open_ok by exact H.
  transitivity
    (open_state {| session_Name := name |} filepath
       (<[filepath := default EmptyString (<[filepath := EmptyString]> fs !! filepath)
                      +:+ HEADER]> (<[filepath := EmptyString]> fs)) co
       ((tr ++ [Opened filepath]) ++ [Written filepath HEADER]) rc); [reflexivity|].
  rewrite lookup_insert_eq, insert_insert_eq, <- snoc2. reflexivity.
Qed.

Lemma BeginSession_closed_fail name filepath f fs co tr rc :
  co filepath = false ->
  exec (BeginSession name filepath) (closed_state f fs co tr rc)
  = closed_state true fs co
      (tr ++ [OpenFailed filepath; Log Error (error_message filepath)]) rc.
Proof.
  intros H. rewrite BeginSession_closed_steps, stream_open_fail by exact H.
  rewrite snoc2. reflexivity.
Qed.

Lemma BeginSession_open name filepath cur p fs co tr rc :
  exec (BeginSession name filepath) (open_state cur p fs co tr rc)
  = exec (BeginSession name filepath)
      (exec EndSession
         (add_event (Log Warning (warning_message name (session_Name cur)))
            (open_state cur p fs co tr rc))).
Proof. reflexivity. Qed.

Lemma count_log_app (lvl : log_level) (l1 l2 : list event) :
  count_log lvl (l1 ++ l2) = count_log lvl l1 + count_log lvl l2.
Proof.
  induction l1 as [|e l1 IH]; [reflexivity|].
  destruct e; simpl; rewrite IH; lia.
Qed.

Lemma run_app (cs1 cs2 : list call) (s : State) :
  exec (run (cs1 ++ cs2)) s = exec (run cs2) (exec (run cs1) s).
Proof.
  revert s. induction cs1 as [|c cs1 IH]; intros s; [reflexivity|].
  simpl. rewrite !exec_bind. apply IH.
Qed.

Lemma run_cons (c : call) (cs : list call) (s : State) :
  exec (run (c :: cs)) s = exec (run cs) (exec (run_call c) s).
Proof. simpl. rewrite exec_bind. reflexivity. Qed.

Lemma run_writes_closed (rs : list ProfileResult) f fs co tr rc :
  exec (run (map CallWrite rs)) (closed_state f fs co tr rc)
  = closed_state f fs co tr (rc ++ rs).
Proof.
  revert rc. induction rs as [|r rs IH]; intros rc.
  - simpl. rewrite List.app_nil_r. reflexivity.
  - rewrite map_cons, run_cons. simpl run_call.
    rewrite WriteProfile_closed by reflexivity.
    unfold add_received, closed_state at 1; simpl.
    fold (closed_state f fs co tr (rc ++ [r])). rewrite IH.
    rewrite <- List.app_assoc. reflexivity.
Qed.

(** ** Calls outside a session *)

(** C3: a call of [WriteProfile] while no session is open changes neither a
    file nor the stream nor the session pointer, and adds no event: nothing
    is written and nothing is logged; all it leaves is its argument in the
    history of calls. *)
Theorem WriteProfile_without_session (result : ProfileResult) (s : State) :
  m_CurrentSession s = None ->
  let s' := exec (WriteProfile result) s in
  files s' = files s
  /\ trace s' = trace s
  /\ m_OutputStream s' = m_OutputStream s
  /\ m_CurrentSession s' = None
  /\ received s' = received s ++ [result].
Proof.
  intros H s'. subst s'. rewrite WriteProfile_closed by exact H.
  unfold add_received; simpl. auto.
Qed.

Lemma WriteProfile_without_session_witness :
  let s := Instrumentor_new ∅ (fun _ => true) in
  let r := {| Name := "Load"; Start := FloatingPointMicroseconds 1500;
              ElapsedTime := 10; ThreadID := Thread_id 7 |} in
  m_CurrentSession s = None
  /\ files (exec (WriteProfile r) s) = files s
  /\ trace (exec (WriteProfile r) s) = [].
Proof.
  intros s r. split; [reflexivity|].
  pose proof (WriteProfile_without_session r s eq_refl) as H.
  split; [apply H|]. apply (proj1 (proj2 H)).
Defined.

(** ** [BeginSession] when the destination cannot be opened *)

Lemma BeginSession_open_state name filepath cur p fs co tr rc :
  exec (BeginSession name filepath) (open_state cur p fs co tr rc)
  = exec (BeginSession name filepath)
      (closed_state false (<[p := default EmptyString (fs !! p) +:+ FOOTER]> fs) co
         (tr ++ [Log Warning (warning_message name (session_Name cur));
                 Written p FOOTER; Closed p]) rc).
Proof.
  rewrite BeginSession_open.
  change (add_event (Log Warning (warning_message name (session_Name cur)))
            (open_state cur p fs co tr rc))
    with (open_state cur p fs co
            (tr ++ [Log Warning (warning_message name (session_Name cur))]) rc).
  unfold EndSession. rewrite InternalEndSession_open, <- List.app_assoc. reflexivity.
Qed.

(** C5: when the destination cannot be opened, [BeginSession] logs one
    error after whatever it did to a prior session, leaves the session
    pointer null and the stream closed, and every later [WriteProfile]
    changes no file and adds no event, until a [BeginSession] on a path that
    can be opened starts a session. *)
Theorem BeginSession_unopenable (name filepath : string) (s : State) :
  consistent s = true ->
  can_open s filepath = false ->
  let s' := exec (BeginSession name filepath) s in
  m_CurrentSession s' = None
  /\ os_path (m_OutputStream s') = None
  /\ (exists before,
        trace s' = trace s ++ before
                   ++ [OpenFailed filepath; Log Error (error_message filepath)]
        /\ count_log Error before = 0)
  /\ forall rs : list ProfileResult,
       let s'' := exec (run (map CallWrite rs)) s' in
       files s'' = files s' /\ trace s'' = trace s'
       /\ m_CurrentSession s'' = None /\ m_OutputStream s'' = m_OutputStream s'
       /\ forall name2 path2, can_open s path2 = true ->
            let s3 := exec (BeginSession name2 path2) s'' in
            m_CurrentSession s3 = Some {| session_Name := name2 |}
            /\ content s3 path2 = HEADER.
Proof.
  intros Hc Hfail.
  assert (exists fs' before,
            exec (BeginSession name filepath) s
            = closed_state true fs' (can_open s)
                (trace s ++ before
                 ++ [OpenFailed filepath; Log Error (error_message filepath)])
                (received s)
            /\ count_log Error before = 0) as (fs' & before & Es' & Hcount).
  { destruct (consistent_cases s Hc) as [(f & fs & co & tr & rc & E)
                                        |(cur & p & fs & co & tr & rc & E)];
      subst s; simpl in Hfail.
    - rewrite BeginSession_closed_fail by exact Hfail.
      exists fs, []. split; reflexivity.
    - rewrite BeginSession_open_state, BeginSession_closed_fail by exact Hfail.
      eexists _, [Log Warning _; Written p FOOTER; Closed p].
      split; [|reflexivity]. cbn [trace can_open received open_state].
      rewrite <- !List.app_assoc. reflexivity. }
  intros s'. subst s'. rewrite Es'.
  split; [reflexivity|]. split; [reflexivity|].
  split; [exists before; split; [reflexivity|exact Hcount]|].
  intros rs s''. subst s''. rewrite run_writes_closed.
  repeat (split; [reflexivity|]).
  intros name2 path2 Hok s3. subst s3.
  rewrite BeginSession_closed_ok by exact Hok.
  split; [reflexivity|]. unfold content, open_state; cbn [files].
  rewrite lookup_insert_eq. reflexivity.
Qed.

Lemma BeginSession_unopenable_witness :
  let s := Instrumentor_new ∅ (fun p => negb (String.eqb p "/")) in
  consistent s = true /\ can_open s "/" = false
  /\ m_CurrentSession (exec (BeginSession "App" "/") s) = None.
Proof.
  intros s. split; [reflexivity|]. split; [reflexivity|].
  apply (BeginSession_unopenable "App" "/" s); reflexivity.
Defined.

(** ** [BeginSession] while a session is open *)

(** C4: on a state with a session open, [BeginSession] is a warning that
    names the prior session, then [EndSession], then [BeginSession] on the
    state without a session; the epilogue reaches the old file and the file
    is closed before the new destination is opened, and the events of the
    call hold exactly one warning. *)
Theorem BeginSession_while_open (name filepath : string) (s : State)
    (prior : InstrumentationSession) (p : string) :
  consistent s = true ->
  m_CurrentSession s = Some prior ->
  os_path (m_OutputStream s) = Some p ->
  let warning := Log Warning (warning_message name (session_Name prior)) in
  let torn := exec EndSession (add_event warning s) in
  let s' := exec (BeginSession name filepath) s in
  s' = exec (BeginSession name filepath) torn
  /\ m_CurrentSession torn = None
  /\ os_path (m_OutputStream torn) = None
  /\ content torn p = content s p +:+ FOOTER
  /\ trace (exec EndSession s) = trace s ++ [Written p FOOTER; Closed p]
  /\ trace s' = trace s ++ warning :: Written p FOOTER :: Closed p
                           :: opening_events s name filepath
  /\ count_log Warning (trace s') = count_log Warning (trace s) + 1.
Proof.
  intros Hc Hs Hp.
  rewrite (consistent_open s prior p Hc Hs Hp).
  generalize (files s) (can_open s) (trace s) (received s). clear.
  intros fs co tr rc warning torn s'.
  assert (torn = closed_state false (<[p := default EmptyString (fs !! p) +:+ FOOTER]> fs) co
                   (tr ++ [warning; Written p FOOTER; Closed p]) rc) as Et.
  { subst torn.
    change (add_event warning (open_state prior p fs co tr rc))
      with (open_state prior p fs co (tr ++ [warning]) rc).
    unfold EndSession. rewrite InternalEndSession_open, <- List.app_assoc. reflexivity. }
  assert (trace s' = tr ++ warning :: Written p FOOTER :: Closed p
                        :: opening_events (open_state prior p fs co tr rc) name filepath)
    as Etr.
  { subst s'. rewrite BeginSession_open_state.
    unfold opening_events. cbn [can_open open_state]. destruct (co filepath) eqn:Hok.
    - rewrite BeginSession_closed_ok by exact Hok. cbn [trace open_state].
      rewrite <- List.app_assoc. reflexivity.
    - rewrite BeginSession_closed_fail by exact Hok. cbn [trace closed_state].
      rewrite <- List.app_assoc. reflexivity. }
  split; [subst s'; rewrite BeginSession_open_state, Et; reflexivity|].
  split; [rewrite Et; reflexivity|].
  split; [rewrite Et; reflexivity|].
  split.
  { rewrite Et. unfold content, closed_state, open_state; cbn [files].
    rewrite lookup_insert_eq. reflexivity. }
  split; [unfold EndSession; rewrite InternalEndSession_open; reflexivity|].
  split; [exact Etr|].
  rewrite Etr. cbn [trace open_state]. rewrite count_log_app. f_equal.
  unfold opening_events. destruct (can_open _ filepath); reflexivity.
Qed.

Lemma BeginSession_while_open_witness :
  let s := exec (BeginSession "first" "a.json") (Instrumentor_new ∅ (fun _ => true)) in
  let s' := exec (BeginSession "second" "b.json") s in
  consistent s = true
  /\ m_CurrentSession s = Some {| session_Name := "first" |}
  /\ os_path (m_OutputStream s) = Some "a.json"
  /\ count_log Warning (trace s') = count_log Warning (trace s) + 1.
Proof.
  intros s s'. do 3 (split; [reflexivity|]).
  apply (BeginSession_while_open "second" "b.json" s
           {| session_Name := "first" |} "a.json"); reflexivity.
Defined.

(** C10: when a session is open and the new destination cannot be opened,
    [BeginSession] has written the epilogue of the prior session and closed
    its file before the failure to open is found; afterwards no session is
    open, so the prior session is gone and the new one has not begun. *)
Theorem BeginSession_failure_ends_prior (name filepath : string) (s : State)
    (prior : InstrumentationSession) (p : string) :
  consistent s = true ->
  m_CurrentSession s = Some prior ->
  os_path (m_OutputStream s) = Some p ->
  can_open s filepath = false ->
  let s' := exec (BeginSession name filepath) s in
  m_CurrentSession s' = None
  /\ os_path (m_OutputStream s') = None
  /\ content s' p = content s p +:+ FOOTER
  /\ trace s' = trace s ++ [Log Warning (warning_message name (session_Name prior));
                            Written p FOOTER; Closed p;
                            OpenFailed filepath; Log Error (error_message filepath)]
  /\ forall r, files (exec (WriteProfile r) s') = files s'.
Proof.
  intros Hc Hs Hp Hfail.
  rewrite (consistent_open s prior p Hc Hs Hp).
  revert Hfail. generalize (files s) (can_open s) (trace s) (received s). clear.
  intros fs co tr rc Hfail s'. subst s'.
  rewrite BeginSession_open_state, BeginSession_closed_fail by exact Hfail.
  split; [reflexivity|]. split; [reflexivity|].
  split.
  { unfold content, closed_state, open_state; cbn [files].
    rewrite lookup_insert_eq. reflexivity. }
  split; [cbn [trace closed_state open_state]; rewrite <- List.app_assoc; reflexivity|].
  intros r. rewrite WriteProfile_closed by reflexivity. reflexivity.
Qed.

Lemma BeginSession_failure_ends_prior_witness :
  let s := exec (BeginSession "first" "a.json")
             (Instrumentor_new ∅ (fun p => String.eqb p "a.json")) in
  let s' := exec (BeginSession "second" "b.json") s in
  consistent s = true
  /\ m_CurrentSession s = Some {| session_Name := "first" |}
  /\ os_path (m_OutputStream s) = Some "a.json"
  /\ can_open s "b.json" = false
  /\ m_CurrentSession s' = None
  /\ content s' "a.json" = content s "a.json" +:+ FOOTER.
Proof.
  intros s s'.
  pose proof (BeginSession_failure_ends_prior "second" "b.json" s
                {| session_Name := "first" |} "a.json"
                eq_refl eq_refl eq_refl eq_refl) as H.
  do 4 (split; [reflexivity|]).
  split; [apply H|]. apply (proj1 (proj2 (proj2 H))).
Defined.
(** ** The scoped timer *)

Lemma received_WriteProfile_locked (json : string) (s : State) :
  received (exec (WriteProfile_locked json) s) = received s.
Proof.
  destruct s as [cur [p b f] fs co tr rc].
  destruct cur as [cur|]; [|reflexivity].
  destruct f; [reflexivity|]. destruct p as [p|]; [|reflexivity].
  cbv [exec WriteProfile_locked mbind M_bind gets modify stream_put stream_flush
       sync_buffer set_stream set_files add_event content received
       m_CurrentSession m_OutputStream os_fail os_path os_buffer snd fst files trace
       can_open].
  destruct (b +:+ json); reflexivity.
Qed.

Lemma received_WriteProfile (r : ProfileResult) (s : State) :
  received (exec (WriteProfile r) s) = received s ++ [r].
Proof.
  unfold WriteProfile. rewrite exec_bind.
  change (snd (modify (add_received r) s)) with (add_received r s).
  cbv zeta. rewrite received_WriteProfile_locked. reflexivity.
Qed.

(** The span record a call of [Stop()] hands to the sink. *)
Lemma received_Stop (now : Z) (tid : thread_id) (t : InstrumentationTimer) (s : State) :
  received (exec (Stop now tid t) s)
  = received s
    ++ [{| Name := m_Name t;
           Start := FloatingPointMicroseconds (m_StartTimepoint t);
           ElapsedTime := (time_point_cast_microseconds now
                           - time_point_cast_microseconds (m_StartTimepoint t))%Z;
           ThreadID := tid |}].
Proof. unfold Stop. rewrite exec_bind. simpl. apply received_WriteProfile. Qed.

Lemma Stop_timer (now : Z) (tid : thread_id) (t : InstrumentationTimer) (s : State) :
  fst (Stop now tid t s)
  = {| m_Name := m_Name t; m_StartTimepoint := m_StartTimepoint t; m_Stopped := true |}.
Proof.
  unfold Stop, mbind, M_bind. destruct (WriteProfile _ s). reflexivity.
Qed.

Lemma Stop_each_cons (now : Z) (nows : list Z) (tid : thread_id)
    (t : InstrumentationTimer) (s : State) :
  Stop_each (now :: nows) tid t s
  = Stop_each nows tid
      {| m_Name := m_Name t; m_StartTimepoint := m_StartTimepoint t; m_Stopped := true |}
      (exec (Stop now tid t) s).
Proof.
  simpl. unfold mbind at 1, M_bind at 1. unfold exec.
  pose proof (Stop_timer now tid t s) as H.
  destruct (Stop now tid t s) as [t' s']. simpl in *. rewrite H. reflexivity.
Qed.

Lemma Stop_each_spec (nows : list Z) (tid : thread_id) (t : InstrumentationTimer) (s : State) :
  length (received (snd (Stop_each nows tid t s))) = length (received s) + length nows
  /\ m_Stopped (fst (Stop_each nows tid t s))
     = match nows with [] => m_Stopped t | _ => true end.
Proof.
  revert t s. induction nows as [|now nows IH]; intros t s.
  - simpl. split; [lia|reflexivity].
  - rewrite Stop_each_cons.
    destruct (IH {| m_Name := m_Name t; m_StartTimepoint := m_StartTimepoint t;
                    m_Stopped := true |} (exec (Stop now tid t) s)) as [IH1 IH2].
    rewrite IH1, IH2, received_Stop, length_app. simpl.
    split; [lia|]. destruct nows; reflexivity.
Qed.

(** C1, as the code has it: the destructor calls [Stop()] only on a timer
    that is not stopped, and [Stop()] hands a record to [WriteProfile] on
    every call, stopped or not.  A timer that is stopped explicitly [n]
    times and then destroyed reports [max 1 n] records: exactly one when
    [Stop()] is called at most once. *)
Theorem timer_life_reports (name : string) (start : Z) (stops : list Z) (finish : Z)
    (tid : thread_id) (s : State) :
  length (received (exec (timer_life name start stops finish tid) s))
  = length (received s) + Nat.max 1 (length stops)
  /\ exec (InstrumentationTimer_delete finish tid
             {| m_Name := name; m_StartTimepoint := start; m_Stopped := true |}) s = s
  /\ length (received (exec (InstrumentationTimer_delete finish tid
                               (InstrumentationTimer_new name start)) s))
     = length (received s) + 1
  /\ length (received (exec (Stop finish tid
                               {| m_Name := name; m_StartTimepoint := start;
                                  m_Stopped := true |}) s))
     = length (received s) + 1.
Proof.
  split; [|split; [reflexivity|split]].
  - unfold timer_life. rewrite exec_bind.
    destruct (Stop_each_spec stops tid (InstrumentationTimer_new name start) s) as [H1 H2].
    unfold InstrumentationTimer_delete. rewrite H2.
    destruct stops as [|now stops].
    + simpl. rewrite exec_bind. simpl.
      unfold exec at 1. simpl. fold (exec (Stop finish tid (InstrumentationTimer_new name start)) s).
      rewrite received_Stop, length_app. simpl. lia.
    + cbn [negb]. unfold exec at 1. cbn [mret M_ret snd]. rewrite H1. simpl. lia.
  - unfold InstrumentationTimer_delete. simpl. rewrite exec_bind.
    unfold exec at 1. simpl.
    fold (exec (Stop finish tid (InstrumentationTimer_new name start)) s).
    rewrite received_Stop, length_app. simpl. lia.
  - rewrite received_Stop, length_app. simpl. lia.
Qed.

(** C1 fails as stated: two explicit calls of [Stop()] and the destruction
    hand two records to [WriteProfile]; the second [Stop()] is not a no-op. *)
Lemma timer_life_two_stops :
  let s := Instrumentor_new ∅ (fun _ => true) in
  length (received (exec (timer_life "f" 1000%Z [2000; 3000]%Z 4000%Z (Thread_id 1)) s)) = 2
  /\ length (received (exec (timer_life "f" 1000%Z [2000; 3000]%Z 4000%Z (Thread_id 1)) s))
     <> length (received s) + 1.
Proof. split; [reflexivity|]. vm_compute. discriminate. Qed.

(** ** Finite doubles *)

Section FiniteDoubles.
Local Open Scope Z_scope.

Lemma digits2_pos_size (p : positive) : digits2_pos p = Pos.size p.
Proof. induction p as [p IH|p IH|]; simpl; rewrite ?IH; reflexivity. Qed.

Lemma Zdigits2_nonneg (m : Z) : 0 <= Zdigits2 m.
Proof. destruct m; simpl; lia. Qed.

(** A mantissa below [2^k] has at most [k] binary digits. *)
Lemma Zdigits2_le (m k : Z) : 0 <= k -> 0 <= m < 2 ^ k -> Zdigits2 m <= k.
Proof.
  intros Hk [H0 Hm]. destruct m as [|p|p]; [simpl; lia| |lia].
  simpl. rewrite digits2_pos_size.
  pose proof (Pos.size_le p) as Hs.
  assert (2 ^ Z.pos (Pos.size p) <= 2 * Z.pos p) as Hz.
  { change (2 * Z.pos p) with (Z.pos p~0). rewrite <- Pos2Z.inj_pow. exact Hs. }
  destruct (Z.le_gt_cases (Z.pos (Pos.size p)) k) as [|Hgt]; [assumption|].
  assert (2 ^ (k + 1) <= 2 ^ Z.pos (Pos.size p)) by (apply Z.pow_le_mono_r; lia).
  rewrite Z.pow_add_r in * by lia. lia.
Qed.

Lemma shr_1_bounds (mrs : shr_record) :
  0 <= shr_m mrs -> 0 <= shr_m (shr_1 mrs) <= shr_m mrs.
Proof.
  destruct mrs as [m r s]. simpl. destruct m as [|[p|p|]|p]; simpl; lia.
Qed.

Lemma iter_pos_shr_1_bounds (p : positive) (mrs : shr_record) :
  0 <= shr_m mrs -> 0 <= shr_m (SpecFloat.iter_pos shr_1 p mrs) <= shr_m mrs.
Proof.
  revert mrs. induction p as [p IH|p IH|]; intros mrs H; simpl.
  - pose proof (shr_1_bounds mrs H) as H1.
    pose proof (IH _ (proj1 H1)) as H2. pose proof (IH _ (proj1 H2)) as H3. lia.
  - pose proof (IH _ H) as H2. pose proof (IH _ (proj1 H2)) as H3. lia.
  - apply shr_1_bounds, H.
Qed.

Lemma shr_m_of_loc (m : Z) (l : location) : shr_m (shr_record_of_loc m l) = m.
Proof. destruct l as [|[]]; reflexivity. Qed.

Lemma fexp_53 (e : Z) : fexp 53 1024 e = Z.max (e - 53) (-1074).
Proof. reflexivity. Qed.

(** One application of [shr_fexp]: the mantissa does not grow, the exponent
    does not shrink and stays below the format's. *)
Lemma shr_fexp_bounds (m e : Z) (l : location) (k : Z) :
  0 <= k -> 0 <= m < 2 ^ k ->
  let '(mrs, e') := shr_fexp 53 1024 m e l in
  0 <= shr_m mrs <= m /\ e <= e' <= Z.max e (Z.max (k + e - 53) (-1074)).
Proof.
  intros Hk Hm. unfold shr_fexp, shr.
  pose proof (Zdigits2_le m k Hk Hm) as Hd. pose proof (Zdigits2_nonneg m) as Hd0.
  rewrite fexp_53.
  destruct (Z.max (Zdigits2 m + e - 53) (-1074) - e) as [|p|p] eqn:E.
  - rewrite shr_m_of_loc. lia.
  - pose proof (iter_pos_shr_1_bounds p (shr_record_of_loc m l)) as H.
    rewrite shr_m_of_loc in H. specialize (H (proj1 Hm)). lia.
  - rewrite shr_m_of_loc. lia.
Qed.

Lemma round_nearest_even_bounds (m : Z) (l : location) :
  m <= round_nearest_even m l <= m + 1.
Proof. destruct l as [|[]]; simpl; try lia. destruct (Z.even m); lia. Qed.

(** What [binary_round_aux] returns for a mantissa below [2^k]. *)
Lemma binary_round_aux_bounds (sx : bool) (mx ex : Z) (lx : location) (k : Z) :
  0 <= k -> 0 <= mx < 2 ^ k ->
  Z.max ex (Z.max (k + ex - 53) (-1074)) + Z.max 0 (k - 52) <= 971 ->
  match binary_round_aux 53 1024 sx mx ex lx with
  | S754_zero _ => True
  | S754_finite _ m e =>
      Z.pos m <= mx + 1
      /\ ex <= e <= Z.max ex (Z.max (k + ex - 53) (-1074)) + Z.max 0 (k - 52)
  | _ => False
  end.
Proof.
  intros Hk Hm Hb. unfold binary_round_aux.
  pose proof (shr_fexp_bounds mx ex lx k Hk Hm) as H1.
  destruct (shr_fexp 53 1024 mx ex lx) as [mrs' e'].
  destruct H1 as [Hm1 He1].
  pose proof (round_nearest_even_bounds (shr_m mrs') (loc_of_shr_record mrs')) as Hr.
  set (m1 := round_nearest_even (shr_m mrs') (loc_of_shr_record mrs')) in *.
  assert (0 <= m1 < 2 ^ (k + 1)) as Hm1'.
  { rewrite Z.pow_add_r by lia. lia. }
  pose proof (shr_fexp_bounds m1 e' loc_Exact (k + 1) ltac:(lia) Hm1') as H2.
  destruct (shr_fexp 53 1024 m1 e' loc_Exact) as [mrs'' e''].
  destruct H2 as [Hm2 He2].
  destruct (shr_m mrs'') as [|m|m] eqn:Em; [exact I| |lia].
  assert (e'' <= 971) as He by lia.
  apply Z.leb_le in He. change (1024 - 53) with 971. rewrite He. lia.
Qed.

Lemma pos_iter_xO (p d : positive) : Z.pos (Pos.iter xO p d) = Z.pos p * 2 ^ Z.pos d.
Proof.
  induction d as [|d IH] using Pos.peano_ind.
  - cbn [Pos.iter]. change (2 ^ 1) with 2. lia.
  - rewrite Pos.iter_succ, Pos2Z.inj_xO, IH, Pos2Z.inj_succ, Z.pow_succ_r by lia. lia.
Qed.

Lemma digits2_pos_le (p : positive) (k : Z) :
  0 <= k -> Z.pos p < 2 ^ k -> 1 <= Z.pos (digits2_pos p) <= k.
Proof.
  intros Hk Hp. pose proof (Zdigits2_le (Z.pos p) k Hk ltac:(lia)) as H. simpl in H. lia.
Qed.

(** The conversion of a 64 bit integer is zero or a finite number. *)
Lemma double_of_int64_bounds (z : Z) :
  in_int64 z ->
  match double_of_int64 z with
  | S754_zero _ => True
  | S754_finite _ m e => Z.pos m < 2 ^ 117 /\ -52 <= e <= 127
  | _ => False
  end.
Proof.
  unfold in_int64, int64_min, int64_max, double_of_int64, binary_normalize.
  intros Hz.
  assert (forall s p, Z.pos p < 2 ^ 64 ->
            match binary_round 53 1024 s p 0 with
            | S754_zero _ => True
            | S754_finite _ m e => Z.pos m < 2 ^ 117 /\ -52 <= e <= 127
            | _ => False
            end) as H.
  { intros s p Hp. unfold binary_round, shl_align. rewrite fexp_53.
    pose proof (digits2_pos_le p 64 ltac:(lia) Hp) as Hd.
    assert (match binary_round_aux 53 1024 s (Z.pos p) 0 loc_Exact with
            | S754_zero _ => True
            | S754_finite _ m e => Z.pos m < 2 ^ 117 /\ -52 <= e <= 127
            | _ => False
            end) as Hsame.
    { pose proof (binary_round_aux_bounds s (Z.pos p) 0 loc_Exact 116 ltac:(lia)) as B.
      assert (2 ^ 64 <= 2 ^ 116) by (apply Z.pow_le_mono_r; lia).
      specialize (B ltac:(lia) ltac:(lia)).
      destruct (binary_round_aux 53 1024 s (Z.pos p) 0 loc_Exact); try exact B.
      assert (2 ^ 116 < 2 ^ 117) by (apply Z.pow_lt_mono_r; lia). lia. }
    destruct (Z.max (Z.pos (digits2_pos p) + 0 - 53) (-1074) - 0) as [|d|d] eqn:E.
    - exact Hsame.
    - exact Hsame.
    - pose proof (binary_round_aux_bounds s (Z.pos (Pos.iter xO p d))
                    (Z.max (Z.pos (digits2_pos p) + 0 - 53) (-1074)) loc_Exact 116
                    ltac:(lia)) as B.
      assert (Z.pos d <= 52) as Hd52 by lia.
      assert (Z.pos (Pos.iter xO p d) < 2 ^ 116) as Hm.
      { rewrite pos_iter_xO.
        assert (2 ^ Z.pos d <= 2 ^ 52) by (apply Z.pow_le_mono_r; lia).
        assert (0 < 2 ^ Z.pos d) by (apply Z.pow_pos_nonneg; lia).
        change (2 ^ 116) with (2 ^ 64 * 2 ^ 52). nia. }
      specialize (B ltac:(lia) ltac:(lia)).
      destruct (binary_round_aux 53 1024 s (Z.pos (Pos.iter xO p d)) _ loc_Exact);
        try exact B.
      assert (2 ^ 116 < 2 ^ 117) by (apply Z.pow_lt_mono_r; lia). lia. }
  destruct z as [|p|p]; [exact I|apply H|apply H]; lia.
Qed.

(** The start of a timer in microseconds is a finite [double]. *)
Lemma FloatingPointMicroseconds_finite (ticks : Z) :
  in_int64 ticks -> is_finite (FloatingPointMicroseconds ticks) = true.
Proof.
  intros Hz. unfold FloatingPointMicroseconds.
  pose proof (double_of_int64_bounds ticks Hz) as Hx.
  change (double_of_int64 ticks_per_microsecond)
    with (S754_finite false 8796093022208000 (-43)).
  destruct (double_of_int64 ticks) as [sx|sx| |sx mx ex]; try contradiction; [reflexivity|].
  destruct Hx as [Hmx Hex].
  unfold double_div, SFdiv, SFdiv_core_binary.
  change (Zdigits2 (Z.pos 8796093022208000)) with 53.
  pose proof (digits2_pos_le mx 117 ltac:(lia) Hmx) as Hd.
  change (Zdigits2 (Z.pos mx)) with (Z.pos (digits2_pos mx)).
  rewrite fexp_53.
  set (d1 := Z.pos (digits2_pos mx)) in *.
  set (e' := Z.min (Z.max (d1 + ex - (53 + -43) - 53) (-1074)) (ex - -43)).
  set (s := ex - -43 - e').
  assert (-200 <= e' <= 170) as He' by (subst e'; lia).
  assert (0 <= s <= 105) as Hs by (subst s e'; lia).
  set (m' := match s with
             | 0 => Z.pos mx
             | Z.pos _ => Z.shiftl (Z.pos mx) s
             | Z.neg _ => 0
             end).
  assert (0 <= m' < 2 ^ 222) as Hm'.
  { subst m'. assert (2 ^ 117 <= 2 ^ 222) by (apply Z.pow_le_mono_r; lia).
    destruct s as [|p|p] eqn:Es; [lia| |lia].
    rewrite Z.shiftl_mul_pow2 by lia.
    assert (2 ^ Z.pos p <= 2 ^ 105) by (apply Z.pow_le_mono_r; lia).
    assert (0 < 2 ^ Z.pos p) by (apply Z.pow_pos_nonneg; lia).
    change (2 ^ 222) with (2 ^ 117 * 2 ^ 105). nia. }
  pose proof (Z_div_mod m' 8796093022208000 ltac:(lia)) as Hdiv.
  destruct (Z.div_eucl m' 8796093022208000) as [q r]. destruct Hdiv as [Hq Hr].
  assert (0 <= q < 2 ^ 222) as Hqb by nia.
  pose proof (binary_round_aux_bounds (xorb sx false) q e'
                (new_location 8796093022208000 r) 222 ltac:(lia) Hqb ltac:(lia)) as B.
  destruct (binary_round_aux 53 1024 (xorb sx false) q e' _); try contradiction; reflexivity.
Qed.

(** A start of 1500 ns is 1.5 microseconds, [3 * 2^51 * 2^-52], and is
    written as 1.500. *)
Example FloatingPointMicroseconds_1500 :
  FloatingPointMicroseconds 1500 = S754_finite false 6755399441055744 (-52)
  /\ format_fixed 3 (FloatingPointMicroseconds 1500) = "1.500"%string.
Proof. split; reflexivity. Qed.

End FiniteDoubles.

(** ** The times of a span record *)

Lemma rem_1000_nonpos (a : Z) : (a <= 0 -> -1000 < Z.rem a 1000 <= 0)%Z.
Proof.
  intros H. pose proof (Z.rem_bound_pos (- a) 1000 ltac:(lia) ltac:(lia)) as B.
  rewrite Z.rem_opp_l in B by lia. lia.
Qed.

(** Truncating both ends and truncating the difference differ by at most
    one microsecond. *)
Lemma elapsed_close (start now : Z) :
  ((now - start) ÷ 1000 - 1 <= now ÷ 1000 - start ÷ 1000 <= (now - start) ÷ 1000 + 1)%Z.
Proof.
  pose proof (Z.quot_rem' now 1000). pose proof (Z.quot_rem' start 1000).
  pose proof (Z.quot_rem' (now - start) 1000).
  assert (0 <= now \/ now <= 0)%Z as [Hn|Hn] by lia;
  assert (0 <= start \/ start <= 0)%Z as [Hs|Hs] by lia;
  assert (0 <= now - start \/ now - start <= 0)%Z as [Hd|Hd] by lia;
  repeat match goal with
    | H : (0 <= ?a)%Z |- _ => pose proof (Z.rem_bound_pos a 1000 H ltac:(lia)); revert H
    | H : (?a <= 0)%Z |- _ => pose proof (rem_1000_nonpos a H); revert H
    end; intros; lia.
Qed.

(** C7, as the code has it: the elapsed time of the record is the end time
    truncated to whole microseconds minus the start time truncated to whole
    microseconds; for a clock that has not gone backwards since a
    non-negative start it is the truncated difference or one more, and it is
    the truncated difference exactly when the sub-microsecond part of the
    end is not below that of the start.  The start timestamp is the tick
    count of the start as a [double], divided by the ticks of a
    microsecond, a finite number for every 64-bit tick count. *)
Theorem Stop_times (now : Z) (tid : thread_id) (t : InstrumentationTimer) (s : State) :
  exists r,
    received (exec (Stop now tid t) s) = received s ++ [r]
    /\ Name r = m_Name t /\ ThreadID r = tid
    /\ ElapsedTime r = (now ÷ 1000 - m_StartTimepoint t ÷ 1000)%Z
    /\ Start r = double_div (double_of_int64 (m_StartTimepoint t)) (double_of_int64 1000)
    /\ (in_int64 (m_StartTimepoint t) -> is_finite (Start r) = true)
    /\ ((0 <= m_StartTimepoint t <= now)%Z ->
        ((now - m_StartTimepoint t) ÷ 1000 <= ElapsedTime r
         <= (now - m_StartTimepoint t) ÷ 1000 + 1)%Z
        /\ (ElapsedTime r = (now - m_StartTimepoint t) ÷ 1000
            <-> m_StartTimepoint t mod 1000 <= now mod 1000)%Z
        /\ ((now <= int64_max)%Z -> in_int64 (ElapsedTime r))).
Proof.
  eexists. split; [apply received_Stop|].
  cbn [Name ThreadID ElapsedTime Start].
  unfold time_point_cast_microseconds, ticks_per_microsecond.
  do 4 (split; [reflexivity|]).
  split; [apply FloatingPointMicroseconds_finite|].
  set (a := m_StartTimepoint t) in *. intros Hle.
  rewrite !Z.quot_div_nonneg by lia.
  pose proof (Z.div_mod now 1000 ltac:(lia)).
  pose proof (Z.div_mod a 1000 ltac:(lia)).
  pose proof (Z.div_mod (now - a) 1000 ltac:(lia)).
  pose proof (Z.mod_pos_bound now 1000 ltac:(lia)).
  pose proof (Z.mod_pos_bound a 1000 ltac:(lia)).
  pose proof (Z.mod_pos_bound (now - a) 1000 ltac:(lia)).
  split; [lia|]. split; [lia|].
  intros Hmax. unfold in_int64, int64_min, int64_max in *. lia.
Qed.

Lemma Stop_times_witness :
  let t := InstrumentationTimer_new "Load" 1500 in
  in_int64 (m_StartTimepoint t)
  /\ (0 <= m_StartTimepoint t <= 11500)%Z /\ (11500 <= int64_max)%Z
  /\ exists r, received (exec (Stop 11500 (Thread_id 1) t) (Instrumentor_new ∅ (fun _ => true)))
               = [r]
               /\ ElapsedTime r = 10%Z
               /\ is_finite (Start r) = true
               /\ in_int64 (ElapsedTime r).
Proof.
  intros t.
  assert (in_int64 (m_StartTimepoint t)) as Hin
    by (unfold in_int64, int64_min, int64_max; simpl; lia).
  assert (0 <= m_StartTimepoint t <= 11500)%Z as Hle by (simpl; lia).
  assert (11500 <= int64_max)%Z as Hmax by (unfold int64_max; lia).
  split; [exact Hin|]. split; [exact Hle|]. split; [exact Hmax|].
  destruct (Stop_times 11500 (Thread_id 1) t (Instrumentor_new ∅ (fun _ => true)))
    as (r & Hr & _ & _ & He & _ & Hfin & Hb).
  exists r. split; [exact Hr|]. split; [rewrite He; reflexivity|].
  split; [exact (Hfin Hin)|]. destruct (Hb Hle) as (_ & _ & Hi). exact (Hi Hmax).
Defined.

(** C7 fails as stated: a timer started at 1999 ns and stopped at 2000 ns
    reports 1 microsecond, while the difference of 1 ns, truncated to whole
    microseconds, is 0. *)
Lemma Stop_elapsed_not_truncated_difference :
  let t := InstrumentationTimer_new "f" 1999 in
  let s := Instrumentor_new ∅ (fun _ => true) in
  map ElapsedTime (received (exec (Stop 2000 (Thread_id 1) t) s)) = [1%Z]
  /\ ((2000 - m_StartTimepoint t) ÷ 1000 = 0)%Z
  /\ ~ (forall r, In r (received (exec (Stop 2000 (Thread_id 1) t) s)) ->
                  ElapsedTime r = ((2000 - m_StartTimepoint t) ÷ 1000)%Z).
Proof.
  intros t s. split; [reflexivity|]. split; [reflexivity|].
  intros H. specialize (H _ (or_introl eq_refl)). vm_compute in H. discriminate.
Qed.

(** ** Decimal digits *)

Lemma is_digit_pretty_N_char (x : N) : is_digit (pretty_N_char x) = true.
Proof.
  unfold pretty_N_char.
  destruct x as [|[[[[]|[]|]|[[]|[]|]|]|[[[]|[]|]|[[]|[]|]|]|]]; reflexivity.
Qed.

Lemma pretty_N_char_nonzero (x : N) :
  (0 < x < 10)%N -> Ascii.eqb (pretty_N_char x) "0" = false.
Proof.
  intros H. unfold pretty_N_char.
  destruct x as [|[[[[]|[]|]|[[]|[]|]|]|[[[]|[]|]|[[]|[]|]|]|]]; try reflexivity; lia.
Qed.

Lemma all_digits_app (s t : string) :
  all_digits (s +:+ t) = all_digits s && all_digits t.
Proof.
  induction s as [|c s IH]; [reflexivity|].
  rewrite append_cons. simpl. rewrite IH, andb_assoc. reflexivity.
Qed.

Lemma digit_neq (c d : ascii) :
  is_digit c = true -> is_digit d = false -> Ascii.eqb c d = false.
Proof.
  intros Hc Hd. destruct (Ascii.eqb_spec c d) as [->|]; [congruence|reflexivity].
Qed.

Lemma pretty_N_go_digits (x : N) (s : string) :
  (0 < x)%N -> all_digits s = true ->
  exists c r, pretty_N_go x s = String c r
              /\ is_digit c = true /\ Ascii.eqb c "0" = false /\ all_digits r = true.
Proof.
  revert s. induction (N.lt_wf_0 x) as [x _ IH]; intros s Hx Hs.
  rewrite pretty_N_go_step by exact Hx.
  destruct (N.eq_dec (x / 10)%N 0%N) as [E|E].
  - rewrite E, pretty_N_go_0.
    assert (x < 10)%N as Hlt.
    { apply N.div_small_iff in E; [exact E|discriminate]. }
    exists (pretty_N_char (x mod 10)%N), s.
    rewrite N.mod_small by exact Hlt.
    split; [reflexivity|]. split; [apply is_digit_pretty_N_char|].
    split; [apply pretty_N_char_nonzero; lia|exact Hs].
  - apply IH.
    + apply N.div_lt; [exact Hx|reflexivity].
    + apply N.neq_0_lt_0, E.
    + simpl. rewrite is_digit_pretty_N_char, Hs. reflexivity.
Qed.

Lemma pretty_N_canonical (n : N) : canonical_digits (pretty n) = true.
Proof.
  unfold pretty, pretty_N. destruct (decide (n = 0%N)) as [->|Hn]; [reflexivity|].
  destruct (pretty_N_go_digits n EmptyString) as (c & r & E & Hc & H0 & Hr);
    [lia|reflexivity|].
  rewrite E. unfold canonical_digits. simpl. rewrite Hc, Hr, H0. reflexivity.
Qed.

(** The shape of a rendered natural number: a first digit and more digits. *)
Lemma pretty_N_shape (n : N) :
  exists c r, pretty n = String c r /\ is_digit c = true /\ all_digits r = true
              /\ (Ascii.eqb c "0" = false \/ r = EmptyString).
Proof.
  pose proof (pretty_N_canonical n) as H. unfold canonical_digits in H.
  destruct (pretty n) as [|c r]; [discriminate|].
  apply andb_prop in H as [Hd Hz]. simpl in Hd. apply andb_prop in Hd as [Hc Hr].
  exists c, r. split; [reflexivity|]. split; [exact Hc|]. split; [exact Hr|].
  apply orb_prop in Hz as [Hz|Hz].
  - left. destruct (Ascii.eqb c "0"); [discriminate|reflexivity].
  - right. destruct r; [reflexivity|discriminate].
Qed.

Lemma pretty_Z_sign (z : Z) :
  pretty z = sign_text (z <? 0)%Z +:+ pretty (Z.abs_N z).
Proof. destruct z; reflexivity. Qed.

Lemma strip_sign_digits (c : ascii) (r : string) :
  is_digit c = true -> strip_sign (String c r) = String c r.
Proof.
  intros H. unfold strip_sign. rewrite (digit_neq c "-" H eq_refl). reflexivity.
Qed.

Lemma strip_sign_text (s : bool) (c : ascii) (r : string) :
  is_digit c = true -> strip_sign (sign_text s +:+ String c r) = String c r.
Proof.
  intros H. destruct s; [reflexivity|]. apply strip_sign_digits, H.
Qed.

(** An integer is rendered as a sign and digits, without a decimal point. *)
Lemma pretty_Z_plain_integer (z : Z) : plain_integer (pretty z) = true.
Proof.
  rewrite pretty_Z_sign.
  destruct (pretty_N_shape (Z.abs_N z)) as (c & r & E & Hc & Hr & _).
  rewrite E. unfold plain_integer. rewrite strip_sign_text by exact Hc.
  simpl. rewrite Hc, Hr. reflexivity.
Qed.

Lemma after_point_digits (s t : string) :
  all_digits s = true -> after_point (s +:+ String "." t) = Some t.
Proof.
  induction s as [|c s IH]; intros H; [reflexivity|].
  simpl in H. apply andb_prop in H as [Hc Hs].
  rewrite append_cons. simpl. rewrite (digit_neq c "." Hc eq_refl), Hc. apply IH, Hs.
Qed.

Lemma after_point_none (s : string) :
  all_digits s = true -> after_point s = None.
Proof.
  induction s as [|c s IH]; intros H; [reflexivity|].
  simpl in H. apply andb_prop in H as [Hc Hs].
  simpl. rewrite (digit_neq c "." Hc eq_refl), Hc. apply IH, Hs.
Qed.

(** An integer is not in fixed notation with three decimals. *)
Lemma pretty_Z_not_fixed (z : Z) : fixed_notation 3 (pretty z) = false.
Proof.
  rewrite pretty_Z_sign.
  destruct (pretty_N_shape (Z.abs_N z)) as (c & r & E & Hc & Hr & _).
  rewrite E. unfold fixed_notation. rewrite strip_sign_text by exact Hc.
  rewrite after_point_none; [apply andb_false_r|]. simpl. rewrite Hc, Hr. reflexivity.
Qed.

Lemma fraction_digits_spec (prec : nat) (n : N) (acc : string) :
  exists ds, fraction_digits prec n acc = ds +:+ acc
             /\ all_digits ds = true /\ String.length ds = prec.
Proof.
  revert n acc. induction prec as [|p IH]; intros n acc.
  - exists EmptyString. repeat split.
  - simpl. destruct (IH (n / 10)%N (String (pretty_N_char (n mod 10)%N) acc))
      as (ds & E & Hd & Hl).
    exists (ds +:+ String (pretty_N_char (n mod 10)%N) EmptyString).
    rewrite E, append_assoc. split; [reflexivity|]. split.
    + rewrite all_digits_app, Hd. simpl. rewrite is_digit_pretty_N_char. reflexivity.
    + clear E. rewrite <- Hl. clear. induction ds as [|c ds IH]; [reflexivity|].
      rewrite append_cons. simpl. rewrite IH. reflexivity.
Qed.

(** A number in fixed notation: digits, the point and [prec] digits. *)
Lemma fixed_digits_shape (prec : nat) (n : N) :
  exists c r frac,
    fixed_digits (S prec) n = String c r +:+ String "." frac
    /\ is_digit c = true /\ all_digits r = true
    /\ (Ascii.eqb c "0" = false \/ r = EmptyString)
    /\ all_digits frac = true /\ String.length frac = S prec.
Proof.
  unfold fixed_digits.
  destruct (pretty_N_shape (n / 10 ^ N.of_nat (S prec))%N) as (c & r & E & Hc & Hr & Hz).
  destruct (fraction_digits_spec (S prec) n EmptyString) as (ds & Ef & Hd & Hl).
  exists c, r, ds. rewrite E, Ef, append_nil_r. repeat split; assumption.
Qed.

Lemma format_fixed_finite (prec : nat) (x : double) :
  is_finite x = true ->
  exists n, format_fixed prec x = sign_text (match x with
                                             | S754_zero s | S754_finite s _ _ => s
                                             | _ => false
                                             end) +:+ fixed_digits prec n.
Proof.
  destruct x as [s|s| |s m e]; try discriminate; intros _; eexists; reflexivity.
Qed.

(** A finite [double] under [std::fixed] with precision 3 has exactly three
    digits after the decimal point. *)
Lemma format_fixed_3 (x : double) :
  is_finite x = true -> fixed_notation 3 (format_fixed 3 x) = true.
Proof.
  intros H. destruct (format_fixed_finite 3 x H) as (n & E). rewrite E.
  destruct (fixed_digits_shape 2 n) as (c & r & frac & Ed & Hc & Hr & _ & Hf & Hl).
  rewrite Ed, append_cons. unfold fixed_notation.
  rewrite strip_sign_text by exact Hc. rewrite Hc.
  rewrite <- append_cons, after_point_digits by (simpl; rewrite Hc, Hr; reflexivity).
  rewrite Hf, Hl. reflexivity.
Qed.

(** ** Numbers of the recogniser *)

Lemma skip_digits_app (s : string) (d : ascii) (t : string) :
  all_digits s = true -> is_digit d = false ->
  skip_digits (s +:+ String d t) = String d t.
Proof.
  intros Hs Hd. induction s as [|c s IH].
  - simpl. rewrite Hd. reflexivity.
  - simpl in Hs. apply andb_prop in Hs as [Hc Hs].
    rewrite append_cons. simpl. rewrite Hc. apply IH, Hs.
Qed.

Lemma json_int_digits (c : ascii) (r : string) (d : ascii) (t : string) :
  is_digit c = true -> all_digits r = true ->
  Ascii.eqb c "0" = false \/ r = EmptyString ->
  is_digit d = false ->
  json_int (String c r +:+ String d t) = Some (String d t).
Proof.
  intros Hc Hr Hz Hd. rewrite append_cons. unfold json_int.
  destruct (Ascii.eqb c "0") eqn:E0.
  - destruct Hz as [Hz| ->]; [discriminate|reflexivity].
  - rewrite Hc, skip_digits_app by assumption. reflexivity.
Qed.

Lemma json_frac_exp_end (d : ascii) (t : string) :
  ends_number d ->
  is_digit d = false
  /\ json_frac (String d t) = Some (String d t)
  /\ json_exp (String d t) = Some (String d t).
Proof. intros [-> | ->]; repeat split. Qed.

Lemma json_number_integer (z : Z) (d : ascii) (t : string) :
  ends_number d -> json_number (pretty z +:+ String d t) = Some (String d t).
Proof.
  intros Hd. destruct (json_frac_exp_end d t Hd) as (Hnd & Hf & He).
  rewrite pretty_Z_sign.
  destruct (pretty_N_shape (Z.abs_N z)) as (c & r & E & Hc & Hr & Hz).
  rewrite E, append_assoc, append_cons. unfold json_number.
  rewrite strip_sign_text by exact Hc.
  rewrite <- append_cons, json_int_digits by assumption.
  cbn [mbind option_bind]. rewrite Hf. cbn [mbind option_bind]. exact He.
Qed.

Lemma json_number_natural (n : N) (d : ascii) (t : string) :
  ends_number d -> json_number (pretty n +:+ String d t) = Some (String d t).
Proof.
  intros Hd. destruct (json_frac_exp_end d t Hd) as (Hnd & Hf & He).
  destruct (pretty_N_shape n) as (c & r & E & Hc & Hr & Hz).
  rewrite E, append_cons. unfold json_number.
  rewrite strip_sign_digits by exact Hc.
  rewrite <- append_cons, json_int_digits by assumption.
  cbn [mbind option_bind]. rewrite Hf. cbn [mbind option_bind]. exact He.
Qed.

Lemma json_number_fixed (x : double) (d : ascii) (t : string) :
  is_finite x = true -> ends_number d ->
  json_number (format_fixed 3 x +:+ String d t) = Some (String d t).
Proof.
  intros Hx Hd. destruct (json_frac_exp_end d t Hd) as (Hnd & Hf & He).
  destruct (format_fixed_finite 3 x Hx) as (n & E). rewrite E.
  destruct (fixed_digits_shape 2 n) as (c & r & frac & Ed & Hc & Hr & Hz & Hfr & Hl).
  rewrite Ed. destruct frac as [|f1 fr]; [discriminate|].
  simpl in Hfr. apply andb_prop in Hfr as [Hf1 Hfr].
  rewrite !append_assoc, !append_cons. unfold json_number.
  rewrite strip_sign_text by exact Hc.
  rewrite <- (append_cons c r), json_int_digits by (assumption || reflexivity).
  cbn [mbind option_bind json_frac]. change (Ascii.eqb "." ".") with true.
  cbn [json_digits]. rewrite Hf1, skip_digits_app by assumption.
  cbn [mbind option_bind]. exact He.
Qed.

(** ** Strings of the recogniser *)

Lemma json_string_rest_plain (s rest : string) :
  plain_text s = true -> json_string_rest (s +:+ String dquote rest) = Some rest.
Proof.
  induction s as [|c s IH]; intros H; [reflexivity|].
  simpl in H. apply andb_prop in H as [H Hs]. apply andb_prop in H as [H Hb].
  apply andb_prop in H as [Hc Hq]. apply negb_true_iff in Hc, Hq, Hb.
  rewrite append_cons. cbn [json_string_rest]. rewrite Hq, Hb, Hc. apply IH, Hs.
Qed.

Lemma replace_plain (name : string) :
  json_safe_name name = true -> plain_text (replace dquote "'" name) = true.
Proof.
  induction name as [|c name IH]; intros H; [reflexivity|].
  simpl in H. apply andb_prop in H as [H Hs]. apply andb_prop in H as [Hc Hb].
  cbn [replace plain_text]. rewrite (IH Hs), andb_true_r.
  destruct (Ascii.eqb c dquote) eqn:E; [reflexivity|].
  rewrite Hc, Hb, E. reflexivity.
Qed.

(** [std::replace] leaves no double quote, keeps the length and changes no
    other character. *)
Lemma replace_spec (name : string) :
  String.length (replace dquote "'" name) = String.length name
  /\ (forall i, String.get i (replace dquote "'" name)
                = option_map (fun c => if Ascii.eqb c dquote then "'"%char else c)
                    (String.get i name))
  /\ (forall i, String.get i (replace dquote "'" name) <> Some dquote).
Proof.
  induction name as [|c name (IHl & IHg & IHn)]; [repeat split; intros []; discriminate|].
  cbn [replace String.length]. split; [rewrite IHl; reflexivity|]. split.
  - intros [|i]; [reflexivity|]. apply IHg.
  - intros [|i]; [|apply IHn]. cbn [String.get].
    destruct (Ascii.eqb c dquote) eqn:E; [discriminate|].
    apply Ascii.eqb_neq in E. congruence.
Qed.

(** ** Values of the recogniser *)

Lemma json_value_S (n : nat) (c : ascii) (r : string) :
  json_value (S n) (String c r)
  = if Ascii.eqb c "{" then after_open "}" (json_members n) (skip_ws r)
    else if Ascii.eqb c "[" then after_open "]" (json_elements n) (skip_ws r)
    else json_scalar (String c r).
Proof. reflexivity. Qed.

Lemma json_elements_S (n : nat) (s : string) :
  json_elements (S n) s
  = match json_value n s with
    | Some r => after_item "," "]" (json_elements n) r
    | None => None
    end.
Proof. reflexivity. Qed.

Lemma json_members_S (n : nat) (s : string) :
  json_members (S n) s
  = match json_key s with
    | Some v =>
        match json_value n v with
        | Some r => after_item "," "}" (json_members n) r
        | None => None
        end
    | None => None
    end.
Proof. reflexivity. Qed.

#[local] Arguments json_value : simpl never.
#[local] Arguments json_members : simpl never.
#[local] Arguments json_elements : simpl never.
#[local] Arguments json_number : simpl never.

Lemma json_value_number (n : nat) (c : ascii) (r : string) :
  starts_number c -> json_value (S n) (String c r) = json_number (String c r).
Proof.
  intros [H| ->]; [|reflexivity]. rewrite json_value_S. unfold json_scalar.
  rewrite (digit_neq c "{" H eq_refl), (digit_neq c "[" H eq_refl),
    (digit_neq c dquote H eq_refl), (digit_neq c "t" H eq_refl),
    (digit_neq c "f" H eq_refl), (digit_neq c "n" H eq_refl). reflexivity.
Qed.

Lemma number_text_head (b : bool) (c : ascii) (r t : string) :
  is_digit c = true ->
  exists c0 r0, (sign_text b +:+ String c r) +:+ t = String c0 r0 /\ starts_number c0.
Proof.
  intros H. destruct b.
  - exists "-"%char, (String c r +:+ t). split; [reflexivity|right; reflexivity].
  - exists c, (r +:+ t). split; [reflexivity|left; exact H].
Qed.

Lemma skip_ws_number (c : ascii) (r : string) :
  starts_number c -> skip_ws (String c r) = String c r.
Proof.
  intros [H| ->]; [|reflexivity]. cbn [skip_ws]. unfold is_ws.
  rewrite (digit_neq c " " H eq_refl), (digit_neq c "009" H eq_refl),
    (digit_neq c "010" H eq_refl), (digit_neq c "013" H eq_refl). reflexivity.
Qed.

Lemma json_value_number_text (n : nat) (s : string) :
  (exists c r, s = String c r /\ starts_number c) ->
  json_value (S n) (skip_ws s) = json_number s.
Proof.
  intros (c & r & -> & H). rewrite skip_ws_number by exact H.
  apply json_value_number, H.
Qed.

(** A rendered number as a value of the recogniser, up to the character
    that ends it. *)
Lemma json_value_integer (n : nat) (z : Z) (d : ascii) (t : string) :
  ends_number d ->
  json_value (S n) (skip_ws (pretty z +:+ String d t)) = Some (String d t).
Proof.
  intros Hd. rewrite <- (json_number_integer z d t Hd).
  apply json_value_number_text. rewrite pretty_Z_sign.
  destruct (pretty_N_shape (Z.abs_N z)) as (c & r & E & Hc & _).
  rewrite E. apply number_text_head, Hc.
Qed.

Lemma json_value_natural (n : nat) (x : N) (d : ascii) (t : string) :
  ends_number d ->
  json_value (S n) (skip_ws (pretty x +:+ String d t)) = Some (String d t).
Proof.
  intros Hd. rewrite <- (json_number_natural x d t Hd).
  apply json_value_number_text.
  destruct (pretty_N_shape x) as (c & r & E & Hc & _).
  rewrite E. apply (number_text_head false), Hc.
Qed.

Lemma json_value_fixed (n : nat) (x : double) (d : ascii) (t : string) :
  is_finite x = true -> ends_number d ->
  json_value (S n) (skip_ws (format_fixed 3 x +:+ String d t)) = Some (String d t).
Proof.
  intros Hx Hd. rewrite <- (json_number_fixed x d t Hx Hd).
  apply json_value_number_text.
  destruct (format_fixed_finite 3 x Hx) as (m & E). rewrite E.
  destruct (fixed_digits_shape 2 m) as (c & r & frac & Ed & Hc & _).
  rewrite Ed, (append_cons c r). apply number_text_head, Hc.
Qed.

Lemma after_item_comma (close : ascii) (more : string -> option string) (r : string) :
  after_item "," close more (String "," r) = more (skip_ws r).
Proof. reflexivity. Qed.

Ltac parse_step :=
  first [rewrite after_item_comma | rewrite json_members_S | rewrite json_value_S]; simpl.

Lemma span_object_valid (n : nat) (r : ProfileResult) (rest : string) :
  serialisable_span r = true ->
  json_value (9 + n) (span_object (dur_field r) (name_field r) (tid_field r) (ts_field r)
                      +:+ rest) = Some rest.
Proof.
  intros H. apply andb_prop in H as [H Hexec]. apply andb_prop in H as [Hname Hfin].
  unfold span_object, DQ. rewrite !append_assoc, !append_cons, !append_nil_l.
  cbn [Nat.add]. repeat parse_step.
  unfold dur_field. rewrite json_value_integer by (left; reflexivity).
  repeat parse_step.
  unfold name_field. rewrite json_string_rest_plain by (apply replace_plain, Hname).
  repeat parse_step.
  unfold tid_field, thread_id_text. destruct (ThreadID r) as [h].
  cbn [of_executing_thread] in Hexec. destruct (h =? 0)%N; [discriminate Hexec|].
  rewrite json_value_natural by (left; reflexivity).
  repeat parse_step.
  unfold ts_field. rewrite json_value_fixed by (exact Hfin || (right; reflexivity)).
  reflexivity.
Qed.

(** ** The journal as a JSON text *)

Lemma records_text_app (rs1 rs2 : list ProfileResult) :
  records_text (rs1 ++ rs2) = records_text rs1 +:+ records_text rs2.
Proof.
  induction rs1 as [|r rs1 IH]; [reflexivity|].
  simpl. rewrite IH, append_assoc. reflexivity.
Qed.

Lemma span_object_value (m : nat) (r : ProfileResult) (rest : string) :
  9 <= m -> serialisable_span r = true ->
  json_value m (span_object (dur_field r) (name_field r) (tid_field r) (ts_field r)
                +:+ rest) = Some rest.
Proof.
  intros Hm H. replace m with (9 + (m - 9)) by lia. apply span_object_valid, H.
Qed.

(** The span records of a journal as the further elements of its array. *)
Lemma records_elements (rs : list ProfileResult) (m : nat) (rest : string) :
  length rs + 10 <= m ->
  forallb serialisable_span rs = true ->
  after_item "," "]" (json_elements m) (records_text rs +:+ String "]" rest) = Some rest.
Proof.
  revert m. induction rs as [|r rs IH]; intros m Hm H; [reflexivity|].
  simpl in H. apply andb_prop in H as [Hr Hrs].
  cbn [records_text]. rewrite WriteProfile_json_layout, append_assoc, append_cons.
  rewrite after_item_comma.
  destruct m as [|m]; [simpl in Hm; lia|]. simpl in Hm.
  rewrite json_elements_S.
  replace (skip_ws (span_object (dur_field r) (name_field r) (tid_field r) (ts_field r)
                    +:+ (records_text rs +:+ String "]" rest)))
    with (span_object (dur_field r) (name_field r) (tid_field r) (ts_field r)
          +:+ (records_text rs +:+ String "]" rest)) by reflexivity.
  rewrite span_object_value by (lia || exact Hr). apply IH; [lia|exact Hrs].
Qed.

Lemma journal_accepted (rs : list ProfileResult) :
  forallb serialisable_span rs = true ->
  json_accepts (length rs + 15) (HEADER +:+ records_text rs +:+ FOOTER) = true.
Proof.
  intros H. unfold json_accepts, HEADER, FOOTER, DQ.
  rewrite !append_assoc, !append_cons, !append_nil_l.
  replace (length rs + 15) with (S (S (S (S (S (S (length rs + 9))))))) by lia.
  simpl skip_ws. repeat parse_step.
  rewrite json_elements_S. repeat parse_step.
  rewrite records_elements by (simpl; lia || exact H). reflexivity.
Qed.

Lemma span_object_accepted (r : ProfileResult) :
  serialisable_span r = true ->
  json_accepts 9
    (span_object (dur_field r) (name_field r) (tid_field r) (ts_field r)) = true.
Proof.
  intros H. unfold json_accepts.
  replace (skip_ws (span_object (dur_field r) (name_field r) (tid_field r) (ts_field r)))
    with (span_object (dur_field r) (name_field r) (tid_field r) (ts_field r)
          +:+ EmptyString) by (rewrite append_nil_r; reflexivity).
  rewrite (span_object_value 9 r EmptyString (le_n 9) H). reflexivity.
Qed.

(** ** The journal of a sequence of calls *)

Lemma can_open_run_call (c : call) (s : State) :
  consistent s = true -> can_open (exec (run_call c) s) = can_open s.
Proof.
  intros Hc.
  destruct (consistent_cases s Hc) as [(f & fs & co & tr & rc & ->)
                                      |(cur & p & fs & co & tr & rc & ->)];
    destruct c as [name filepath| |r]; cbn [run_call].
  - destruct (co filepath) eqn:E.
    + rewrite BeginSession_closed_ok by exact E. reflexivity.
    + rewrite BeginSession_closed_fail by exact E. reflexivity.
  - unfold EndSession. rewrite InternalEndSession_closed; reflexivity.
  - rewrite WriteProfile_closed; reflexivity.
  - rewrite BeginSession_open_state. destruct (co filepath) eqn:E.
    + rewrite BeginSession_closed_ok by exact E. reflexivity.
    + rewrite BeginSession_closed_fail by exact E. reflexivity.
  - unfold EndSession. rewrite InternalEndSession_open. reflexivity.
  - rewrite WriteProfile_open. reflexivity.
Qed.

Lemma holds_journal_consistent (s : State) cur : holds_journal s cur -> consistent s = true.
Proof.
  destruct cur as [[p rs]|]; simpl.
  - intros (sess & fs & tr & rc & -> & _). reflexivity.
  - intros (f & fs & tr & rc & ->). reflexivity.
Qed.

Lemma begin_closed_journal name filepath f fs co tr rc :
  holds_journal (exec (BeginSession name filepath) (closed_state f fs co tr rc))
    (if co filepath then Some (filepath, []) else None).
Proof.
  destruct (co filepath) eqn:E.
  - rewrite BeginSession_closed_ok by exact E. simpl.
    eexists _, _, _, _. split; [reflexivity|].
    rewrite lookup_insert_eq, append_nil_r. reflexivity.
  - rewrite BeginSession_closed_fail by exact E. simpl.
    eexists _, _, _, _. reflexivity.
Qed.

Lemma run_call_journal (c : call) (s : State) cur :
  holds_journal s cur ->
  holds_journal (exec (run_call c) s) (session_log (can_open s) [c] cur).
Proof.
  destruct cur as [[p rs]|]; simpl.
  - intros (sess & fs & tr & rc & E & Hp). rewrite E. generalize (can_open s). clear E.
    intros co. destruct c as [name filepath| |r]; cbn [run_call session_log can_open open_state].
    + rewrite BeginSession_open_state. apply begin_closed_journal.
    + unfold EndSession. rewrite InternalEndSession_open. simpl.
      eexists _, _, _, _. reflexivity.
    + rewrite WriteProfile_open. simpl. eexists _, _, _, _. split; [reflexivity|].
      rewrite lookup_insert_eq, Hp. simpl.
      rewrite records_text_app, append_assoc. simpl. rewrite append_nil_r. reflexivity.
  - intros (f & fs & tr & rc & E). rewrite E. generalize (can_open s). clear E.
    intros co. destruct c as [name filepath| |r]; cbn [run_call session_log can_open closed_state].
    + apply begin_closed_journal.
    + unfold EndSession. rewrite InternalEndSession_closed by reflexivity. simpl.
      eexists _, _, _, _. reflexivity.
    + rewrite WriteProfile_closed by reflexivity. simpl. eexists _, _, _, _. reflexivity.
Qed.

Lemma run_journal (cs : list call) (s : State) cur :
  holds_journal s cur ->
  holds_journal (exec (run cs) s) (session_log (can_open s) cs cur)
  /\ can_open (exec (run cs) s) = can_open s.
Proof.
  revert s cur. induction cs as [|c cs IH]; intros s cur H; [split; [exact H|reflexivity]|].
  rewrite run_cons.
  pose proof (run_call_journal c s cur H) as H1.
  pose proof (can_open_run_call c s (holds_journal_consistent s cur H)) as Hco.
  destruct (IH _ _ H1) as [IH1 IH2]. rewrite Hco in IH1.
  split; [|congruence].
  destruct c; exact IH1.
Qed.

(** C8, as the code has it: after any sequence of calls on a fresh sink that
    leaves a journal open, [EndSession] leaves its file as one prologue, the
    span records reported since it was opened, and one epilogue; the file
    is a JSON text when every one of these records has a name without
    control characters and backslashes, a finite start and the id of a
    thread of execution. *)
Theorem journal_after_EndSession (fs : gmap string string) (openable : string -> bool)
    (cs : list call) (p : string) (rs : list ProfileResult) :
  session_log openable cs None = Some (p, rs) ->
  let s := exec (run (cs ++ [CallEnd])) (Instrumentor_new fs openable) in
  content s p = HEADER +:+ records_text rs +:+ FOOTER
  /\ m_CurrentSession s = None
  /\ os_path (m_OutputStream s) = None
  /\ (forallb serialisable_span rs = true -> valid_json (content s p)).
Proof.
  intros Hlog s.
  assert (holds_journal (Instrumentor_new fs openable) None) as H0.
  { exists false, fs, [], []. reflexivity. }
  destruct (run_journal cs _ None H0) as [H _].
  cbn [can_open Instrumentor_new] in H. rewrite Hlog in H.
  destruct H as (sess & fs' & tr & rc & E & Hp).
  assert (s = closed_state false (<[p := (HEADER +:+ records_text rs) +:+ FOOTER]> fs')
                (can_open (exec (run cs) (Instrumentor_new fs openable)))
                (tr ++ [Written p FOOTER; Closed p]) rc) as Es.
  { subst s. rewrite run_app, E, run_cons. cbn [run_call run].
    unfold EndSession. rewrite InternalEndSession_open, Hp. reflexivity. }
  assert (content s p = HEADER +:+ records_text rs +:+ FOOTER) as Ec.
  { rewrite Es. unfold content, closed_state; cbn [files].
    rewrite lookup_insert_eq, append_assoc. reflexivity. }
  split; [exact Ec|]. split; [rewrite Es; reflexivity|]. split; [rewrite Es; reflexivity|].
  intros Hwf. rewrite Ec. exists (length rs + 15). apply journal_accepted, Hwf.
Qed.

Lemma journal_after_EndSession_witness :
  let r := {| Name := "Load"; Start := FloatingPointMicroseconds 1500;
              ElapsedTime := 10000; ThreadID := Thread_id 42 |} in
  let cs := [CallBegin "App" "trace.json"; CallWrite r] in
  session_log (fun _ => true) cs None = Some ("trace.json", [r])
  /\ content (exec (run (cs ++ [CallEnd])) (Instrumentor_new ∅ (fun _ => true))) "trace.json"
     = HEADER +:+ records_text [r] +:+ FOOTER
  /\ valid_json
       (content (exec (run (cs ++ [CallEnd])) (Instrumentor_new ∅ (fun _ => true)))
          "trace.json").
Proof.
  intros r cs. split; [reflexivity|].
  pose proof (journal_after_EndSession ∅ (fun _ => true) cs "trace.json" [r] eq_refl) as H.
  cbv zeta in H. destruct H as (H1 & _ & _ & H2).
  split; [exact H1|]. apply H2. reflexivity.
Defined.

(** C8 fails as stated: a journal with one span record whose name is a
    backslash is not a JSON text after [EndSession]. *)
Lemma journal_with_backslash_not_json :
  let r := {| Name := String backslash EmptyString; Start := FloatingPointMicroseconds 1500;
              ElapsedTime := 10; ThreadID := Thread_id 1 |} in
  let cs := [CallBegin "App" "trace.json"; CallWrite r; CallEnd] in
  ~ valid_json (content (exec (run cs) (Instrumentor_new ∅ (fun _ => true))) "trace.json").
Proof.
  intros r cs [fuel H].
  do 14 (destruct fuel as [|fuel]; [vm_compute in H; discriminate H|]).
  vm_compute in H. discriminate H.
Qed.

(** ** The numeric fields of a written record *)

(** C2, as the code has it: a call of [WriteProfile] while a session is
    open appends the record to the file; its [ts] field is the start in
    fixed notation with exactly three digits after the decimal point when
    the start is finite, and its [dur] field is the elapsed count as a
    decimal integer, without a decimal point. *)
Theorem WriteProfile_number_fields (r : ProfileResult) (s : State)
    (sess : InstrumentationSession) (p : string) :
  consistent s = true ->
  m_CurrentSession s = Some sess ->
  os_path (m_OutputStream s) = Some p ->
  content (exec (WriteProfile r) s) p
  = content s p
    +:+ String "," (span_object (dur_field r) (name_field r) (tid_field r) (ts_field r))
  /\ ts_field r = format_fixed 3 (Start r)
  /\ (is_finite (Start r) = true -> fixed_notation 3 (ts_field r) = true)
  /\ dur_field r = pretty (ElapsedTime r)
  /\ plain_integer (dur_field r) = true
  /\ fixed_notation 3 (dur_field r) = false.
Proof.
  intros Hc Hs Hp.
  rewrite (consistent_open s sess p Hc Hs Hp).
  generalize (files s) (can_open s) (trace s) (received s). intros fs co tr rc.
  rewrite WriteProfile_open. split.
  { unfold content, open_state; cbn [files]. rewrite lookup_insert_eq.
    rewrite WriteProfile_json_layout. reflexivity. }
  split; [reflexivity|]. split; [apply format_fixed_3|].
  split; [reflexivity|]. split; [apply pretty_Z_plain_integer|apply pretty_Z_not_fixed].
Qed.

Lemma WriteProfile_number_fields_witness :
  let r := {| Name := "Load"; Start := FloatingPointMicroseconds 1500;
              ElapsedTime := 10000; ThreadID := Thread_id 42 |} in
  let s := exec (BeginSession "App" "trace.json") (Instrumentor_new ∅ (fun _ => true)) in
  consistent s = true
  /\ m_CurrentSession s = Some {| session_Name := "App" |}
  /\ os_path (m_OutputStream s) = Some "trace.json"
  /\ is_finite (Start r) = true
  /\ fixed_notation 3 (ts_field r) = true
  /\ plain_integer (dur_field r) = true.
Proof.
  intros r s.
  pose proof (WriteProfile_number_fields r s {| session_Name := "App" |} "trace.json"
                eq_refl eq_refl eq_refl) as (_ & _ & Hts & _ & Hdur & _).
  do 4 (split; [reflexivity|]). split; [exact (Hts eq_refl)|exact Hdur].
Defined.

(** C2 fails as stated: the [dur] field of a record of 10000 microseconds is
    the text 10000, which has no decimal point. *)
Lemma dur_field_not_fixed :
  let r := {| Name := "Load"; Start := FloatingPointMicroseconds 1500;
              ElapsedTime := 10000; ThreadID := Thread_id 42 |} in
  let s := exec (BeginSession "App" "trace.json") (Instrumentor_new ∅ (fun _ => true)) in
  content (exec (WriteProfile r) s) "trace.json"
  = HEADER +:+ String "," (span_object "10000" "Load" "42" "1.500")
  /\ dur_field r = "10000"
  /\ ~ (fixed_notation 3 (dur_field r) = true /\ fixed_notation 3 (ts_field r) = true).
Proof.
  intros r s. split; [reflexivity|]. split; [reflexivity|].
  intros [H _]. vm_compute in H. discriminate H.
Qed.

(** ** The name of a written record *)

(** C6, as the code has it: the record embeds the name with every double
    quote replaced by a single quote and every other character as it is;
    the object of the record is a JSON text when the name has no control
    character and no backslash, the start is finite and the thread id is
    the id of a thread of execution. *)
Theorem WriteProfile_name_escaping (r : ProfileResult) :
  WriteProfile_json r
  = String "," (span_object (dur_field r) (replace dquote "'" (Name r))
                  (tid_field r) (ts_field r))
  /\ String.length (replace dquote "'" (Name r)) = String.length (Name r)
  /\ (forall i, String.get i (replace dquote "'" (Name r))
                = option_map (fun c => if Ascii.eqb c dquote then "'"%char else c)
                    (String.get i (Name r)))
  /\ (forall i, String.get i (replace dquote "'" (Name r)) <> Some dquote)
  /\ (json_safe_name (Name r) = true -> is_finite (Start r) = true ->
      of_executing_thread (ThreadID r) = true ->
      valid_json (span_object (dur_field r) (replace dquote "'" (Name r))
                    (tid_field r) (ts_field r))).
Proof.
  split; [apply WriteProfile_json_layout|].
  destruct (replace_spec (Name r)) as (Hl & Hg & Hn).
  split; [exact Hl|]. split; [exact Hg|]. split; [exact Hn|].
  intros Hname Hfin Hexec. exists 9. apply span_object_accepted.
  unfold serialisable_span, well_formed_span. rewrite Hname, Hfin, Hexec. reflexivity.
Qed.

Lemma WriteProfile_name_escaping_witness :
  let r := {| Name := String "a" (String dquote (String "b" EmptyString));
              Start := FloatingPointMicroseconds 1500;
              ElapsedTime := 10; ThreadID := Thread_id 42 |} in
  json_safe_name (Name r) = true /\ is_finite (Start r) = true
  /\ of_executing_thread (ThreadID r) = true
  /\ replace dquote "'" (Name r) = "a'b"
  /\ valid_json (span_object (dur_field r) (replace dquote "'" (Name r))
                   (tid_field r) (ts_field r)).
Proof.
  intros r. do 4 (split; [reflexivity|]).
  apply (WriteProfile_name_escaping r); reflexivity.
Defined.

(** C6 fails as stated: a name without any problematic character does not
    make the record a JSON text.  A start that is not a number is written
    as [nan], and the id of no thread as a text without quotes. *)
Lemma plain_name_record_not_json :
  let r1 := {| Name := "Load"; Start := S754_nan;
               ElapsedTime := 10; ThreadID := Thread_id 42 |} in
  let r2 := {| Name := "Load"; Start := FloatingPointMicroseconds 1500;
               ElapsedTime := 10; ThreadID := Thread_id 0 |} in
  WriteProfile_json r1 = String "," (span_object "10" "Load" "42" "nan")
  /\ ~ valid_json (span_object "10" "Load" "42" "nan")
  /\ WriteProfile_json r2
     = String "," (span_object "10" "Load" "thread::id of a non-executing thread" "1.500")
  /\ ~ valid_json (span_object "10" "Load" "thread::id of a non-executing thread" "1.500").
Proof.
  intros r1 r2. split; [reflexivity|]. split; [|split; [reflexivity|]].
  - intros [fuel H].
    do 9 (destruct fuel as [|fuel]; [vm_compute in H; discriminate H|]).
    vm_compute in H. discriminate H.
  - intros [fuel H].
    do 9 (destruct fuel as [|fuel]; [vm_compute in H; discriminate H|]).
    vm_compute in H. discriminate H.
Qed.

(** ** Mutual exclusion *)

Section Mutex.
Import Concurrent.

Lemma start_owner_in_critical (s : State) (calls : list (list call)) :
  owner_in_critical (start s calls).
Proof.
  intros j t Hj Hc. unfold start in Hj; cbn [threads] in Hj.
  rewrite list_lookup_fmap in Hj.
  destruct (calls !! j); [|discriminate]. injection Hj as <-. discriminate.
Qed.

(** What the next instruction says about where the thread is. *)
Lemma next_instr_cases (t : thread) (ins : instr) :
  next_instr t = Some ins ->
  match ins with
  | Serialise => in_critical t = false /\ in_critical (advance t) = false
  | Lock => in_critical t = false /\ in_critical (advance t) = true
  | Critical _ => in_critical t = true /\ in_critical (advance t) = true
  | Unlock => in_critical t = true /\ in_critical (advance t) = false
  end.
Proof.
  destruct t as [[[c k]|] pend]; unfold next_instr, advance, in_critical; cbn [running pending].
  - destruct c; destruct k as [|[|[|[|k]]]]; cbn; intros H;
      try discriminate H; injection H as <-; split; reflexivity.
  - destruct pend as [|c rest]; [discriminate|].
    destruct c; cbn; intros H; injection H as <-; split; reflexivity.
Qed.

Lemma step_owner_in_critical (i : nat) (cfg cfg' : config) :
  step i cfg = Some cfg' -> owner_in_critical cfg -> owner_in_critical cfg'.
Proof.
  unfold step. intros Hstep Inv.
  destruct (threads cfg !! i) as [t|] eqn:Ht; [|discriminate]. cbn in Hstep.
  destruct (next_instr t) as [ins|] eqn:Hn; [|discriminate]. cbn in Hstep.
  destruct (effect i ins (mutex cfg) (shared cfg)) as [[m s]|] eqn:He; [|discriminate].
  cbn in Hstep. injection Hstep as <-.
  pose proof (next_instr_cases t ins Hn) as Hcase.
  pose proof (lookup_lt_Some _ _ _ Ht) as Hlen.
  intros j tj Hj Hcrit. cbn [threads mutex] in *.
  destruct (decide (j = i)) as [->|Hne].
  - rewrite list_lookup_insert_eq in Hj by exact Hlen. injection Hj as <-.
    destruct ins; cbn in He.
    + destruct Hcase as [_ Hc]. congruence.
    + destruct (mutex cfg); [discriminate|]. injection He as <- _. reflexivity.
    + injection He as <- _. destruct Hcase as [Hc _]. apply (Inv i t Ht Hc).
    + destruct Hcase as [_ Hc]. congruence.
  - rewrite list_lookup_insert_ne in Hj by congruence.
    pose proof (Inv j tj Hj Hcrit) as Hm.
    destruct ins; cbn in He.
    + injection He as <- _. exact Hm.
    + rewrite Hm in He. discriminate.
    + injection He as <- _. exact Hm.
    + destruct Hcase as [Hc _]. pose proof (Inv i t Ht Hc). congruence.
Qed.

Lemma schedule_owner_in_critical (sched : list nat) (cfg cfg' : config) :
  schedule sched cfg = Some cfg' -> owner_in_critical cfg -> owner_in_critical cfg'.
Proof.
  revert cfg. induction sched as [|i sched IH]; intros cfg H Inv.
  - injection H as <-. exact Inv.
  - cbn in H. destruct (step i cfg) as [cfg1|] eqn:E; [|discriminate].
    cbn in H. apply (IH cfg1 H). apply (step_owner_in_critical i cfg cfg1 E Inv).
Qed.

(** C9, as the code has it: in every state the threads can reach, at most
    one thread is between taking and releasing [m_Mutex], the thread about
    to execute the statements under the guard (the only steps that read or
    write the session pointer and the stream) owns the mutex, and the
    serialisation that opens [WriteProfile] is a step a thread takes
    whoever owns the mutex. *)
Theorem critical_sections_exclusive (s : State) (calls : list (list call)) (cfg : config) :
  reachable s calls cfg ->
  (forall i j ti tj,
      threads cfg !! i = Some ti -> threads cfg !! j = Some tj ->
      in_critical ti = true -> in_critical tj = true -> i = j)
  /\ (forall i t body,
        threads cfg !! i = Some t -> next_instr t = Some (Critical body) ->
        mutex cfg = Some i)
  /\ (forall i t,
        threads cfg !! i = Some t -> next_instr t = Some Serialise ->
        step i cfg = Some {| mutex := mutex cfg; shared := shared cfg;
                             threads := <[i := advance t]> (threads cfg) |}).
Proof.
  intros [sched Hs].
  pose proof (schedule_owner_in_critical sched _ _ Hs (start_owner_in_critical s calls))
    as Inv.
  split; [|split].
  - intros i j ti tj Hi Hj Hci Hcj.
    pose proof (Inv i ti Hi Hci). pose proof (Inv j tj Hj Hcj). congruence.
  - intros i t body Hi Hn. apply (Inv i t Hi).
    apply (next_instr_cases t (Critical body) Hn).
  - intros i t Hi Hn. unfold step. rewrite Hi. cbn. rewrite Hn. reflexivity.
Qed.

Lemma critical_sections_exclusive_witness :
  let r := {| Name := "Load"; Start := FloatingPointMicroseconds 1500;
              ElapsedTime := 10; ThreadID := Thread_id 2 |} in
  let s := Instrumentor_new ∅ (fun _ => true) in
  let calls := [[CallBegin "App" "trace.json"; CallEnd]; [CallWrite r]] in
  exists cfg,
    schedule [0; 1; 0] (start s calls) = Some cfg
    /\ mutex cfg = Some 0
    /\ forall i t body,
         threads cfg !! i = Some t -> next_instr t = Some (Critical body) ->
         mutex cfg = Some i.
Proof.
  intros r s calls. eexists. split; [reflexivity|]. split; [reflexivity|].
  apply (critical_sections_exclusive s calls).
  exists [0; 1; 0]. reflexivity.
Defined.

(** C9 fails as stated: while one thread is inside [BeginSession] and owns
    the mutex, another thread is inside [WriteProfile], serialising its
    record; two of the operations are in progress at once. *)
Lemma two_operations_in_progress :
  let r := {| Name := "Load"; Start := FloatingPointMicroseconds 1500;
              ElapsedTime := 10; ThreadID := Thread_id 2 |} in
  let s := Instrumentor_new ∅ (fun _ => true) in
  let calls := [[CallBegin "App" "trace.json"]; [CallWrite r]] in
  ~ (forall cfg, reachable s calls cfg ->
       forall i j ti tj,
         threads cfg !! i = Some ti -> threads cfg !! j = Some tj ->
         executing ti = true -> executing tj = true -> i = j).
Proof.
  intros r s calls H.
  assert (exists cfg t0 t1,
            schedule [0; 1] (start s calls) = Some cfg
            /\ threads cfg !! 0 = Some t0 /\ threads cfg !! 1 = Some t1
            /\ executing t0 = true /\ executing t1 = true)
    as (cfg & t0 & t1 & Hs & H0 & H1 & He0 & He1).
  { eexists _, _, _. repeat split; reflexivity. }
  specialize (H cfg (ex_intro _ [0; 1] Hs) 0 1 t0 t1 H0 H1 He0 He1). discriminate H.
Qed.

End Mutex.

(** * Further properties of the sink *)

(** ** [EndSession] *)

(** [EndSession] always leaves the session pointer null, whatever the
    stream is doing, and a second [EndSession] changes nothing. *)
Theorem EndSession_idempotent (s : State) :
  m_CurrentSession (exec EndSession s) = None
  /\ exec EndSession (exec EndSession s) = exec EndSession s.
Proof.
  assert (m_CurrentSession (exec EndSession s) = None) as H.
  { destruct s as [[cur|] os fs co tr rc]; reflexivity. }
  split; [exact H|]. unfold EndSession in *. apply InternalEndSession_closed, H.
Qed.

(** ** The invariant of the sink *)

(** A call keeps the two shapes of a state in which every write so far has
    reached its file; the stream of this file has no failing write. *)
Lemma run_call_consistent (c : call) (s : State) :
  consistent s = true -> consistent (exec (run_call c) s) = true.
Proof.
  intros Hc.
  destruct (consistent_cases s Hc) as [(f & fs & co & tr & rc & ->)
                                      |(cur & p & fs & co & tr & rc & ->)];
    destruct c as [name filepath| |r]; cbn [run_call].
  - destruct (co filepath) eqn:E.
    + rewrite BeginSession_closed_ok by exact E. reflexivity.
    + rewrite BeginSession_closed_fail by exact E. reflexivity.
  - unfold EndSession. rewrite InternalEndSession_closed; reflexivity.
  - rewrite WriteProfile_closed; reflexivity.
  - rewrite BeginSession_open_state. destruct (co filepath) eqn:E.
    + rewrite BeginSession_closed_ok by exact E. reflexivity.
    + rewrite BeginSession_closed_fail by exact E. reflexivity.
  - unfold EndSession. rewrite InternalEndSession_open. reflexivity.
  - rewrite WriteProfile_open. reflexivity.
Qed.

(** ** The session pointer and the stream *)

Lemma exec_gets {A B} (f : State -> A) (k : A -> M B) (s : State) :
  exec (x ← gets f; k x) s = exec (k (f s)) s.
Proof. reflexivity. Qed.

Lemma exec_seq {A B} (m : M A) (k : M B) (s : State) :
  exec (m;; k) s = exec k (exec m s).
Proof. apply exec_bind. Qed.

Lemma stream_put_has (text : string) se pa co (s : State) :
  has se pa co s -> has se pa co (exec (stream_put text) s).
Proof.
  destruct s as [cur [q b f] fs c tr rc]. destruct f, q; exact id.
Qed.

Lemma stream_flush_has se pa co (s : State) :
  has se pa co s -> has se pa co (exec stream_flush s).
Proof.
  destruct s as [cur [q b f] fs c tr rc]. destruct f, q, b; exact id.
Qed.

Lemma stream_close_has se pa co (s : State) :
  has se pa co s -> has se None co (exec stream_close s).
Proof.
  destruct s as [cur [q b f] fs c tr rc]. intros (H1 & _ & H3).
  destruct q, b; repeat split; assumption.
Qed.

Lemma stream_open_has (filepath : string) se co (s : State) :
  has se None co s ->
  has se (if co filepath then Some filepath else None) co (exec (stream_open filepath) s).
Proof.
  destruct s as [cur [q b f] fs c tr rc]. intros (H1 & H2 & H3).
  cbn [m_CurrentSession m_OutputStream os_path can_open] in *. subst q c.
  unfold has, exec, stream_open, modify.
  cbn [snd m_OutputStream os_path can_open m_CurrentSession].
  destruct (co filepath); repeat split; assumption.
Qed.

Lemma set_session_has v se pa co (s : State) :
  has se pa co s -> has v pa co (exec (modify (set_session v)) s).
Proof. intros (_ & H2 & H3). repeat split; assumption. Qed.

Lemma add_event_has e se pa co (s : State) :
  has se pa co s -> has se pa co (exec (modify (add_event e)) s).
Proof. exact id. Qed.

Lemma add_received_has r se pa co (s : State) :
  has se pa co s -> has se pa co (exec (modify (add_received r)) s).
Proof. exact id. Qed.

Lemma InternalEndSession_has se pa co (s : State) :
  has se pa co s -> session_iff_open s = true ->
  has None None co (exec InternalEndSession s).
Proof.
  intros H Hi. unfold InternalEndSession. rewrite exec_gets.
  destruct H as (H1 & H2 & H3). unfold session_iff_open in Hi. rewrite H1, H2 in Hi.
  rewrite H1. destruct se as [cur|].
  - unfold WriteFooter. rewrite !exec_seq.
    apply set_session_has with (se := Some cur), stream_close_has with (pa := pa),
      stream_flush_has, stream_put_has.
    repeat split; assumption.
  - destruct pa; [discriminate|]. repeat split; assumption.
Qed.

Lemma BeginSession_has (name filepath : string) se pa co (s : State) :
  has se pa co s -> session_iff_open s = true ->
  has (if co filepath then Some {| session_Name := name |} else None)
      (if co filepath then Some filepath else None) co
      (exec (BeginSession name filepath) s).
Proof.
  intros H Hi. unfold BeginSession. rewrite exec_gets, exec_seq.
  set (s1 := exec (match m_CurrentSession s with
                   | Some session =>
                       LOGW ["Instrumentor::BeginSession('"; name; "') when session '";
                             session_Name session; "' already open."];;
                       InternalEndSession
                   | None => mret tt
                   end) s).
  assert (has None None co s1) as K1.
  { subst s1. pose proof H as (H1 & H2 & H3). rewrite H1. destruct se as [cur|].
    - rewrite exec_seq. apply InternalEndSession_has with (se := Some cur) (pa := pa).
      + apply add_event_has, H.
      + exact Hi.
    - unfold session_iff_open in Hi. rewrite H1, H2 in Hi.
      destruct pa; [discriminate|]. exact H. }
  rewrite exec_seq. unfold stream_is_open. rewrite exec_gets.
  pose proof (stream_open_has filepath None co s1 K1) as K2.
  set (s2 := exec (stream_open filepath) s1) in *.
  pose proof K2 as (_ & K2p & _). rewrite K2p.
  destruct (co filepath).
  - change (has (Some {| session_Name := name |}) (Some filepath) co
              (exec (modify (set_session (Some {| session_Name := name |}));; WriteHeader) s2)).
    unfold WriteHeader. rewrite !exec_seq.
    apply stream_flush_has, stream_put_has, set_session_has with (se := None), K2.
  - exact K2.
Qed.

Lemma WriteProfile_has (r : ProfileResult) se pa co (s : State) :
  has se pa co s -> has se pa co (exec (WriteProfile r) s).
Proof.
  intros H. unfold WriteProfile. rewrite exec_seq. unfold WriteProfile_locked.
  rewrite exec_gets. apply (add_received_has r) in H.
  destruct (m_CurrentSession _); [|exact H].
  rewrite exec_seq. apply stream_flush_has, stream_put_has, H.
Qed.

Lemma has_session_iff_open se pa co (s : State) :
  has se pa co s -> session_iff_open s = match se, pa with
                                         | Some _, Some _ | None, None => true
                                         | _, _ => false
                                         end.
Proof. intros (H1 & H2 & _). unfold session_iff_open. rewrite H1, H2. reflexivity. Qed.

Lemma run_call_session_iff_open (c : call) (s : State) :
  session_iff_open s = true ->
  session_iff_open (exec (run_call c) s) = true
  /\ can_open (exec (run_call c) s) = can_open s.
Proof.
  intros Hi.
  assert (has (m_CurrentSession s) (os_path (m_OutputStream s)) (can_open s) s) as H
    by (repeat split).
  destruct c as [name filepath| |r]; cbn [run_call].
  - pose proof (BeginSession_has name filepath _ _ _ s H Hi) as K.
    rewrite (has_session_iff_open _ _ _ _ K). split; [|apply K].
    destruct (can_open s filepath); reflexivity.
  - pose proof (InternalEndSession_has _ _ _ s H Hi) as K.
    unfold EndSession. rewrite (has_session_iff_open _ _ _ _ K). split; [reflexivity|apply K].
  - pose proof (WriteProfile_has r _ _ _ s H) as K.
    rewrite (has_session_iff_open _ _ _ _ K). split; [|apply K].
    rewrite <- (has_session_iff_open _ _ _ _ H). exact Hi.
Qed.

(** Whatever has happened to the writes, after any sequence of calls the
    session pointer is non-null exactly when the stream is open on a file:
    this holds from every state in which it holds, also with the stream in
    an error state or with text left in its buffer.  The answer to whether
    a path can be opened is not the sink's to change. *)
Theorem run_session_iff_open (cs : list call) (s : State) :
  session_iff_open s = true ->
  session_iff_open (exec (run cs) s) = true
  /\ can_open (exec (run cs) s) = can_open s.
Proof.
  revert s. induction cs as [|c cs IH]; intros s Hi; [split; [exact Hi|reflexivity]|].
  rewrite run_cons. destruct (run_call_session_iff_open c s Hi) as [H1 H2].
  destruct (IH _ H1) as [H3 H4]. split; [exact H3|congruence].
Qed.

Lemma run_session_iff_open_witness :
  let cs := [CallBegin "a" "a.json"; CallBegin "b" "/"; CallEnd; CallEnd] in
  let s := {| m_CurrentSession := Some {| session_Name := "s" |};
              m_OutputStream := {| os_path := Some "full"; os_buffer := "lost";
                                   os_fail := true |};
              files := ∅; can_open := fun p => negb (String.eqb p "/");
              trace := []; received := [] |} in
  session_iff_open s = true /\ session_iff_open (exec (run cs) s) = true.
Proof.
  intros cs s. split; [reflexivity|]. apply (run_session_iff_open cs s). reflexivity.
Defined.

(** ** A successful [BeginSession] *)

(** When the destination can be opened, [BeginSession] leaves a session of
    the given name open on it and the file holds the prologue and nothing
    else, whatever it held before; the last two events are the open and the
    write of the prologue, and no error is logged. *)
Theorem BeginSession_starts_journal (name filepath : string) (s : State) :
  consistent s = true ->
  can_open s filepath = true ->
  let s' := exec (BeginSession name filepath) s in
  m_CurrentSession s' = Some {| session_Name := name |}
  /\ os_path (m_OutputStream s') = Some filepath
  /\ content s' filepath = HEADER
  /\ (exists before,
        trace s' = trace s ++ before ++ [Opened filepath; Written filepath HEADER]
        /\ count_log Error before = 0)
  /\ count_log Error (trace s') = count_log Error (trace s).
Proof.
  intros Hc Hok.
  assert (exists fs' before,
            exec (BeginSession name filepath) s
            = open_state {| session_Name := name |} filepath (<[filepath := HEADER]> fs')
                (can_open s)
                (trace s ++ before ++ [Opened filepath; Written filepath HEADER])
                (received s)
            /\ count_log Error before = 0) as (fs' & before & E & Hb).
  { destruct (consistent_cases s Hc) as [(f & fs & co & tr & rc & ->)
                                        |(cur & p & fs & co & tr & rc & ->)];
      cbn [can_open open_state closed_state] in Hok.
    - rewrite BeginSession_closed_ok by exact Hok. exists fs, []. split; reflexivity.
    - rewrite BeginSession_open_state, BeginSession_closed_ok by exact Hok.
      eexists _, [Log Warning _; Written p FOOTER; Closed p].
      split; [|reflexivity]. cbn [trace can_open received open_state].
      rewrite <- !List.app_assoc. reflexivity. }
  intros s'. subst s'. rewrite E.
  split; [reflexivity|]. split; [reflexivity|]. split.
  { unfold content, open_state; cbn [files]. rewrite lookup_insert_eq. reflexivity. }
  split; [exists before; split; [reflexivity|exact Hb]|].
  cbn [trace open_state]. rewrite !count_log_app, Hb. simpl. lia.
Qed.

Lemma BeginSession_starts_journal_witness :
  let s := exec (BeginSession "old" "t.json")
             (Instrumentor_new {["t.json" := "stale"]} (fun _ => true)) in
  consistent s = true /\ can_open s "t.json" = true
  /\ content (exec (BeginSession "new" "t.json") s) "t.json" = HEADER.
Proof.
  intros s. split; [reflexivity|]. split; [reflexivity|].
  apply (BeginSession_starts_journal "new" "t.json" s); reflexivity.
Defined.

(** ** The paths the sink touches *)

Lemma touches_only_app (allowed : string -> Prop) (l1 l2 : list event) :
  touches_only allowed l1 -> touches_only allowed l2 -> touches_only allowed (l1 ++ l2).
Proof. intros H1 H2. apply Forall_app. split; assumption. Qed.

Lemma run_call_touches (allowed : string -> Prop) (c : call) (s : State) :
  consistent s = true ->
  touches_only allowed (trace s) ->
  (forall q, os_path (m_OutputStream s) = Some q -> allowed q) ->
  (forall name q, c = CallBegin name q -> allowed q) ->
  touches_only allowed (trace (exec (run_call c) s))
  /\ (forall q, os_path (m_OutputStream (exec (run_call c) s)) = Some q -> allowed q).
Proof.
  intros Hc.
  destruct (consistent_cases s Hc) as [(f & fs & co & tr & rc & ->)
                                      |(cur & p & fs & co & tr & rc & ->)];
    cbn [trace m_OutputStream os_path open_state closed_state];
    intros Ht Hp Hb; destruct c as [name filepath| |r]; cbn [run_call].
  - pose proof (Hb name filepath eq_refl) as Hf. destruct (co filepath) eqn:E.
    + rewrite BeginSession_closed_ok by exact E.
      cbn [trace m_OutputStream os_path open_state]. split.
      * apply touches_only_app; [exact Ht|]. repeat constructor; exact Hf.
      * intros q [= <-]. exact Hf.
    + rewrite BeginSession_closed_fail by exact E.
      cbn [trace m_OutputStream os_path closed_state]. split; [|discriminate].
      apply touches_only_app; [exact Ht|]. repeat constructor; exact Hf.
  - unfold EndSession. rewrite InternalEndSession_closed by reflexivity.
    split; [exact Ht|discriminate].
  - rewrite WriteProfile_closed by reflexivity. split; [exact Ht|discriminate].
  - pose proof (Hb name filepath eq_refl) as Hf. pose proof (Hp p eq_refl) as Hpp.
    rewrite BeginSession_open_state. destruct (co filepath) eqn:E.
    + rewrite BeginSession_closed_ok by exact E.
      cbn [trace m_OutputStream os_path open_state]. split.
      * repeat apply touches_only_app; try exact Ht; repeat constructor; assumption.
      * intros q [= <-]. exact Hf.
    + rewrite BeginSession_closed_fail by exact E.
      cbn [trace m_OutputStream os_path closed_state]. split; [|discriminate].
      repeat apply touches_only_app; try exact Ht; repeat constructor; assumption.
  - pose proof (Hp p eq_refl) as Hpp.
    unfold EndSession. rewrite InternalEndSession_open.
    cbn [trace m_OutputStream os_path closed_state]. split; [|discriminate].
    apply touches_only_app; [exact Ht|]. repeat constructor; exact Hpp.
  - pose proof (Hp p eq_refl) as Hpp. rewrite WriteProfile_open.
    cbn [trace m_OutputStream os_path open_state]. split; [|exact Hp].
    apply touches_only_app; [exact Ht|]. repeat constructor; exact Hpp.
Qed.

Lemma run_touches (allowed : string -> Prop) (cs : list call) (s : State) :
  consistent s = true ->
  touches_only allowed (trace s) ->
  (forall q, os_path (m_OutputStream s) = Some q -> allowed q) ->
  (forall q, In q (begin_paths cs) -> allowed q) ->
  touches_only allowed (trace (exec (run cs) s))
  /\ (forall q, os_path (m_OutputStream (exec (run cs) s)) = Some q -> allowed q).
Proof.
  revert s. induction cs as [|c cs IH]; intros s Hc Ht Hp Hb; [split; assumption|].
  rewrite run_cons.
  destruct (run_call_touches allowed c s Hc Ht Hp) as [H1 H2].
  { intros name q ->. apply Hb. left. reflexivity. }
  apply IH; [apply run_call_consistent, Hc|exact H1|exact H2|].
  intros q Hq. apply Hb. destruct c; [right|..]; exact Hq.
Qed.

(** The sink opens, writes and closes no path of its own choosing: every
    event of a sequence of calls on a fresh sink is about the destination
    of one of its calls of [BeginSession], and so is the path the stream
    is left open on. *)
Theorem run_paths (cs : list call) (fs : gmap string string) (openable : string -> bool) :
  let s := exec (run cs) (Instrumentor_new fs openable) in
  touches_only (fun q => In q (begin_paths cs)) (trace s)
  /\ match os_path (m_OutputStream s) with
     | Some q => In q (begin_paths cs)
     | None => True
     end.
Proof.
  intros s.
  destruct (run_touches (fun q => In q (begin_paths cs)) cs (Instrumentor_new fs openable))
    as [H1 H2]; try reflexivity; try discriminate.
  - constructor.
  - trivial.
  - split; [exact H1|]. fold s in H2. destruct (os_path (m_OutputStream s)); [|trivial].
    apply H2. reflexivity.
Qed.

(** ** Records are appended in the order of the calls *)

Lemma run_writes_open (rs : list ProfileResult) cur p fs co tr rc :
  exists fs',
    exec (run (map CallWrite rs)) (open_state cur p fs co tr rc)
    = open_state cur p fs' co
        (tr ++ map (fun r => Written p (WriteProfile_json r)) rs) (rc ++ rs)
    /\ default EmptyString (fs' !! p) = default EmptyString (fs !! p) +:+ records_text rs
    /\ forall q, q <> p -> fs' !! q = fs !! q.
Proof.
  revert fs tr rc. induction rs as [|r rs IH]; intros fs tr rc.
  - exists fs. cbn [map run]. rewrite !List.app_nil_r, append_nil_r. repeat split.
  - rewrite map_cons, run_cons. cbn [run_call]. rewrite WriteProfile_open.
    destruct (IH (<[p := default EmptyString (fs !! p) +:+ WriteProfile_json r]> fs)
                (tr ++ [Written p (WriteProfile_json r)]) (rc ++ [r]))
      as (fs' & E & Hp & Hq).
    exists fs'. rewrite E. split; [|split].
    + rewrite <- !List.app_assoc. reflexivity.
    + rewrite Hp, lookup_insert_eq. cbn [records_text]. simpl.
      rewrite append_assoc. reflexivity.
    + intros q Hne. rewrite Hq by exact Hne. apply lookup_insert_ne. congruence.
Qed.

(** While a session is open, a series of calls of [WriteProfile] appends
    the records to the file of the session in the order of the calls, each
    in one write, keeps the session and the stream as they are, and changes
    no other file. *)
Theorem WriteProfile_series (rs : list ProfileResult) (s : State)
    (sess : InstrumentationSession) (p : string) :
  consistent s = true ->
  m_CurrentSession s = Some sess ->
  os_path (m_OutputStream s) = Some p ->
  let s' := exec (run (map CallWrite rs)) s in
  content s' p = content s p +:+ records_text rs
  /\ trace s' = trace s ++ map (fun r => Written p (WriteProfile_json r)) rs
  /\ m_CurrentSession s' = Some sess
  /\ m_OutputStream s' = m_OutputStream s
  /\ forall q, q <> p -> files s' !! q = files s !! q.
Proof.
  intros Hc Hs Hp.
  rewrite (consistent_open s sess p Hc Hs Hp).
  generalize (files s) (can_open s) (trace s) (received s). intros fs co tr rc.
  destruct (run_writes_open rs sess p fs co tr rc) as (fs' & E & Hf & Hq).
  intros s'. subst s'. rewrite E.
  split; [exact Hf|]. repeat (split; [reflexivity|]). exact Hq.
Qed.

Lemma WriteProfile_series_witness :
  let r1 := {| Name := "a"; Start := FloatingPointMicroseconds 1000;
               ElapsedTime := 1; ThreadID := Thread_id 1 |} in
  let r2 := {| Name := "b"; Start := FloatingPointMicroseconds 2000;
               ElapsedTime := 2; ThreadID := Thread_id 2 |} in
  let s := exec (BeginSession "App" "t.json") (Instrumentor_new ∅ (fun _ => true)) in
  consistent s = true
  /\ m_CurrentSession s = Some {| session_Name := "App" |}
  /\ os_path (m_OutputStream s) = Some "t.json"
  /\ content (exec (run (map CallWrite [r1; r2])) s) "t.json"
     = content s "t.json" +:+ records_text [r1; r2].
Proof.
  intros r1 r2 s. do 3 (split; [reflexivity|]).
  apply (WriteProfile_series [r1; r2] s {| session_Name := "App" |} "t.json");
    reflexivity.
Defined.

(** ** The discipline of the events *)




(** ** What is logged *)

Lemma run_call_logs (c : call) (s : State) :
  consistent s = true ->
  count_log Error (trace (exec (run_call c) s))
  = count_log Error (trace s) + failed_opens (can_open s) [c]
  /\ count_log Warning (trace (exec (run_call c) s))
     = count_log Warning (trace s)
       + discarded_sessions (can_open s) [c]
           (bool_decide (is_Some (m_CurrentSession s)))
  /\ bool_decide (is_Some (m_CurrentSession (exec (run_call c) s)))
     = match c with
       | CallBegin _ filepath => can_open s filepath
       | CallEnd => false
       | CallWrite _ => bool_decide (is_Some (m_CurrentSession s))
       end.
Proof.
  intros Hc.
  destruct (consistent_cases s Hc) as [(f & fs & co & tr & rc & ->)
                                      |(cur & p & fs & co & tr & rc & ->)];
    cbn [trace can_open m_CurrentSession open_state closed_state];
    destruct c as [name filepath| |r]; cbn [run_call failed_opens discarded_sessions].
  - destruct (co filepath) eqn:E.
    + rewrite BeginSession_closed_ok by exact E. cbn [trace m_CurrentSession open_state].
      rewrite !count_log_app. cbn. repeat split; lia.
    + rewrite BeginSession_closed_fail by exact E.
      cbn [trace m_CurrentSession closed_state].
      rewrite !count_log_app. cbn. repeat split; lia.
  - unfold EndSession. rewrite InternalEndSession_closed by reflexivity.
    cbn. repeat split; lia.
  - rewrite WriteProfile_closed by reflexivity. cbn. repeat split; lia.
  - rewrite BeginSession_open_state. destruct (co filepath) eqn:E.
    + rewrite BeginSession_closed_ok by exact E. cbn [trace m_CurrentSession open_state].
      rewrite !count_log_app. cbn. repeat split; lia.
    + rewrite BeginSession_closed_fail by exact E.
      cbn [trace m_CurrentSession closed_state].
      rewrite !count_log_app. cbn. repeat split; lia.
  - unfold EndSession. rewrite InternalEndSession_open. cbn [trace m_CurrentSession closed_state].
    rewrite !count_log_app. cbn. repeat split; lia.
  - rewrite WriteProfile_open. cbn [trace m_CurrentSession open_state].
    rewrite !count_log_app. cbn. repeat split; lia.
Qed.

Lemma failed_opens_cons openable c cs :
  failed_opens openable (c :: cs) = failed_opens openable [c] + failed_opens openable cs.
Proof. destruct c; cbn; lia. Qed.

Lemma discarded_sessions_cons openable c cs b :
  discarded_sessions openable (c :: cs) b
  = discarded_sessions openable [c] b
    + discarded_sessions openable cs
        match c with
        | CallBegin _ filepath => openable filepath
        | CallEnd => false
        | CallWrite _ => b
        end.
Proof. destruct c; cbn; lia. Qed.

(** The sink logs an error exactly once for each [BeginSession] whose
    destination cannot be opened and a warning exactly once for each
    [BeginSession] made while a session is open; [EndSession] and
    [WriteProfile] log nothing. *)
Theorem run_logs (cs : list call) (fs : gmap string string) (openable : string -> bool) :
  let s := exec (run cs) (Instrumentor_new fs openable) in
  count_log Error (trace s) = failed_opens openable cs
  /\ count_log Warning (trace s) = discarded_sessions openable cs false.
Proof.
  assert (forall s, consistent s = true ->
            count_log Error (trace (exec (run cs) s))
            = count_log Error (trace s) + failed_opens (can_open s) cs
            /\ count_log Warning (trace (exec (run cs) s))
               = count_log Warning (trace s)
                 + discarded_sessions (can_open s) cs
                     (bool_decide (is_Some (m_CurrentSession s)))) as H.
  { induction cs as [|c cs IH]; intros s Hc; [cbn; split; lia|].
    rewrite run_cons.
    destruct (run_call_logs c s Hc) as (He & Hw & Hopen).
    destruct (IH _ (run_call_consistent c s Hc)) as [IHe IHw].
    rewrite (can_open_run_call c s Hc) in IHe, IHw.
    rewrite IHe, IHw, He, Hw, Hopen.
    rewrite (failed_opens_cons _ c cs), (discarded_sessions_cons _ c cs). split; lia. }
  intros s. apply (H (Instrumentor_new fs openable)). reflexivity.
Qed.

(** ** A journal that is not ended *)

Lemma after_open_mono (close : ascii) (f g : string -> option string) (s r : string) :
  (forall x y, f x = Some y -> g x = Some y) ->
  after_open close f s = Some r -> after_open close g s = Some r.
Proof.
  intros Hfg. unfold after_open. destruct s as [|d s']; [discriminate|].
  destruct (Ascii.eqb d close); [trivial|]. apply Hfg.
Qed.

Lemma after_item_mono (sep close : ascii) (f g : string -> option string) (s r : string) :
  (forall x y, f x = Some y -> g x = Some y) ->
  after_item sep close f s = Some r -> after_item sep close g s = Some r.
Proof.
  intros Hfg. unfold after_item. destruct (skip_ws s) as [|c s']; [discriminate|].
  destruct (Ascii.eqb c sep); [apply Hfg|trivial].
Qed.

(** More fuel accepts what less fuel accepts, with the same rest. *)
Lemma json_fuel_succ (n : nat) :
  (forall s r, json_value n s = Some r -> json_value (S n) s = Some r)
  /\ (forall s r, json_elements n s = Some r -> json_elements (S n) s = Some r)
  /\ (forall s r, json_members n s = Some r -> json_members (S n) s = Some r).
Proof.
  induction n as [|n (IHv & IHe & IHm)]; [repeat split; discriminate|].
  split; [|split].
  - intros s r. destruct s as [|c s']; [discriminate|]. rewrite !json_value_S.
    destruct (Ascii.eqb c "{"); [apply after_open_mono, IHm|].
    destruct (Ascii.eqb c "["); [apply after_open_mono, IHe|]. trivial.
  - intros s r. rewrite !json_elements_S.
    destruct (json_value n s) as [r1|] eqn:E; [|discriminate].
    rewrite (IHv _ _ E). apply after_item_mono, IHe.
  - intros s r. rewrite !json_members_S.
    destruct (json_key s) as [v|]; [|discriminate].
    destruct (json_value n v) as [r1|] eqn:E; [|discriminate].
    rewrite (IHv _ _ E). apply after_item_mono, IHm.
Qed.

Lemma json_accepts_mono (n m : nat) (s : string) :
  n <= m -> json_accepts n s = true -> json_accepts m s = true.
Proof.
  intros Hle. induction Hle as [|m Hle IH]; [trivial|].
  intros H. specialize (IH H). unfold json_accepts in *.
  destruct (json_value m (skip_ws s)) as [r|] eqn:E; [|discriminate].
  rewrite (proj1 (json_fuel_succ m) _ _ E). exact IH.
Qed.

Lemma json_value_mono (n m : nat) (s r : string) :
  n <= m -> json_value n s = Some r -> json_value m s = Some r.
Proof.
  intros Hle. induction Hle as [|m Hle IH]; [trivial|].
  intros H. apply (proj1 (json_fuel_succ m)), IH, H.
Qed.

(** The object of a record with the id of no thread is no JSON value: the
    text of the id is neither a number nor a string. *)
Lemma span_object_no_thread (m : nat) (r : ProfileResult) (rest : string) :
  json_safe_name (Name r) = true ->
  of_executing_thread (ThreadID r) = false ->
  json_value m (span_object (dur_field r) (name_field r) (tid_field r) (ts_field r)
                +:+ rest) = None.
Proof.
  intros Hname Hexec.
  destruct (json_value m _) as [r1|] eqn:E; [exfalso|reflexivity].
  apply (json_value_mono m (9 + m)) in E; [|lia]. revert E.
  unfold span_object, DQ. rewrite !append_assoc, !append_cons, !append_nil_l.
  cbn [Nat.add]. repeat parse_step.
  unfold dur_field. rewrite json_value_integer by (left; reflexivity).
  repeat parse_step.
  unfold name_field. rewrite json_string_rest_plain by (apply replace_plain, Hname).
  repeat parse_step.
  unfold tid_field, thread_id_text. destruct (ThreadID r) as [h].
  cbn [of_executing_thread] in Hexec. destruct (h =? 0)%N; [|discriminate Hexec].
  rewrite !append_cons. repeat parse_step. discriminate.
Qed.

(** The records of a journal that is not ended stop short of the end of
    the array. *)
Lemma records_elements_open (rs : list ProfileResult) (m : nat) :
  length rs + 10 <= m ->
  forallb well_formed_span rs = true ->
  after_item "," "]" (json_elements m) (records_text rs) = None.
Proof.
  revert m. induction rs as [|r rs IH]; intros m Hm H; [reflexivity|].
  simpl in H. apply andb_prop in H as [Hr Hrs].
  cbn [records_text]. rewrite WriteProfile_json_layout, append_cons.
  rewrite after_item_comma.
  destruct m as [|m]; [simpl in Hm; lia|]. simpl in Hm.
  rewrite json_elements_S.
  replace (skip_ws (span_object (dur_field r) (name_field r) (tid_field r) (ts_field r)
                    +:+ records_text rs))
    with (span_object (dur_field r) (name_field r) (tid_field r) (ts_field r)
          +:+ records_text rs) by reflexivity.
  destruct (of_executing_thread (ThreadID r)) eqn:Hexec.
  - rewrite span_object_value;
      [apply IH; [lia|exact Hrs]|lia|unfold serialisable_span; rewrite Hr, Hexec; reflexivity].
  - apply andb_prop in Hr as [Hname _].
    rewrite (span_object_no_thread m r _ Hname Hexec). reflexivity.
Qed.

Lemma journal_open_rejected (rs : list ProfileResult) (m : nat) :
  length rs + 15 <= m ->
  forallb well_formed_span rs = true ->
  json_accepts m (HEADER +:+ records_text rs) = false.
Proof.
  intros Hm H. unfold json_accepts, HEADER, DQ.
  rewrite !append_assoc, !append_cons, !append_nil_l.
  replace m with (S (S (S (S (S (S (m - 6))))))) by lia.
  simpl skip_ws. repeat parse_step.
  rewrite json_elements_S. repeat parse_step.
  rewrite records_elements_open by (lia || exact H). reflexivity.
Qed.

(** While a session is open its file is the prologue and the records so
    far, and that is not a JSON text (for records that are well formed):
    only [EndSession] or the next [BeginSession] completes the file. *)
Theorem journal_open_not_json (fs : gmap string string) (openable : string -> bool)
    (cs : list call) (p : string) (rs : list ProfileResult) :
  session_log openable cs None = Some (p, rs) ->
  forallb well_formed_span rs = true ->
  let s := exec (run cs) (Instrumentor_new fs openable) in
  content s p = HEADER +:+ records_text rs /\ ~ valid_json (content s p).
Proof.
  intros Hlog Hwf s.
  assert (holds_journal (Instrumentor_new fs openable) None) as H0.
  { exists false, fs, [], []. reflexivity. }
  destruct (run_journal cs _ None H0) as [H _].
  cbn [can_open Instrumentor_new] in H. rewrite Hlog in H.
  destruct H as (sess & fs' & tr & rc & E & Hp).
  assert (content s p = HEADER +:+ records_text rs) as Ec.
  { subst s. rewrite E. unfold content, open_state; cbn [files]. rewrite Hp. reflexivity. }
  split; [exact Ec|]. rewrite Ec. intros [fuel Hacc].
  pose proof (json_accepts_mono fuel (fuel + (length rs + 15)) _ ltac:(lia) Hacc) as H1.
  rewrite (journal_open_rejected rs (fuel + (length rs + 15)) ltac:(lia) Hwf) in H1.
  discriminate.
Qed.

Lemma journal_open_not_json_witness :
  let r := {| Name := "Load"; Start := FloatingPointMicroseconds 1500;
              ElapsedTime := 10000; ThreadID := Thread_id 42 |} in
  let cs := [CallBegin "App" "trace.json"; CallWrite r] in
  let s := exec (run cs) (Instrumentor_new ∅ (fun _ => true)) in
  content s "trace.json" = HEADER +:+ records_text [r]
  /\ ~ valid_json (content s "trace.json").
Proof.
  intros r cs.
  apply (journal_open_not_json ∅ (fun _ => true) cs "trace.json" [r]); reflexivity.
Defined.

(** ** A scoped timer inside a session *)

Lemma timer_life_unstopped (name : string) (start finish : Z) (tid : thread_id) (s : State) :
  exec (timer_life name start [] finish tid) s
  = exec (Stop finish tid (InstrumentationTimer_new name start)) s.
Proof.
  unfold timer_life. rewrite exec_bind.
  change (exec (Stop finish tid (InstrumentationTimer_new name start);; mret tt) s
          = exec (Stop finish tid (InstrumentationTimer_new name start)) s).
  rewrite exec_bind. reflexivity.
Qed.

Lemma default_Some {A} (d x : A) : default d (Some x) = x.
Proof. reflexivity. Qed.

Lemma exec_Stop (now : Z) (tid : thread_id) (t : InstrumentationTimer) (s : State) :
  exec (Stop now tid t) s
  = exec (WriteProfile {| Name := m_Name t;
                          Start := FloatingPointMicroseconds (m_StartTimepoint t);
                          ElapsedTime := (time_point_cast_microseconds now
                                          - time_point_cast_microseconds (m_StartTimepoint t))%Z;
                          ThreadID := tid |}) s.
Proof. unfold Stop. rewrite exec_bind. reflexivity. Qed.

(** A session that holds one scoped timer, constructed at [start] and
    destroyed at [finish] without an explicit [Stop()]: the file is the
    prologue, the one record of the timer and the epilogue, and it is a
    JSON text when the start is a 64-bit tick count, the name is free of
    control characters and backslashes and [tid] is the id of a thread of
    execution, as every id that [std::this_thread::get_id()] returns is. *)
Theorem scoped_timer_journal (fs : gmap string string) (openable : string -> bool)
    (session filepath name : string) (start finish : Z) (tid : thread_id) :
  openable filepath = true ->
  let r := {| Name := name; Start := FloatingPointMicroseconds start;
              ElapsedTime := (finish ÷ 1000 - start ÷ 1000)%Z; ThreadID := tid |} in
  let s := exec (BeginSession session filepath;;
                 timer_life name start [] finish tid;;
                 EndSession) (Instrumentor_new fs openable) in
  content s filepath = HEADER +:+ WriteProfile_json r +:+ FOOTER
  /\ (in_int64 start -> json_safe_name name = true -> of_executing_thread tid = true ->
      valid_json (content s filepath))
  /\ m_CurrentSession s = None
  /\ os_path (m_OutputStream s) = None
  /\ received s = [r]
  /\ trace s = [Opened filepath; Written filepath HEADER;
                Written filepath (WriteProfile_json r);
                Written filepath FOOTER; Closed filepath].
Proof.
  intros Hopen r s.
  assert (s = closed_state false
                (<[filepath := HEADER +:+ WriteProfile_json r +:+ FOOTER]> fs) openable
                [Opened filepath; Written filepath HEADER;
                 Written filepath (WriteProfile_json r);
                 Written filepath FOOTER; Closed filepath] [r]) as E.
  { subst s. rewrite !exec_seq.
    change (Instrumentor_new fs openable) with (closed_state false fs openable [] []).
    rewrite BeginSession_closed_ok by exact Hopen.
    rewrite timer_life_unstopped, exec_Stop.
    cbn [InstrumentationTimer_new m_Name m_StartTimepoint].
    rewrite WriteProfile_open.
    unfold EndSession. rewrite InternalEndSession_open.
    rewrite !lookup_insert_eq, !insert_insert_eq, !default_Some.
    rewrite <- !List.app_assoc, append_assoc. reflexivity. }
  rewrite E. unfold content, closed_state.
  cbn [files m_CurrentSession m_OutputStream os_path received trace].
  rewrite lookup_insert_eq, default_Some.
  split; [reflexivity|]. split; [|repeat split].
  intros Hstart Hname Hexec. exists (length [r] + 15).
  replace (HEADER +:+ WriteProfile_json r +:+ FOOTER)
    with (HEADER +:+ records_text [r] +:+ FOOTER)
    by (cbn [records_text]; rewrite append_nil_r; reflexivity).
  apply journal_accepted. cbn [forallb]. rewrite andb_true_r.
  unfold serialisable_span, well_formed_span, r. cbn [Name Start ThreadID].
  rewrite Hname, Hexec, (FloatingPointMicroseconds_finite start Hstart). reflexivity.
Qed.

Lemma scoped_timer_journal_witness :
  let r := {| Name := "Load"; Start := FloatingPointMicroseconds 1500;
              ElapsedTime := 10; ThreadID := Thread_id 42 |} in
  let s := exec (BeginSession "App" "trace.json";;
                 timer_life "Load" 1500 [] 11999 (Thread_id 42);;
                 EndSession) (Instrumentor_new ∅ (fun _ => true)) in
  content s "trace.json" = HEADER +:+ WriteProfile_json r +:+ FOOTER
  /\ valid_json (content s "trace.json").
Proof.
  intros r s.
  pose proof (scoped_timer_journal ∅ (fun _ => true) "App" "trace.json" "Load"
                1500 11999 (Thread_id 42) eq_refl) as H.
  cbv zeta in H. destruct H as (H1 & H2 & _). split; [exact H1|].
  apply H2; [unfold in_int64, int64_min, int64_max; lia|reflexivity|reflexivity].
Defined.

(** ** Nested timers *)

(** A timer that starts no later and stops no earlier than another reports
    an elapsed time that is no smaller; every elapsed time of a timer that
    stops after it began is non-negative, whatever the sign of the clock
    readings. *)
Theorem Stop_nested_elapsed (outer inner : InstrumentationTimer) (now_i now_o : Z)
    (tid_i tid_o : thread_id) (s s' : State) :
  (m_StartTimepoint outer <= m_StartTimepoint inner)%Z ->
  (m_StartTimepoint inner <= now_i)%Z ->
  (now_i <= now_o)%Z ->
  exists ri ro,
    received (exec (Stop now_i tid_i inner) s) = received s ++ [ri]
    /\ received (exec (Stop now_o tid_o outer) s') = received s' ++ [ro]
    /\ (0 <= ElapsedTime ri <= ElapsedTime ro)%Z.
Proof.
  intros H1 H2 H3. eexists _, _.
  split; [apply received_Stop|]. split; [apply received_Stop|].
  cbn [ElapsedTime]. unfold time_point_cast_microseconds, ticks_per_microsecond.
  pose proof (Z.quot_le_mono _ _ 1000 ltac:(lia) H1).
  pose proof (Z.quot_le_mono _ _ 1000 ltac:(lia) H2).
  pose proof (Z.quot_le_mono _ _ 1000 ltac:(lia) H3).
  lia.
Qed.

Lemma Stop_nested_elapsed_witness :
  exists ri ro,
    received (exec (Stop 2500 (Thread_id 1) (InstrumentationTimer_new "inner" 1999))
                (Instrumentor_new ∅ (fun _ => true))) = [] ++ [ri]
    /\ received (exec (Stop 4000 (Thread_id 1) (InstrumentationTimer_new "outer" (-1)))
                   (Instrumentor_new ∅ (fun _ => true))) = [] ++ [ro]
    /\ (0 <= ElapsedTime ri <= ElapsedTime ro)%Z.
Proof.
  apply (Stop_nested_elapsed (InstrumentationTimer_new "outer" (-1))
           (InstrumentationTimer_new "inner" 1999) 2500 4000 (Thread_id 1) (Thread_id 1)
           (Instrumentor_new ∅ (fun _ => true)) (Instrumentor_new ∅ (fun _ => true)));
    simpl; lia.
Defined.

(** ** Timers outside a session *)

Lemma Stop_each_closed (nows : list Z) (tid : thread_id) (t : InstrumentationTimer)
    (s : State) :
  m_CurrentSession s = None ->
  let s' := snd (Stop_each nows tid t s) in
  m_CurrentSession s' = None /\ m_OutputStream s' = m_OutputStream s
  /\ files s' = files s /\ trace s' = trace s.
Proof.
  revert t s. induction nows as [|now nows IH]; intros t s Hs; [repeat split; exact Hs|].
  cbv zeta. rewrite Stop_each_cons, exec_Stop, WriteProfile_closed by exact Hs.
  apply (IH _ (add_received _ s)). exact Hs.
Qed.

(** A timer that lives while no session is open leaves no mark: however
    often it is stopped, no file changes, no event is recorded and no
    session appears; the sink has only been handed its records. *)
Theorem timer_life_without_session (name : string) (start : Z) (stops : list Z)
    (finish : Z) (tid : thread_id) (s : State) :
  m_CurrentSession s = None ->
  let s' := exec (timer_life name start stops finish tid) s in
  m_CurrentSession s' = None /\ m_OutputStream s' = m_OutputStream s
  /\ files s' = files s /\ trace s' = trace s
  /\ List.length (received s') = List.length (received s) + Nat.max 1 (List.length stops).
Proof.
  intros Hs s'. subst s'. unfold timer_life. rewrite exec_bind.
  pose proof (Stop_each_closed stops tid (InstrumentationTimer_new name start) s Hs) as H.
  pose proof (Stop_each_spec stops tid (InstrumentationTimer_new name start) s) as [Hl Hst].
  cbv zeta in H. destruct H as (H1 & H2 & H3 & H4).
  destruct (Stop_each stops tid (InstrumentationTimer_new name start) s) as [t s1].
  cbn [fst snd] in *. unfold InstrumentationTimer_delete. rewrite Hst.
  destruct stops as [|now stops]; cbn [InstrumentationTimer_new m_Stopped negb].
  - rewrite exec_seq, exec_Stop, WriteProfile_closed by exact H1.
    unfold exec; cbn [mret M_ret snd add_received m_CurrentSession m_OutputStream files
                      trace received].
    rewrite length_app, Hl. cbn. repeat split; try assumption; lia.
  - unfold exec; cbn [mret M_ret snd]. rewrite Hl. cbn [List.length].
    repeat split; try assumption; lia.
Qed.

Lemma timer_life_without_session_witness :
  let s := Instrumentor_new ∅ (fun _ => true) in
  let s' := exec (timer_life "Load" 1500 [2000%Z; 3000%Z] 4000 (Thread_id 1)) s in
  files s' = files s /\ trace s' = trace s /\ List.length (received s') = 2.
Proof.
  intros s s'.
  destruct (timer_life_without_session "Load" 1500 [2000%Z; 3000%Z] 4000 (Thread_id 1) s eq_refl)
    as (_ & _ & H1 & H2 & H3).
  split; [exact H1|]. split; [exact H2|exact H3].
Defined.

(** ** Threads that cannot get stuck *)

Section Schedules.
Import Concurrent.

(** A step leaves the call in progress and one step less to take. *)
Lemma next_instr_remaining (t : thread) (ins : instr) :
  next_instr t = Some ins ->
  in_progress (advance t) = true /\ remaining t = S (remaining (advance t)).
Proof.
  destruct t as [[[c k]|] pend];
    unfold next_instr, advance, in_progress, remaining; cbn [running pending].
  - destruct c; destruct k as [|[|[|[|k]]]]; cbn; intros H;
      try discriminate H; split; reflexivity.
  - destruct pend as [|c rest]; [discriminate|].
    destruct c; cbn; intros H; split; reflexivity.
Qed.

Lemma step_inv (i : nat) (cfg cfg' : config) :
  step i cfg = Some cfg' ->
  exists t ins m,
    threads cfg !! i = Some t /\ next_instr t = Some ins
    /\ effect i ins (mutex cfg) (shared cfg) = Some (m, shared cfg')
    /\ mutex cfg' = m
    /\ threads cfg' = <[i := advance t]> (threads cfg).
Proof.
  unfold step. intros Hstep.
  destruct (threads cfg !! i) as [t|] eqn:Ht; [|discriminate]. cbn in Hstep.
  destruct (next_instr t) as [ins|] eqn:Hn; [|discriminate]. cbn in Hstep.
  destruct (effect i ins (mutex cfg) (shared cfg)) as [[m s]|] eqn:He; [|discriminate].
  cbn in Hstep. injection Hstep as <-. exists t, ins, m. repeat split; assumption.
Qed.

Lemma start_mutex_held_inside (s : State) (calls : list (list call)) :
  mutex_held_inside (start s calls).
Proof.
  split; [discriminate|]. intros i t Hi. unfold start in Hi; cbn [threads] in Hi.
  rewrite list_lookup_fmap in Hi.
  destruct (calls !! i); [|discriminate]. injection Hi as <-. reflexivity.
Qed.

Lemma step_mutex_held_inside (i : nat) (cfg cfg' : config) :
  step i cfg = Some cfg' -> mutex_held_inside cfg -> mutex_held_inside cfg'.
Proof.
  intros Hstep [Hown Hprog].
  destruct (step_inv i cfg cfg' Hstep) as (t & ins & m & Ht & Hn & He & Hm & Hts).
  pose proof (next_instr_cases t ins Hn) as Hcase.
  destruct (next_instr_remaining t ins Hn) as [Hadv _].
  pose proof (lookup_lt_Some _ _ _ Ht) as Hlen.
  split.
  - intros j Hj. rewrite Hts. rewrite Hm in Hj.
    destruct (decide (j = i)) as [->|Hne].
    + exists (advance t). rewrite list_lookup_insert_eq by exact Hlen.
      split; [reflexivity|].
      destruct ins; cbn in He.
      * injection He as <- _. destruct (Hown i Hj) as (t' & Ht' & Hc).
        rewrite Ht in Ht'. injection Ht' as <-. destruct Hcase as [Hc' _]. congruence.
      * apply Hcase.
      * apply Hcase.
      * injection He as <- _. discriminate.
    + rewrite list_lookup_insert_ne by congruence. apply Hown.
      destruct ins; cbn in He.
      * injection He as <- _. exact Hj.
      * destruct (mutex cfg); [discriminate|]. injection He as <- _. congruence.
      * injection He as <- _. exact Hj.
      * injection He as <- _. discriminate.
  - intros j tj Hj. rewrite Hts in Hj.
    destruct (decide (j = i)) as [->|Hne].
    + rewrite list_lookup_insert_eq in Hj by exact Hlen. injection Hj as <-. exact Hadv.
    + rewrite list_lookup_insert_ne in Hj by congruence. apply (Hprog j tj Hj).
Qed.

Lemma schedule_mutex_held_inside (sched : list nat) (cfg cfg' : config) :
  schedule sched cfg = Some cfg' -> mutex_held_inside cfg -> mutex_held_inside cfg'.
Proof.
  revert cfg. induction sched as [|i sched IH]; intros cfg H Inv.
  - injection H as <-. exact Inv.
  - cbn in H. destruct (step i cfg) as [cfg1|] eqn:E; [|discriminate].
    cbn in H. apply (IH cfg1 H). apply (step_mutex_held_inside i cfg cfg1 E Inv).
Qed.

(** A thread in progress with no step left is not under a guard. *)
Lemma done_outside (t : thread) :
  in_progress t = true -> next_instr t = None -> in_critical t = false.
Proof.
  destruct t as [[[c k]|] pend]; unfold next_instr, in_progress, in_critical;
    cbn [running pending].
  - destruct c; destruct k as [|[|[|[|k]]]]; cbn; intros H1 H2; discriminate.
  - reflexivity.
Qed.

Lemma forallb_lookup {A} (f : A -> bool) (l : list A) (i : nat) (x : A) :
  forallb f l = true -> l !! i = Some x -> f x = true.
Proof.
  revert i. induction l as [|y l IH]; intros i H Hi; [destruct i; discriminate|].
  cbn [forallb] in H. apply andb_prop in H as [Hy Hl].
  destruct i as [|i]; [injection Hi as <-; exact Hy|]. apply (IH i Hl Hi).
Qed.

Lemma all_done_lookup (cfg : config) (i : nat) (t : thread) :
  all_done cfg = true -> threads cfg !! i = Some t -> next_instr t = None.
Proof.
  unfold all_done. intros H Hi.
  pose proof (forallb_lookup _ _ i t H Hi) as Ht. cbv beta in Ht.
  destruct (next_instr t); [discriminate|reflexivity].
Qed.

Lemma all_done_finished (cfg : config) :
  mutex_held_inside cfg -> all_done cfg = true -> mutex cfg = None.
Proof.
  intros [Hown Hprog] Hd.
  destruct (mutex cfg) as [j|] eqn:Hm; [|reflexivity].
  destruct (Hown j eq_refl) as (t & Ht & Hc).
  pose proof (done_outside t (Hprog j t Ht) (all_done_lookup cfg j t Hd Ht)) as Hc'.
  congruence.
Qed.

Lemma remaining_steps_insert (ts : list thread) (i : nat) (t t' : thread) :
  ts !! i = Some t -> remaining t = S (remaining t') ->
  remaining_steps ts = S (remaining_steps (<[i := t']> ts)).
Proof.
  revert i. induction ts as [|x ts IH]; intros i Hi Hr; [destruct i; discriminate|].
  destruct i as [|i].
  - injection Hi as ->. cbn [remaining_steps]. 
    change (<[0 := t']> (t :: ts)) with (t' :: ts). cbn [remaining_steps]. lia.
  - change (<[S i := t']> (x :: ts)) with (x :: <[i := t']> ts).
    cbn [remaining_steps]. rewrite (IH i Hi Hr). lia.
Qed.

Lemma step_remaining (i : nat) (cfg cfg' : config) :
  step i cfg = Some cfg' ->
  remaining_steps (threads cfg) = S (remaining_steps (threads cfg')).
Proof.
  intros Hstep.
  destruct (step_inv i cfg cfg' Hstep) as (t & ins & m & Ht & Hn & _ & _ & ->).
  apply (remaining_steps_insert _ i t _ Ht), (next_instr_remaining t ins Hn).
Qed.

Lemma schedule_remaining (sched : list nat) (cfg cfg' : config) :
  schedule sched cfg = Some cfg' ->
  remaining_steps (threads cfg) = List.length sched + remaining_steps (threads cfg').
Proof.
  revert cfg. induction sched as [|i sched IH]; intros cfg H.
  - injection H as <-. reflexivity.
  - cbn in H. destruct (step i cfg) as [cfg1|] eqn:E; [|discriminate].
    cbn in H. rewrite (step_remaining i cfg cfg1 E), (IH cfg1 H). reflexivity.
Qed.

Lemma schedule_app (sched1 sched2 : list nat) (cfg cfg1 : config) :
  schedule sched1 cfg = Some cfg1 ->
  schedule (sched1 ++ sched2) cfg = schedule sched2 cfg1.
Proof.
  revert cfg. induction sched1 as [|i sched1 IH]; intros cfg H.
  - injection H as <-. reflexivity.
  - cbn in H |- *. destruct (step i cfg) as [cfg'|]; [|discriminate].
    cbn in H |- *. apply IH, H.
Qed.

Lemma forallb_false_lookup {A} (f : A -> bool) (l : list A) :
  forallb f l = false -> exists i x, l !! i = Some x /\ f x = false.
Proof.
  induction l as [|y l IH]; [discriminate|]. cbn [forallb]. intros H.
  destruct (f y) eqn:E.
  - destruct (IH H) as (i & x & Hi & Hx). exists (S i), x. split; assumption.
  - exists 0, y. split; [reflexivity|exact E].
Qed.

(** The owner of the mutex is never the one that waits. *)
Lemma owner_steps (t : thread) :
  in_critical t = true -> in_progress t = true ->
  exists ins, next_instr t = Some ins /\ forall i m s, effect i ins m s <> None.
Proof.
  destruct t as [[[c k]|] pend]; unfold next_instr, in_progress, in_critical;
    cbn [running pending]; [|discriminate].
  destruct c; destruct k as [|[|[|[|k]]]]; cbn; intros H1 H2;
    try discriminate; eexists; (split; [reflexivity|]); intros i m s; discriminate.
Qed.

(** Some thread can take a step as long as one has a step left. *)
Lemma progress (cfg : config) :
  mutex_held_inside cfg -> all_done cfg = false -> exists i cfg', step i cfg = Some cfg'.
Proof.
  intros [Hown Hprog] Hd.
  destruct (mutex cfg) as [j|] eqn:Hm.
  - destruct (Hown j eq_refl) as (t & Ht & Hc).
    destruct (owner_steps t Hc (Hprog j t Ht)) as (ins & Hn & He).
    exists j. unfold step. rewrite Ht. cbn. rewrite Hn. cbn.
    destruct (effect j ins (mutex cfg) (shared cfg)) as [[m s]|] eqn:E;
      [eexists; reflexivity|]. exfalso. apply (He _ _ _ E).
  - apply forallb_false_lookup in Hd as (i & t & Ht & Hn).
    destruct (next_instr t) as [ins|] eqn:En; [|discriminate].
    exists i. unfold step. rewrite Ht. cbn. rewrite En. cbn. rewrite Hm.
    destruct ins; eexists; reflexivity.
Qed.

Lemma completion (n : nat) (cfg : config) :
  remaining_steps (threads cfg) = n -> mutex_held_inside cfg ->
  exists rest cfg', schedule rest cfg = Some cfg' /\ all_done cfg' = true.
Proof.
  revert cfg. induction n as [|n IH]; intros cfg Hn Inv;
    (destruct (all_done cfg) eqn:Hd; [exists [], cfg; split; [reflexivity|exact Hd]|]);
    destruct (progress cfg Inv Hd) as (i & cfg1 & Hs);
    pose proof (step_remaining i cfg cfg1 Hs) as Hr.
  - congruence.
  - destruct (IH cfg1 ltac:(congruence) (step_mutex_held_inside i cfg cfg1 Hs Inv))
      as (rest & cfg' & Hrest & Hdone).
    exists (i :: rest), cfg'. cbn. rewrite Hs. cbn. split; assumption.
Qed.

Lemma code_steps_app (cs1 cs2 : list call) :
  code_steps (cs1 ++ cs2) = code_steps cs1 + code_steps cs2.
Proof.
  induction cs1 as [|c cs1 IH]; [reflexivity|].
  cbn [code_steps app]. rewrite IH. lia.
Qed.

Lemma start_remaining (s : State) (calls : list (list call)) :
  remaining_steps (threads (start s calls)) = code_steps (concat calls).
Proof.
  unfold start; cbn [threads]. induction calls as [|cs calls IH]; [reflexivity|].
  cbn [map remaining_steps concat]. rewrite IH, code_steps_app. reflexivity.
Qed.

Lemma done_remaining (t : thread) :
  in_progress t = true -> next_instr t = None -> remaining t = 0.
Proof.
  destruct t as [[[c k]|] pend]; unfold next_instr, in_progress, remaining;
    cbn [running pending].
  - destruct c; destruct k as [|[|[|[|k]]]]; cbn; intros H1 H2; discriminate.
  - destruct pend as [|c rest]; [reflexivity|]. destruct c; cbn; intros _ H; discriminate H.
Qed.

Lemma all_done_remaining (cfg : config) :
  mutex_held_inside cfg -> all_done cfg = true -> remaining_steps (threads cfg) = 0.
Proof.
  intros [_ Hprog] Hd.
  assert (forall i t, threads cfg !! i = Some t -> remaining t = 0) as H.
  { intros i t Hi. apply done_remaining; [apply (Hprog i t Hi)|].
    apply (all_done_lookup cfg i t Hd Hi). }
  revert H. generalize (threads cfg). intros ts. induction ts as [|t ts IH]; [reflexivity|].
  intros H. cbn [remaining_steps]. rewrite (H 0 t eq_refl), IH; [reflexivity|].
  intros i x Hi. apply (H (S i) x Hi).
Qed.

(** The threads cannot deadlock and cannot run for ever: whatever steps
    they have taken, steps remain that bring every thread to the end of
    its last call, with the mutex free; and every schedule that does so
    has one step for each statement of each call. *)
Theorem no_deadlock (s : State) (calls : list (list call)) (sched : list nat) (cfg : config) :
  schedule sched (start s calls) = Some cfg ->
  (exists rest cfg',
     schedule (sched ++ rest) (start s calls) = Some cfg'
     /\ all_done cfg' = true /\ mutex cfg' = None)
  /\ List.length sched + remaining_steps (threads cfg) = code_steps (concat calls)
  /\ (all_done cfg = true -> List.length sched = code_steps (concat calls)).
Proof.
  intros H.
  pose proof (schedule_mutex_held_inside sched _ _ H (start_mutex_held_inside s calls))
    as Inv.
  pose proof (schedule_remaining sched _ _ H) as Hlen. rewrite start_remaining in Hlen.
  split; [|split].
  - destruct (completion _ cfg eq_refl Inv) as (rest & cfg' & Hrest & Hd).
    exists rest, cfg'. rewrite (schedule_app sched rest _ cfg H).
    split; [exact Hrest|]. split; [exact Hd|].
    apply all_done_finished; [|exact Hd].
    apply (schedule_mutex_held_inside rest cfg cfg' Hrest Inv).
  - lia.
  - intros Hd. rewrite (all_done_remaining cfg Inv Hd) in Hlen. lia.
Qed.

Lemma no_deadlock_witness :
  let r := {| Name := "Load"; Start := FloatingPointMicroseconds 1500;
              ElapsedTime := 10; ThreadID := Thread_id 2 |} in
  let s := Instrumentor_new ∅ (fun _ => true) in
  let calls := [[CallBegin "App" "trace.json"; CallEnd]; [CallWrite r]] in
  exists cfg,
    schedule [0; 1; 0] (start s calls) = Some cfg
    /\ mutex cfg = Some 0
    /\ exists rest cfg',
         schedule ([0; 1; 0] ++ rest) (start s calls) = Some cfg'
         /\ all_done cfg' = true /\ mutex cfg' = None.
Proof.
  intros r s calls. eexists. split; [reflexivity|]. split; [reflexivity|].
  apply (proj1 (no_deadlock s calls [0; 1; 0] _ eq_refl)).
Defined.


End Schedules.

(** ** Atomicity of the calls *)

Section Atomicity.
Import Statements.

Lemma run_InternalEndSession_prog (k : prog) (s : State) :
  run_prog (InternalEndSession_prog k) s = run_prog k (exec InternalEndSession s).
Proof.
  unfold InternalEndSession_prog, InternalEndSession, session_is_set. cbn [run_prog].
  rewrite exec_gets. destruct (m_CurrentSession s); [|reflexivity].
  unfold WriteFooter. rewrite !exec_seq. reflexivity.
Qed.

Lemma run_open_prog (name filepath : string) (s : State) :
  run_prog (open_prog name filepath) s
  = exec (stream_open filepath;;
          opened ← stream_is_open;
          if (opened : bool)
          then modify (set_session (Some {| session_Name := name |}));; WriteHeader
          else LOGE ["Instrumentor could not open results file '"; filepath; "'."]) s.
Proof.
  unfold open_prog. cbn [run_prog]. rewrite exec_seq.
  unfold stream_opened, stream_is_open. rewrite exec_gets. unfold gets. cbn [fst].
  destruct (bool_decide _); [|reflexivity].
  unfold WriteHeader. rewrite !exec_seq. reflexivity.
Qed.

(** The statements of a call, run without interruption, are the
    operation. *)
Lemma run_prog_call (c : call) (s : State) :
  run_prog (prog_of c) s = exec (run_call c) s.
Proof.
  destruct c as [name filepath| |r]; cbn [prog_of run_call].
  - unfold BeginSession_prog, BeginSession, session_is_set. cbn [run_prog].
    rewrite exec_gets, exec_seq.
    destruct (m_CurrentSession s) as [cur|] eqn:Hs.
    + rewrite run_InternalEndSession_prog, run_open_prog, exec_seq.
      unfold warn_open. rewrite exec_gets, Hs. reflexivity.
    + rewrite run_open_prog. reflexivity.
  - unfold EndSession_prog, EndSession. cbn [run_prog].
    rewrite run_InternalEndSession_prog. reflexivity.
  - unfold WriteProfile_prog, WriteProfile, WriteProfile_locked, session_is_set.
    cbn [run_prog]. rewrite exec_seq, exec_gets.
    destruct (m_CurrentSession _); [|reflexivity].
    rewrite exec_seq. reflexivity.
Qed.

Lemma before_ok_prog_of (c : call) : before_ok (prog_of c) = true.
Proof. destruct c; reflexivity. Qed.

Lemma before_not_inside (p : prog) : before_ok p = true -> inside_ok p = false.
Proof. destruct p; try discriminate; reflexivity. Qed.

Lemma inside_not_before (p : prog) : inside_ok p = true -> before_ok p = false.
Proof. destruct p; try discriminate; reflexivity. Qed.

Lemma start_guarded (s : State) (calls : list (list call)) : guarded (start s calls).
Proof.
  split; [|discriminate]. intros j t Hj. unfold start in Hj; cbn [threads] in Hj.
  rewrite list_lookup_fmap in Hj. destruct (calls !! j); [|discriminate].
  injection Hj as <-. exact I.
Qed.

Lemma thread_ok_other (m m' : option nat) (i j : nat) (t : thread) :
  j <> i -> (m' = m \/ m = None \/ m = Some i) -> thread_ok m j t -> thread_ok m' j t.
Proof.
  intros Hne Hm. unfold thread_ok. destruct (current t) as [[c p]|]; [|trivial].
  intros [H|[[H1 H2]|H]]; [left; exact H| |right; right; exact H].
  right; left. split; [exact H1|]. destruct Hm as [Hm | [Hm | Hm]]; congruence.
Qed.

Lemma committed_unowned (cfg : config) : mutex cfg = None -> committed cfg = shared cfg.
Proof. unfold committed. intros ->. reflexivity. Qed.

Lemma committed_owned (cfg : config) (j : nat) (t : thread) (c : call) (p : prog) :
  mutex cfg = Some j -> threads cfg !! j = Some t -> current t = Some (c, p) ->
  committed cfg = run_prog p (shared cfg).
Proof.
  unfold committed. intros -> -> H. destruct t as [cur pend]. cbn in H. subst cur.
  reflexivity.
Qed.

Lemma run_one (c : call) (s : State) : exec (run [c]) s = exec (run_call c) s.
Proof. rewrite run_cons. reflexivity. Qed.

(** A step keeps the discipline of the guard, moves the committed state by
    the call that takes the mutex, if one does, and takes that call from
    the calls to come. *)
Lemma step_guarded (i : nat) (cfg cfg' : config) (t : thread) :
  guarded cfg -> threads cfg !! i = Some t -> step i cfg = Some cfg' ->
  guarded cfg'
  /\ committed cfg' = exec (run (acquires t)) (committed cfg)
  /\ exists t', threads cfg' = <[i := t']> (threads cfg)
                /\ todo t = acquires t ++ todo t'.
Proof.
  intros [Hok Hown] Ht Hstep. unfold step in Hstep. rewrite Ht in Hstep. cbn in Hstep.
  pose proof (lookup_lt_Some _ _ _ Ht) as Hlen.
  pose proof (Hok i t Ht) as Hi. unfold thread_ok in Hi.
  destruct t as [[[c p]|] pend]; cbn [current pending] in *.
  - destruct (advance i p (mutex cfg) (shared cfg)) as [[[k m] s]|] eqn:Ha;
      [|discriminate]. cbn in Hstep. injection Hstep as <-.
    destruct Hi as [[Hb Hrun] | [[Hin Hm] | ->]].
    + (* before the guard *)
      pose proof (before_not_inside p Hb) as Hni.
      assert (forall j, mutex cfg = Some j -> j <> i) as Hne.
      { intros j Hj ->. destruct (Hown i Hj) as (t0 & c0 & p0 & H0 & H1 & H2).
        rewrite Ht in H0. injection H0 as <-. cbn in H1. injection H1 as <- <-.
        congruence. }
      destruct p; try discriminate Hb; cbn in Ha.
      * (* Local *)
        injection Ha as <- <- <-. cbn [before_ok] in Hb. split; [split|split].
        -- intros j tj Hj. cbn [threads mutex] in *.
           destruct (decide (j = i)) as [->|Hji].
           ++ rewrite list_lookup_insert_eq in Hj by exact Hlen. injection Hj as <-.
              left. split; [exact Hb|]. intros s. apply (Hrun s).
           ++ rewrite list_lookup_insert_ne in Hj by congruence. apply (Hok j tj Hj).
        -- intros j Hj. cbn [threads mutex] in *. destruct (Hown j Hj) as (t0 & H0).
           exists t0. rewrite list_lookup_insert_ne by (intros E; apply (Hne j Hj); symmetry; exact E).
           exact H0.
        -- unfold committed; cbn [mutex shared threads].
           destruct (mutex cfg) as [j|] eqn:Hj; [|reflexivity].
           rewrite list_lookup_insert_ne by (intros E; apply (Hne j eq_refl); symmetry; exact E).
           reflexivity.
        -- eexists. split; [reflexivity|]. unfold todo, acquires; cbn [current pending option_map].
           cbn [before_ok]. reflexivity.
      * (* Acquire *)
        destruct (mutex cfg) as [j|] eqn:Hj; [discriminate|]. injection Ha as <- <- <-.
        cbn [before_ok] in Hb. split; [split|split].
        -- intros j tj Hjt. cbn [threads mutex] in *.
           destruct (decide (j = i)) as [->|Hji].
           ++ rewrite list_lookup_insert_eq in Hjt by exact Hlen. injection Hjt as <-.
              right; left. split; [exact Hb|reflexivity].
           ++ rewrite list_lookup_insert_ne in Hjt by congruence.
              apply (thread_ok_other None (Some i) i j tj Hji); [right; left; reflexivity|].
              apply (Hok j tj Hjt).
        -- intros j [= <-]. cbn [threads]. eexists _, c, p.
           rewrite list_lookup_insert_eq by exact Hlen. repeat split. exact Hb.
        -- rewrite (committed_unowned cfg Hj). unfold committed.
           cbn [mutex shared threads]. rewrite list_lookup_insert_eq by exact Hlen.
           cbn [current option_map acquires]. rewrite run_one, <- Hrun. reflexivity.
        -- eexists. split; [reflexivity|]. unfold todo, acquires; cbn [current pending option_map].
           cbn [before_ok]. rewrite Hb, (inside_not_before p Hb). reflexivity.
    + (* under the guard *)
      pose proof (inside_not_before p Hin) as Hnb.
      assert (committed cfg = run_prog p (shared cfg)) as Hc
        by (apply (committed_owned cfg i _ c p Hm Ht eq_refl)).
      destruct p; try discriminate Hin; cbn in Ha.
      * (* Release *)
        injection Ha as <- <- <-. destruct p; try discriminate Hin.
        split; [split|split].
        -- intros j tj Hj. cbn [threads mutex] in *.
           destruct (decide (j = i)) as [->|Hji].
           ++ rewrite list_lookup_insert_eq in Hj by exact Hlen. injection Hj as <-.
              right; right. reflexivity.
           ++ rewrite list_lookup_insert_ne in Hj by congruence.
              apply (thread_ok_other (mutex cfg) None i j tj Hji);
                [right; right; exact Hm|]. apply (Hok j tj Hj).
        -- discriminate.
        -- rewrite Hc. reflexivity.
        -- eexists. split; [reflexivity|]. reflexivity.
      * (* Do *)
        injection Ha as <- <- <-. cbn [inside_ok] in Hin. split; [split|split].
        -- intros j tj Hj. cbn [threads mutex] in *.
           destruct (decide (j = i)) as [->|Hji].
           ++ rewrite list_lookup_insert_eq in Hj by exact Hlen. injection Hj as <-.
              right; left. split; [exact Hin|exact Hm].
           ++ rewrite list_lookup_insert_ne in Hj by congruence. apply (Hok j tj Hj).
        -- intros j Hj. cbn [threads mutex] in *.
           assert (j = i) as -> by congruence. eexists _, c, p.
           rewrite list_lookup_insert_eq by exact Hlen. repeat split. exact Hin.
        -- rewrite Hc. unfold committed. cbn [mutex shared threads].
           rewrite Hm, list_lookup_insert_eq by exact Hlen. reflexivity.
        -- eexists. split; [reflexivity|]. unfold todo, acquires; cbn [current pending option_map].
           cbn [before_ok]. rewrite (inside_not_before p Hin). reflexivity.
      * (* Test *)
        injection Ha as <- <- <-. cbn [inside_ok] in Hin.
        apply andb_prop in Hin as [Hin1 Hin2].
        assert (inside_ok (if cond (shared cfg) then p1 else p2) = true) as Hin'
          by (destruct (cond (shared cfg)); assumption).
        split; [split|split].
        -- intros j tj Hj. cbn [threads mutex] in *.
           destruct (decide (j = i)) as [->|Hji].
           ++ rewrite list_lookup_insert_eq in Hj by exact Hlen. injection Hj as <-.
              right; left. split; [exact Hin'|exact Hm].
           ++ rewrite list_lookup_insert_ne in Hj by congruence. apply (Hok j tj Hj).
        -- intros j Hj. cbn [threads mutex] in *.
           assert (j = i) as -> by congruence. eexists _, c, _.
           rewrite list_lookup_insert_eq by exact Hlen. repeat split. exact Hin'.
        -- rewrite Hc. unfold committed. cbn [mutex shared threads].
           rewrite Hm, list_lookup_insert_eq by exact Hlen.
           cbn [current option_map acquires run_prog].
           destruct (cond (shared cfg)); reflexivity.
        -- eexists. split; [reflexivity|]. unfold todo, acquires; cbn [current pending option_map].
           cbn [before_ok]. rewrite (inside_not_before _ Hin'). reflexivity.
    + (* about to return *)
      cbn in Ha. injection Ha as <- <- <-.
      assert (forall j, mutex cfg = Some j -> j <> i) as Hne.
      { intros j Hj ->. destruct (Hown i Hj) as (t0 & c0 & p0 & H0 & H1 & H2).
        rewrite Ht in H0. injection H0 as <-. cbn in H1. injection H1 as <- <-.
        discriminate. }
      split; [split|split].
      * intros j tj Hj. cbn [threads mutex] in *.
        destruct (decide (j = i)) as [->|Hji].
        -- rewrite list_lookup_insert_eq in Hj by exact Hlen. injection Hj as <-. exact I.
        -- rewrite list_lookup_insert_ne in Hj by congruence. apply (Hok j tj Hj).
      * intros j Hj. cbn [threads mutex] in *. destruct (Hown j Hj) as (t0 & H0).
        exists t0. rewrite list_lookup_insert_ne by (intros E; apply (Hne j Hj); symmetry; exact E).
        exact H0.
      * unfold committed; cbn [mutex shared threads].
        destruct (mutex cfg) as [j|] eqn:Hj; [|reflexivity].
        rewrite list_lookup_insert_ne by (intros E; apply (Hne j eq_refl); symmetry; exact E).
        reflexivity.
      * eexists. split; [reflexivity|]. reflexivity.
  - (* the thread enters its next call *)
    destruct pend as [|c rest]; [discriminate|]. injection Hstep as <-.
    assert (forall j, mutex cfg = Some j -> j <> i) as Hne.
    { intros j Hj ->. destruct (Hown i Hj) as (t0 & c0 & p0 & H0 & H1 & H2).
      rewrite Ht in H0. injection H0 as <-. discriminate. }
    split; [split|split].
    + intros j tj Hj. cbn [threads mutex] in *.
      destruct (decide (j = i)) as [->|Hji].
      * rewrite list_lookup_insert_eq in Hj by exact Hlen. injection Hj as <-.
        left. split; [apply before_ok_prog_of|apply run_prog_call].
      * rewrite list_lookup_insert_ne in Hj by congruence. apply (Hok j tj Hj).
    + intros j Hj. cbn [threads mutex] in *. destruct (Hown j Hj) as (t0 & H0).
      exists t0. rewrite list_lookup_insert_ne by (intros E; apply (Hne j Hj); symmetry; exact E).
      exact H0.
    + unfold committed; cbn [mutex shared threads].
      destruct (mutex cfg) as [j|] eqn:Hj; [|reflexivity].
      rewrite list_lookup_insert_ne by (intros E; apply (Hne j eq_refl); symmetry; exact E).
      reflexivity.
    + eexists. split; [reflexivity|]. unfold todo, acquires; cbn [current pending option_map].
      rewrite before_ok_prog_of. reflexivity.
Qed.

Lemma interleaving_prefix (ls : list (list call)) (i : nat) (a x l : list call) :
  ls !! i = Some (a ++ x) ->
  interleaving (<[i := x]> ls) l ->
  interleaving ls (a ++ l).
Proof.
  revert ls. induction a as [|c a IH]; intros ls Hi Hl.
  - rewrite list_insert_id in Hl by exact Hi. exact Hl.
  - cbn [app] in *. apply (interleaving_cons ls i c (a ++ x) _ Hi).
    apply IH.
    + apply list_lookup_insert_eq, (lookup_lt_Some _ _ _ Hi).
    + rewrite list_insert_insert_eq. exact Hl.
Qed.

Lemma lock_order_cons (i : nat) (sched : list nat) (cfg cfg' : config) (t : thread) :
  threads cfg !! i = Some t -> step i cfg = Some cfg' ->
  lock_order (i :: sched) cfg = acquires t ++ lock_order sched cfg'.
Proof. intros Ht Hs. cbn [lock_order]. rewrite Ht, Hs. reflexivity. Qed.

Lemma schedule_guarded (sched : list nat) (cfg cfg' : config) :
  guarded cfg -> schedule sched cfg = Some cfg' ->
  guarded cfg'
  /\ committed cfg' = exec (run (lock_order sched cfg)) (committed cfg)
  /\ forall l, interleaving (map todo (threads cfg')) l ->
               interleaving (map todo (threads cfg)) (lock_order sched cfg ++ l).
Proof.
  revert cfg. induction sched as [|i sched IH]; intros cfg Hg H.
  - injection H as <-. split; [exact Hg|]. split; [reflexivity|]. intros l Hl. exact Hl.
  - cbn [schedule] in H. destruct (step i cfg) as [cfg1|] eqn:E; [|discriminate].
    cbn in H.
    assert (exists t, threads cfg !! i = Some t) as [t Ht].
    { unfold step in E. destruct (threads cfg !! i) as [t|]; [|discriminate].
      exists t. reflexivity. }
    destruct (step_guarded i cfg cfg1 t Hg Ht E) as (Hg1 & Hc1 & t' & Hts & Htodo).
    destruct (IH cfg1 Hg1 H) as (Hg' & Hc' & Hi').
    rewrite (lock_order_cons i sched cfg cfg1 t Ht E).
    split; [exact Hg'|]. split.
    + rewrite run_app, <- Hc1. exact Hc'.
    + intros l Hl. specialize (Hi' l Hl). rewrite Hts, list_fmap_insert in Hi'.
      rewrite <- List.app_assoc.
      apply (interleaving_prefix _ i (acquires t) (todo t')); [|exact Hi'].
      rewrite list_lookup_fmap, Ht. cbn. rewrite Htodo. reflexivity.
Qed.

Lemma start_todo (s : State) (calls : list (list call)) :
  map todo (threads (start s calls)) = calls.
Proof.
  unfold start; cbn [threads]. induction calls as [|cs calls IH]; [reflexivity|].
  cbn [map]. rewrite IH. reflexivity.
Qed.

Lemma finished_lookup (cfg : config) (i : nat) (t : thread) :
  finished cfg = true -> threads cfg !! i = Some t -> current t = None /\ pending t = [].
Proof.
  unfold finished. intros H Hi. pose proof (forallb_lookup _ _ i t H Hi) as Ht.
  cbv beta in Ht. destruct (current t); [discriminate|].
  destruct (pending t); [split; reflexivity|discriminate].
Qed.

Lemma finished_released (cfg : config) :
  guarded cfg -> finished cfg = true ->
  mutex cfg = None /\ interleaving (map todo (threads cfg)) [].
Proof.
  intros [_ Hown] Hf. split.
  - destruct (mutex cfg) as [j|] eqn:Hm; [|reflexivity].
    destruct (Hown j eq_refl) as (t & c & p & Ht & Hc & _).
    destruct (finished_lookup cfg j t Hf Ht) as [Hn _]. congruence.
  - apply interleaving_nil, Forall_lookup. intros i cs Hcs.
    rewrite list_lookup_fmap in Hcs.
    destruct (threads cfg !! i) as [t|] eqn:Hi; [|discriminate]. injection Hcs as <-.
    destruct (finished_lookup cfg i t Hf Hi) as [Hn Hp]. unfold todo. rewrite Hn. exact Hp.
Qed.

(** The calls of concurrent threads take effect one at a time, in the
    order in which they take [m_Mutex], although the statements under a
    guard are steps of their own that other threads take steps between:
    after any schedule the shared state, once the owner of the mutex has
    finished its guarded statements, is the state after the calls made one
    after the other in that order; when the mutex is free it is the shared
    state itself; and once every thread has returned, the mutex is free
    and the order is an interleaving of the threads' calls. *)
Theorem schedule_linearisable (s : State) (calls : list (list call)) (sched : list nat)
    (cfg : config) :
  schedule sched (start s calls) = Some cfg ->
  let l := lock_order sched (start s calls) in
  committed cfg = exec (run l) s
  /\ (mutex cfg = None -> shared cfg = exec (run l) s)
  /\ (finished cfg = true -> mutex cfg = None /\ interleaving calls l).
Proof.
  intros H l.
  destruct (schedule_guarded sched _ cfg (start_guarded s calls) H) as (Hg & Hc & Hi).
  fold l in Hc, Hi. change (committed (start s calls)) with s in Hc.
  split; [exact Hc|]. split.
  - intros Hm. rewrite <- Hc. symmetry. apply committed_unowned, Hm.
  - intros Hf. destruct (finished_released cfg Hg Hf) as [Hm Hn]. split; [exact Hm|].
    specialize (Hi [] Hn). rewrite start_todo, List.app_nil_r in Hi. exact Hi.
Qed.



Lemma schedule_linearisable_witness :
  let r := {| Name := "Load"; Start := FloatingPointMicroseconds 1500;
              ElapsedTime := 10; ThreadID := Thread_id 2 |} in
  let s := exec (BeginSession "App" "trace.json") (Instrumentor_new ∅ (fun _ => true)) in
  let calls := [[CallEnd]; [CallWrite r]] in
  let sched := [0; 0; 0; 0; 1; 1; 0; 0; 0; 0; 0; 1; 1; 1; 1; 1] in
  let cfg := default (start s calls) (schedule sched (start s calls)) in
  schedule sched (start s calls) = Some cfg
  /\ option_map mutex (schedule [0; 0; 0; 0; 1; 1] (start s calls)) = Some (Some 0)
  /\ lock_order sched (start s calls) = [CallEnd; CallWrite r]
  /\ finished cfg = true
  /\ shared cfg = exec (run [CallEnd; CallWrite r]) s.
Proof.
  intros r s calls sched cfg.
  assert (schedule sched (start s calls) = Some cfg) as H by (vm_compute; reflexivity).
  assert (lock_order sched (start s calls) = [CallEnd; CallWrite r]) as El by reflexivity.
  split; [exact H|]. split; [vm_compute; reflexivity|]. split; [exact El|].
  split; [vm_compute; reflexivity|].
  pose proof (schedule_linearisable s calls sched cfg H) as HL. cbv zeta in HL.
  rewrite El in HL. apply HL. vm_compute. reflexivity.
Defined.

(** ** Threads that report spans while a session is open *)







End Atomicity.
